(** * The Still: clock rings and staged presence

    A shallow embedding of the two units of the repository that carry
    arithmetic: [RingPoints] / [ClockSystem] (ClockSystem.ts, the revision
    whose header reads "Presence behavior (FINALIZED)") and
    [PresenceSystem] (PresenceSystem.ts).

    Numbers.  A JavaScript number is modelled as an exact real; rounding of
    binary64 arithmetic and of the [Float32Array] stores is abstracted away.
    The one non-real value the code can produce from real inputs is [NaN],
    which [Math.pow] returns for a negative base and a fractional exponent;
    it is kept as a value of its own ([number]) and propagates through
    arithmetic and comparisons as in ECMAScript. *)

From stdpp Require Import base list gmap strings.
From Stdlib Require Import Reals Lra Lia ZArith.
From Stdlib Require String.
Import (notations) String.

Local Open Scope R_scope.

(** ** JavaScript numbers *)

Inductive number : Type :=
  | NaN : number
  | Fin : R -> number.

Definition nadd (a b : number) : number :=
  match a, b with
  | Fin x, Fin y => Fin (x + y)
  | _, _ => NaN
  end.

Definition nmul (a b : number) : number :=
  match a, b with
  | Fin x, Fin y => Fin (x * y)
  | _, _ => NaN
  end.

(** [a > b] of JavaScript: false as soon as one side is NaN. *)
Definition ngt (a b : number) : bool :=
  match a, b with
  | Fin x, Fin y => if Rlt_dec y x then true else false
  | _, _ => false
  end.

(** [Math.max(a, b)] and [Math.min(a, b)]: NaN if either argument is. *)
Definition nmax (a b : number) : number :=
  match a, b with
  | Fin x, Fin y => Fin (Rmax x y)
  | _, _ => NaN
  end.

Definition nmin (a b : number) : number :=
  match a, b with
  | Fin x, Fin y => Fin (Rmin x y)
  | _, _ => NaN
  end.

(** A stored value is acceptable when it is a real of the unit interval. *)
Definition in_unit (a : number) : Prop :=
  match a with
  | Fin x => 0 <= x <= 1
  | NaN => False
  end.

(** Order on numbers; like the JavaScript comparison it never relates NaN. *)
Definition nle (a b : number) : Prop :=
  match a, b with
  | Fin x, Fin y => x <= y
  | _, _ => False
  end.

(** ** Built-ins used by the source *)

Module JS.

(** Truncation toward zero. *)
Definition trunc (x : R) : Z :=
  if Rle_dec 0 x then Int_part x else (- Int_part (- x))%Z.

(** [a % b] on numbers: the remainder has the sign of the dividend.
    Every use in the source has the divisor [tau > 0]. *)
Definition rem (a b : R) : R := a - b * IZR (trunc (a / b)).

Definition is_integer (y : R) : Prop := IZR (Int_part y) = y.

Definition integer_dec (y : R) : {is_integer y} + {~ is_integer y} :=
  Req_dec_T (IZR (Int_part y)) y.

(** [Math.pow(x, y)] on real arguments.  A zero base with a negative
    exponent gives [Infinity] in JavaScript; infinities are not
    represented, and that case does not arise: both call sites pass an
    exponent that is at least 1. *)
Definition Math_pow (x y : R) : number :=
  if Req_dec_T y 0 then Fin 1
  else match total_order_T x 0 with
       | inleft (left _) =>
           if integer_dec y
           then Fin ((if Z.even (Int_part y) then 1 else -1) * Rpower (- x) y)
           else NaN
       | inleft (right _) => if Rlt_dec 0 y then Fin 0 else NaN
       | inright _ => Fin (Rpower x y)
       end.

End JS.

(** three.js [MathUtils], as published by the library:
    [clamp(v, lo, hi) = Math.max(lo, Math.min(hi, v))] and
    [lerp(x, y, t) = (1 - t) * x + t * y]. *)
Module MathUtils.

Definition clamp (value lo hi : R) : R := Rmax lo (Rmin hi value).

Definition nclamp (value : number) (lo hi : R) : number :=
  nmax (Fin lo) (nmin (Fin hi) value).

Definition lerp (x y t : R) : R := (1 - t) * x + t * y.

End MathUtils.

Definition tau : R := PI * 2.


(** ** PresenceSystem.ts *)

Module PresenceSystem.

Record PresenceState : Type := {
  level : R;
  lastUpdate : R
}.

Record ClockPresenceLevels : Type := {
  hour : number;
  minute : number;
  second : number
}.

Record PresenceGatesConfig : Type := {
  hourFadeSeconds : R;
  minuteFadeSeconds : R;
  secondFadeSeconds : R;
  easePower : R
}.

(** [Partial<PresenceGatesConfig>]: a key is present or not. *)
Record PartialGatesConfig : Type := {
  p_hourFadeSeconds : option R;
  p_minuteFadeSeconds : option R;
  p_secondFadeSeconds : option R;
  p_easePower : option R
}.

Record T : Type := {
  state : PresenceState;
  gates : PresenceGatesConfig
}.

Definition defaultGates : PresenceGatesConfig :=
  {| hourFadeSeconds := 60; minuteFadeSeconds := 30;
     secondFadeSeconds := 15; easePower := 1 |}.

(** The constructor; [now] stands for the reading of [performance.now()]. *)
Definition new (now : R) : T :=
  {| state := {| level := 0; lastUpdate := now |}; gates := defaultGates |}.

Definition update (deltaTime now : R) (s : T) : T :=
  {| state := {| level := level (state s); lastUpdate := now |};
     gates := gates s |}.

Definition getPresenceLevel (s : T) : R := level (state s).

Definition setPresenceLevel (lvl now : R) (s : T) : T :=
  {| state := {| level := MathUtils.clamp lvl 0 1; lastUpdate := now |};
     gates := gates s |}.

Definition nudgePresence (delta now : R) (s : T) : T :=
  setPresenceLevel (level (state s) + delta) now s.

(** The object spread [{ ...this.gates, ...partial }]. *)
Definition spread (g : PresenceGatesConfig) (p : PartialGatesConfig)
  : PresenceGatesConfig :=
  {| hourFadeSeconds := default (hourFadeSeconds g) (p_hourFadeSeconds p);
     minuteFadeSeconds := default (minuteFadeSeconds g) (p_minuteFadeSeconds p);
     secondFadeSeconds := default (secondFadeSeconds g) (p_secondFadeSeconds p);
     easePower := default (easePower g) (p_easePower p) |}.

Definition setGatesConfig (partial : PartialGatesConfig) (s : T) : T :=
  let merged := spread (gates s) partial in
  {| state := state s;
     gates := {| hourFadeSeconds := Rmax (1 / 1000) (hourFadeSeconds merged);
                 minuteFadeSeconds := Rmax (1 / 1000) (minuteFadeSeconds merged);
                 secondFadeSeconds := Rmax (1 / 1000) (secondFadeSeconds merged);
                 easePower := Rmax 0 (easePower merged) |} |}.


Definition computeStageValue (s : T)
  (progressedSeconds stageStart stageDuration : R) : number :=
  let t := (progressedSeconds - stageStart) / stageDuration in
  if Rle_dec t 0 then Fin 1
  else if Rle_dec 1 t then Fin 0
  else
    let linear := 1 - t in
    let eased :=
      if Rle_dec (easePower (gates s)) 0 then Fin linear
      else JS.Math_pow linear (1 + easePower (gates s)) in
    MathUtils.nclamp eased 0 1.

Definition getClockPresenceLevels (s : T) : ClockPresenceLevels :=
  let p := MathUtils.clamp (level (state s)) 0 1 in
  let g := gates s in
  let total := hourFadeSeconds g + minuteFadeSeconds g + secondFadeSeconds g in
  let progressed := (1 - p) * total in
  {| hour := computeStageValue s progressed 0 (hourFadeSeconds g);
     minute := computeStageValue s progressed (hourFadeSeconds g)
                 (minuteFadeSeconds g);
     second := computeStageValue s progressed
                 (hourFadeSeconds g + minuteFadeSeconds g)
                 (secondFadeSeconds g) |}.

Definition getHourPresence (s : T) : number := hour (getClockPresenceLevels s).
Definition getMinutePresence (s : T) : number := minute (getClockPresenceLevels s).
Definition getSecondPresence (s : T) : number := second (getClockPresenceLevels s).

(** The gates the object can hold: the defaults, or what [setGatesConfig]
    leaves behind. *)
Definition gates_ok (g : PresenceGatesConfig) : Prop :=
  0 < hourFadeSeconds g /\ 0 < minuteFadeSeconds g /\
  0 < secondFadeSeconds g /\ 0 <= easePower g.

End PresenceSystem.

(** The staged fade as the specification words it: 1 before the window,
    0 after it, [(1 - t) ^ (1 + easePower)] clamped to the unit interval
    inside it. *)
Definition stage_spec (easePower progressed stageStart duration : R) : R :=
  let t := (progressed - stageStart) / duration in
  if Rle_dec t 0 then 1
  else if Rle_dec 1 t then 0
  else Rmax 0 (Rmin 1 (Rpower (1 - t) (1 + easePower))).


(** ** ClockSystem.ts: RingPoints *)

Inductive ClockColorMode : Type := classic | perRing | rainbow | vinyl.

(** A [THREE.Color]: three linear channels. *)
Record Color : Type := { r : R; g : R; b : R }.

Module RingPoints.

Record RingPointsConfig : Type := {
  radius : R;
  thickness : R;
  points : nat;
  falloffFactor : R;
  minTailLength : R;
  maxTailLength : R;
  cfg_baseColor : Color
}.

(** The fields the paint and size operations read or write.  [size] is
    [material.size]; [needsUpdate] is the flag of the color attribute. *)
Record T : Type := {
  baseColor : Color;
  angles : list R;
  colors : list number;
  falloffPower : R;
  minTailLengthFraction : R;
  maxTailLengthFraction : R;
  baseSize : R;
  size : R;
  needsUpdate : bool
}.

(** The constructor.  The loop stores [angle = i / points * PI * 2] for
    [i = 0 .. points - 1] and zeroes the three channels of each point. *)
Definition new (config : RingPointsConfig) : T :=
  let clampedFalloff := MathUtils.clamp (falloffFactor config) 0 1 in
  {| baseColor := cfg_baseColor config;
     angles := map (fun i : nat => INR i / INR (points config) * PI * 2)
                 (seq 0 (points config));
     colors := replicate (points config * 3) (Fin 0);
     falloffPower := MathUtils.lerp (12 / 10) 3 clampedFalloff;
     minTailLengthFraction := MathUtils.clamp (minTailLength config) 0 1;
     maxTailLengthFraction := MathUtils.clamp (maxTailLength config) 0 1;
     baseSize := thickness config * (8 / 10);
     size := thickness config * (8 / 10);
     needsUpdate := false |}.

Definition getBaseColor (ring : T) : Color := baseColor ring.

Definition setThicknessScale (scale : R) (ring : T) : T :=
  {| baseColor := baseColor ring; angles := angles ring;
     colors := colors ring; falloffPower := falloffPower ring;
     minTailLengthFraction := minTailLengthFraction ring;
     maxTailLengthFraction := maxTailLengthFraction ring;
     baseSize := baseSize ring; size := baseSize ring * scale;
     needsUpdate := needsUpdate ring |}.

Definition EPS : R := 1 / 1000000.
Definition TAIL_FLOOR : R := 31 / 1000.

(** [head = headAngle % tau; if (head < 0) head += tau]. *)
Definition normalizeHead (headAngle : R) : R :=
  let head := JS.rem headAngle tau in
  if Rlt_dec head 0 then head + tau else head.

(** The tail arc of a call: a blend of the two configured arcs, each
    floored at [1e-4]. *)
Definition tailArcOf (ring : T) (presenceLevel : R) : R :=
  let presence := MathUtils.clamp presenceLevel 0 1 in
  let minArc := Rmax (minTailLengthFraction ring * tau) (1 / 10000) in
  let maxArc := Rmax (maxTailLengthFraction ring * tau) (1 / 10000) in
  MathUtils.lerp minArc maxArc presence.

Definition deltaBackOf (head angle : R) : R :=
  let deltaBack := head - angle in
  JS.rem (deltaBack + tau) tau.

(** The body of the loop up to the clamp: the intensity of one point. *)
Definition pointIntensity (falloff head tailArc safeIntensityScale angle : R)
  : number :=
  let deltaBack := deltaBackOf head angle in
  let lit :=
    if Rle_dec 0 deltaBack
    then (if Rle_dec deltaBack (tailArc + EPS) then true else false)
    else false in
  let intensity :=
    if lit
    then
      let t := 1 - deltaBack / tailArc in
      let shaped := JS.Math_pow t falloff in
      nadd (Fin TAIL_FLOOR) (nmul (Fin (1 - TAIL_FLOOR)) shaped)
    else Fin 0 in
  let intensity := nmul intensity (Fin safeIntensityScale) in
  if ngt intensity (Fin 1) then Fin 1 else intensity.

(** The three stores of one iteration. *)
Definition paintPoint (base : Color) (intensity : number) (i : nat)
  (colors : list number) : list number :=
  let idx := (i * 3)%nat in
  <[(idx + 2)%nat := nmul (Fin (b base)) intensity]>
    (<[(idx + 1)%nat := nmul (Fin (g base)) intensity]>
       (<[idx := nmul (Fin (r base)) intensity]> colors)).

(** [for (let i = 0; i < count; i++)], started at index [i]. *)
Fixpoint fillLoop (intensityAt : R -> number) (base : Color) (i : nat)
  (angles : list R) (colors : list number) : list number :=
  match angles with
  | [] => colors
  | angle :: rest =>
      fillLoop intensityAt base (S i) rest
        (paintPoint base (intensityAt angle) i colors)
  end.

Definition updateFill (headAngle intensityScale presenceLevel : R)
  (mode : ClockColorMode) (ring : T) : T :=
  let head := normalizeHead headAngle in
  let safeIntensityScale := Rmax 0 intensityScale in
  let tailArc := tailArcOf ring presenceLevel in
  {| baseColor := baseColor ring; angles := angles ring;
     colors := fillLoop
                 (pointIntensity (falloffPower ring) head tailArc
                    safeIntensityScale)
                 (baseColor ring) 0 (angles ring) (colors ring);
     falloffPower := falloffPower ring;
     minTailLengthFraction := minTailLengthFraction ring;
     maxTailLengthFraction := maxTailLengthFraction ring;
     baseSize := baseSize ring; size := size ring;
     needsUpdate := true |}.

End RingPoints.


(** ** ClockSystem.ts: the controller *)

(** The four readings [update] takes from [new Date()]. *)
Record WallClock : Type := {
  getHours : Z;
  getMinutes : Z;
  getSeconds : Z;
  getMilliseconds : Z
}.

Definition wellFormed (now : WallClock) : Prop :=
  (0 <= getHours now < 24 /\ 0 <= getMinutes now < 60 /\
   0 <= getSeconds now < 60 /\ 0 <= getMilliseconds now < 1000)%Z.

Module ClockSystem.

Record ClockSystemConfig : Type := {
  pointsPerRing : option nat;
  minTailLength : option R;
  maxTailLength : option R
}.

Record T : Type := {
  hourRing : RingPoints.T;
  minuteRing : RingPoints.T;
  secondRing : RingPoints.T;
  colorMode : ClockColorMode;
  globalIntensity : R;
  distanceFactor : R;
  audioLow : R;
  audioMid : R;
  audioHigh : R;
  presenceLevel : R;
  hourPresence : option R;
  minutePresence : option R;
  secondPresence : option R
}.

(** The base colours are [new THREE.Color(0xd4af37)], [(0x7fd0ff)] and
    [(0xff4f9a)]; the conversion of a hex triplet to channels belongs to
    three.js, so the three colours are taken as given. *)
Record Palette : Type := {
  hourColor : Color;
  minuteColor : Color;
  secondColor : Color
}.

Definition new (palette : Palette) (config : ClockSystemConfig) : T :=
  let pointsPerRing := default 12%nat (pointsPerRing config) in
  let minTail := MathUtils.clamp (default (31 / 1000) (minTailLength config)) 0 1 in
  let maxTail := MathUtils.clamp (default (97 / 100) (maxTailLength config)) 0 1 in
  let baseRadius := 31 / 10 in
  let gap := 6 / 10 in
  {| hourRing := RingPoints.new
       {| RingPoints.radius := baseRadius + gap * 7;
          RingPoints.thickness := 31 / 100;
          RingPoints.points := pointsPerRing;
          RingPoints.falloffFactor := 35 / 100;
          RingPoints.minTailLength := minTail;
          RingPoints.maxTailLength := maxTail;
          RingPoints.cfg_baseColor := hourColor palette |};
     minuteRing := RingPoints.new
       {| RingPoints.radius := baseRadius + gap * (25 / 10);
          RingPoints.thickness := 17 / 100;
          RingPoints.points := pointsPerRing * 5;
          RingPoints.falloffFactor := 35 / 100;
          RingPoints.minTailLength := minTail;
          RingPoints.maxTailLength := maxTail;
          RingPoints.cfg_baseColor := minuteColor palette |};
     secondRing := RingPoints.new
       {| RingPoints.radius := baseRadius;
          RingPoints.thickness := 13 / 100;
          RingPoints.points := pointsPerRing * 30;
          RingPoints.falloffFactor := 35 / 100;
          RingPoints.minTailLength := minTail;
          RingPoints.maxTailLength := maxTail;
          RingPoints.cfg_baseColor := secondColor palette |};
     colorMode := classic;
     globalIntensity := 1;
     distanceFactor := 1;
     audioLow := 0; audioMid := 0; audioHigh := 0;
     presenceLevel := 0;
     hourPresence := None; minutePresence := None; secondPresence := None |}.

Definition clearRingPresenceOverrides (c : T) : T :=
  {| hourRing := hourRing c; minuteRing := minuteRing c;
     secondRing := secondRing c; colorMode := colorMode c;
     globalIntensity := globalIntensity c;
     distanceFactor := distanceFactor c;
     audioLow := audioLow c; audioMid := audioMid c; audioHigh := audioHigh c;
     presenceLevel := presenceLevel c;
     hourPresence := None; minutePresence := None; secondPresence := None |}.

Definition setPresenceLevel (value : R) (c : T) : T :=
  clearRingPresenceOverrides
    {| hourRing := hourRing c; minuteRing := minuteRing c;
       secondRing := secondRing c; colorMode := colorMode c;
       globalIntensity := globalIntensity c;
       distanceFactor := distanceFactor c;
       audioLow := audioLow c; audioMid := audioMid c;
       audioHigh := audioHigh c;
       presenceLevel := MathUtils.clamp value 0 1;
       hourPresence := hourPresence c; minutePresence := minutePresence c;
       secondPresence := secondPresence c |}.

Definition getPresenceLevel (c : T) : R := presenceLevel c.

Definition setRingPresenceLevels (hour minute second : R) (c : T) : T :=
  {| hourRing := hourRing c; minuteRing := minuteRing c;
     secondRing := secondRing c; colorMode := colorMode c;
     globalIntensity := globalIntensity c;
     distanceFactor := distanceFactor c;
     audioLow := audioLow c; audioMid := audioMid c; audioHigh := audioHigh c;
     presenceLevel := presenceLevel c;
     hourPresence := Some (MathUtils.clamp hour 0 1);
     minutePresence := Some (MathUtils.clamp minute 0 1);
     secondPresence := Some (MathUtils.clamp second 0 1) |}.

Definition setGlobalIntensity (value : R) (c : T) : T :=
  {| hourRing := hourRing c; minuteRing := minuteRing c;
     secondRing := secondRing c; colorMode := colorMode c;
     globalIntensity := Rmax 0 value;
     distanceFactor := distanceFactor c;
     audioLow := audioLow c; audioMid := audioMid c; audioHigh := audioHigh c;
     presenceLevel := presenceLevel c;
     hourPresence := hourPresence c; minutePresence := minutePresence c;
     secondPresence := secondPresence c |}.

Definition setDistanceFactor (value : R) (c : T) : T :=
  {| hourRing := hourRing c; minuteRing := minuteRing c;
     secondRing := secondRing c; colorMode := colorMode c;
     globalIntensity := globalIntensity c;
     distanceFactor := Rmax 0 value;
     audioLow := audioLow c; audioMid := audioMid c; audioHigh := audioHigh c;
     presenceLevel := presenceLevel c;
     hourPresence := hourPresence c; minutePresence := minutePresence c;
     secondPresence := secondPresence c |}.

Definition setAudioLevels (low mid high : R) (c : T) : T :=
  {| hourRing := hourRing c; minuteRing := minuteRing c;
     secondRing := secondRing c; colorMode := colorMode c;
     globalIntensity := globalIntensity c;
     distanceFactor := distanceFactor c;
     audioLow := MathUtils.clamp low 0 1;
     audioMid := MathUtils.clamp mid 0 1;
     audioHigh := MathUtils.clamp high 0 1;
     presenceLevel := presenceLevel c;
     hourPresence := hourPresence c; minutePresence := minutePresence c;
     secondPresence := secondPresence c |}.

Definition setColorMode (mode : ClockColorMode) (c : T) : T :=
  {| hourRing := hourRing c; minuteRing := minuteRing c;
     secondRing := secondRing c; colorMode := mode;
     globalIntensity := globalIntensity c;
     distanceFactor := distanceFactor c;
     audioLow := audioLow c; audioMid := audioMid c; audioHigh := audioHigh c;
     presenceLevel := presenceLevel c;
     hourPresence := hourPresence c; minutePresence := minutePresence c;
     secondPresence := secondPresence c |}.

(** Replaces the three rings and leaves every knob as it is. *)
Definition withRings (h m s : RingPoints.T) (c : T) : T :=
  {| hourRing := h; minuteRing := m; secondRing := s;
     colorMode := colorMode c;
     globalIntensity := globalIntensity c;
     distanceFactor := distanceFactor c;
     audioLow := audioLow c; audioMid := audioMid c; audioHigh := audioHigh c;
     presenceLevel := presenceLevel c;
     hourPresence := hourPresence c; minutePresence := minutePresence c;
     secondPresence := secondPresence c |}.

Definition setRingThicknessScales (hourScale minuteScale secondScale : R)
  (c : T) : T :=
  withRings
    (RingPoints.setThicknessScale (Rmax (1 / 10) hourScale) (hourRing c))
    (RingPoints.setThicknessScale (Rmax (1 / 10) minuteScale) (minuteRing c))
    (RingPoints.setThicknessScale (Rmax (1 / 10) secondScale) (secondRing c))
    c.

Definition setThicknessScale (scale : R) (c : T) : T :=
  let s := Rmax (1 / 10) scale in
  withRings
    (RingPoints.setThicknessScale s (hourRing c))
    (RingPoints.setThicknessScale s (minuteRing c))
    (RingPoints.setThicknessScale s (secondRing c))
    c.

Definition hourProgress (now : WallClock) : R :=
  (IZR (getHours now mod 12) + IZR (getMinutes now) / 60
   + IZR (getSeconds now) / 3600 + IZR (getMilliseconds now) / 3600000) / 12.

Definition minuteProgress (now : WallClock) : R :=
  (IZR (getMinutes now) + IZR (getSeconds now) / 60
   + IZR (getMilliseconds now) / 60000) / 60.

Definition secondProgress (now : WallClock) : R :=
  (IZR (getSeconds now) + IZR (getMilliseconds now) / 1000) / 60.

(** [this.hourPresence ?? this.presenceLevel] and its two siblings. *)
Definition pHour (c : T) : R := default (presenceLevel c) (hourPresence c).
Definition pMinute (c : T) : R := default (presenceLevel c) (minutePresence c).
Definition pSecond (c : T) : R := default (presenceLevel c) (secondPresence c).

Definition update (_dt : R) (now : WallClock) (c : T) : T :=
  let hourAngle := hourProgress now * tau in
  let minuteAngle := minuteProgress now * tau in
  let secondAngle := secondProgress now * tau in
  let baseIntensity := globalIntensity c * distanceFactor c in
  let hourBoost := 1 + audioLow c * (6 / 10) in
  let minuteBoost := 1 + audioMid c * (6 / 10) in
  let secondBoost := 1 + audioHigh c * (6 / 10) in
  withRings
    (RingPoints.updateFill hourAngle (baseIntensity * hourBoost)
       (pHour c) (colorMode c) (hourRing c))
    (RingPoints.updateFill minuteAngle (baseIntensity * minuteBoost)
       (pMinute c) (colorMode c) (minuteRing c))
    (RingPoints.updateFill secondAngle (baseIntensity * secondBoost)
       (pSecond c) (colorMode c) (secondRing c))
    c.

(** The public operations, as a host may issue them in any order. *)
Inductive Op : Type :=
  | OpSetPresenceLevel (value : R)
  | OpSetRingPresenceLevels (hour minute second : R)
  | OpClearRingPresenceOverrides
  | OpSetGlobalIntensity (value : R)
  | OpSetDistanceFactor (value : R)
  | OpSetAudioLevels (low mid high : R)
  | OpSetColorMode (mode : ClockColorMode)
  | OpSetThicknessScale (scale : R)
  | OpSetRingThicknessScales (hourScale minuteScale secondScale : R)
  | OpUpdate (dt : R) (now : WallClock).

Definition step (c : T) (op : Op) : T :=
  match op with
  | OpSetPresenceLevel v => setPresenceLevel v c
  | OpSetRingPresenceLevels h m s => setRingPresenceLevels h m s c
  | OpClearRingPresenceOverrides => clearRingPresenceOverrides c
  | OpSetGlobalIntensity v => setGlobalIntensity v c
  | OpSetDistanceFactor v => setDistanceFactor v c
  | OpSetAudioLevels l m h => setAudioLevels l m h c
  | OpSetColorMode mode => setColorMode mode c
  | OpSetThicknessScale s => setThicknessScale s c
  | OpSetRingThicknessScales h m s => setRingThicknessScales h m s c
  | OpUpdate dt now => update dt now c
  end.

Definition run (ops : list Op) (c : T) : T := fold_left step ops c.

Definition establishesOverrides (op : Op) : bool :=
  match op with
  | OpSetRingPresenceLevels _ _ _ => true
  | _ => false
  end.

End ClockSystem.

(** The first revision of ClockSystem.ts (the P03 file without presence or
    intensity knobs) pins the hour head to the hour number. *)
Module ClockSystemP03.

Definition hourProgress (now : WallClock) : R :=
  let hour12 := (getHours now mod 12)%Z in
  IZR hour12 / 12.

End ClockSystemP03.


(** ** Notions used to state the properties *)

(** Milliseconds since midnight of a reading. *)
Definition msOfDay (now : WallClock) : Z :=
  (((getHours now * 60 + getMinutes now) * 60 + getSeconds now) * 1000
   + getMilliseconds now)%Z.

Definition halfDayMs : Z := 43200000%Z.



Definition overridesCleared (c : ClockSystem.T) : Prop :=
  ClockSystem.hourPresence c = None /\
  ClockSystem.minutePresence c = None /\
  ClockSystem.secondPresence c = None.

(** Channel [c] (0, 1, 2) of a colour, as laid out in the buffer. *)
Definition channel (c : nat) (base : Color) : R :=
  match c with
  | O => r base
  | S O => g base
  | _ => b base
  end.

(** A ring as the constructor leaves it and every paint keeps it: three
    buffer entries per angle, angles in [[0, tau)], a positive falloff power,
    tail fractions and colour channels in the unit interval. *)
Record ring_ok (ring : RingPoints.T) : Prop := {
  ok_length : length (RingPoints.colors ring) = (length (RingPoints.angles ring) * 3)%nat;
  ok_angles : Forall (fun a => 0 <= a < tau) (RingPoints.angles ring);
  ok_falloff : 0 < RingPoints.falloffPower ring;
  ok_minTail : 0 <= RingPoints.minTailLengthFraction ring <= 1;
  ok_maxTail : 0 <= RingPoints.maxTailLengthFraction ring <= 1;
  ok_base : forall c : nat, 0 <= channel c (RingPoints.baseColor ring) <= 1
}.

Definition color_ok (col : Color) : Prop :=
  0 <= r col <= 1 /\ 0 <= g col <= 1 /\ 0 <= b col <= 1.

(** [t ^ p] for a base [t >= 0] and an exponent [p > 0].  A fractional
    power of a negative base is not a real; the definition is not meant for
    [t < 0] and no property below reads it there. *)
Definition rpow (t p : R) : R := if Req_dec_T t 0 then 0 else Rpower t p.

(** The intensity as the specification words it, for a point at distance
    [deltaBack] behind the head: 0 beyond the arc and its guard, otherwise
    the floored shape times the scale, clamped to the unit interval.  It is
    compared with the code for [deltaBack <= tailArc] and beyond the guard. *)
Definition paint_spec (falloff tailArc s tailFloor deltaBack : R) : R :=
  if Rlt_dec (tailArc + RingPoints.EPS) deltaBack then 0
  else
    let t := 1 - deltaBack / tailArc in
    MathUtils.clamp (s * (tailFloor + (1 - tailFloor) * rpow t falloff)) 0 1.

(** The controller's hour ring, as [ClockSystem.new] configures it, with a
    red base colour. *)
Definition sampleRing : RingPoints.T :=
  RingPoints.new
    {| RingPoints.radius := 73 / 10; RingPoints.thickness := 31 / 100;
       RingPoints.points := 12; RingPoints.falloffFactor := 35 / 100;
       RingPoints.minTailLength := 31 / 1000;
       RingPoints.maxTailLength := 97 / 100;
       RingPoints.cfg_baseColor := {| r := 1; g := 0; b := 0 |} |}.

(** The controller's three base colours, 0xd4af37, 0x7fd0ff and 0xff4f9a,
    read as bytes over 255. *)
Definition samplePalette : ClockSystem.Palette :=
  {| ClockSystem.hourColor := {| r := 212 / 255; g := 175 / 255; b := 55 / 255 |};
     ClockSystem.minuteColor := {| r := 127 / 255; g := 208 / 255; b := 1 |};
     ClockSystem.secondColor := {| r := 1; g := 79 / 255; b := 154 / 255 |} |}.

Definition defaultConfig : ClockSystem.ClockSystemConfig :=
  {| ClockSystem.pointsPerRing := None;
     ClockSystem.minTailLength := None;
     ClockSystem.maxTailLength := None |}.

(** ** PresenceSystem.ts: debug hotkeys and the operations of a host *)

Module PresenceHotkeys.

(** What the handler reads of a [KeyboardEvent]: the key, and the lowered
    tag name of the target, [e.target?.tagName?.toLowerCase()], when there
    is one. *)
Record KeyboardEvent : Type := {
  key : String.string;
  tag : option String.string
}.

(** The presence system together with its [debugKeyHandler] slot, which is
    either null or the one handler [enableDebugHotkeys] installs. *)
Record T : Type := {
  sys : PresenceSystem.T;
  debugKeyHandler : bool
}.

Definition new (now : R) : T :=
  {| sys := PresenceSystem.new now; debugKeyHandler := false |}.

Definition enableDebugHotkeys (s : T) : T :=
  if debugKeyHandler s then s
  else {| sys := sys s; debugKeyHandler := true |}.

Definition disableDebugHotkeys (s : T) : T :=
  if negb (debugKeyHandler s) then s
  else {| sys := sys s; debugKeyHandler := false |}.

Definition isTag (name : String.string) (t : option String.string) : bool :=
  match t with
  | Some x => String.eqb x name
  | None => false
  end.

(** The body of the installed handler: the four [if]s run in sequence. *)
Definition handler (e : KeyboardEvent) (now : R) (p : PresenceSystem.T)
  : PresenceSystem.T :=
  if isTag "input"%string (tag e) || isTag "textarea"%string (tag e) then p
  else
    let p1 := if String.eqb (key e) "["%string
              then PresenceSystem.nudgePresence (- (5 / 100)) now p else p in
    let p2 := if String.eqb (key e) "]"%string
              then PresenceSystem.nudgePresence (5 / 100) now p1 else p1 in
    let p3 := if String.eqb (key e) "\"%string
              then PresenceSystem.setPresenceLevel 1 now p2 else p2 in
    if String.eqb (key e) "'"%string
    then PresenceSystem.setPresenceLevel 0 now p3 else p3.

(** A [keydown] on the target reaches the handler only while it is
    installed. *)
Definition keydown (e : KeyboardEvent) (now : R) (s : T) : T :=
  if debugKeyHandler s
  then {| sys := handler e now (sys s); debugKeyHandler := true |}
  else s.

Inductive Op : Type :=
  | OpUpdate (deltaTime now : R)
  | OpSetPresenceLevel (level now : R)
  | OpNudgePresence (delta now : R)
  | OpSetGatesConfig (partial : PresenceSystem.PartialGatesConfig)
  | OpEnableDebugHotkeys
  | OpDisableDebugHotkeys
  | OpKeydown (e : KeyboardEvent) (now : R).

Definition onSys (f : PresenceSystem.T -> PresenceSystem.T) (s : T) : T :=
  {| sys := f (sys s); debugKeyHandler := debugKeyHandler s |}.

Definition step (s : T) (op : Op) : T :=
  match op with
  | OpUpdate dt now => onSys (PresenceSystem.update dt now) s
  | OpSetPresenceLevel v now => onSys (PresenceSystem.setPresenceLevel v now) s
  | OpNudgePresence d now => onSys (PresenceSystem.nudgePresence d now) s
  | OpSetGatesConfig partial => onSys (PresenceSystem.setGatesConfig partial) s
  | OpEnableDebugHotkeys => enableDebugHotkeys s
  | OpDisableDebugHotkeys => disableDebugHotkeys s
  | OpKeydown e now => keydown e now s
  end.

Definition run (ops : list Op) (s : T) : T := fold_left step ops s.

End PresenceHotkeys.

(** The state every sequence of operations keeps a presence system in. *)
Definition presence_ok (p : PresenceSystem.T) : Prop :=
  0 <= PresenceSystem.level (PresenceSystem.state p) <= 1 /\
  1 / 1000 <= PresenceSystem.hourFadeSeconds (PresenceSystem.gates p) /\
  1 / 1000 <= PresenceSystem.minuteFadeSeconds (PresenceSystem.gates p) /\
  1 / 1000 <= PresenceSystem.secondFadeSeconds (PresenceSystem.gates p) /\
  0 <= PresenceSystem.easePower (PresenceSystem.gates p).

Definition emptyPartial : PresenceSystem.PartialGatesConfig :=
  {| PresenceSystem.p_hourFadeSeconds := None;
     PresenceSystem.p_minuteFadeSeconds := None;
     PresenceSystem.p_secondFadeSeconds := None;
     PresenceSystem.p_easePower := None |}.

(** ** Reachable states of the controller *)

Definition palette_ok (palette : ClockSystem.Palette) : Prop :=
  color_ok (ClockSystem.hourColor palette) /\
  color_ok (ClockSystem.minuteColor palette) /\
  color_ok (ClockSystem.secondColor palette).

Definition override_ok (o : option R) : Prop :=
  match o with
  | Some x => 0 <= x <= 1
  | None => True
  end.

(** Ranges of the knobs and of the presence fields. *)
Record knobs_ok (c : ClockSystem.T) : Prop := {
  ok_globalIntensity : 0 <= ClockSystem.globalIntensity c;
  ok_distanceFactor : 0 <= ClockSystem.distanceFactor c;
  ok_audioLow : 0 <= ClockSystem.audioLow c <= 1;
  ok_audioMid : 0 <= ClockSystem.audioMid c <= 1;
  ok_audioHigh : 0 <= ClockSystem.audioHigh c <= 1;
  ok_presenceLevel : 0 <= ClockSystem.presenceLevel c <= 1;
  ok_hourPresence : override_ok (ClockSystem.hourPresence c);
  ok_minutePresence : override_ok (ClockSystem.minutePresence c);
  ok_secondPresence : override_ok (ClockSystem.secondPresence c)
}.

(** The three rings are well formed and hold [n], [5 n] and [30 n] points. *)
Record rings_ok (n : nat) (c : ClockSystem.T) : Prop := {
  ok_hourRing : ring_ok (ClockSystem.hourRing c);
  ok_minuteRing : ring_ok (ClockSystem.minuteRing c);
  ok_secondRing : ring_ok (ClockSystem.secondRing c);
  ok_hourPoints : length (RingPoints.angles (ClockSystem.hourRing c)) = n;
  ok_minutePoints : length (RingPoints.angles (ClockSystem.minuteRing c)) = (n * 5)%nat;
  ok_secondPoints : length (RingPoints.angles (ClockSystem.secondRing c)) = (n * 30)%nat
}.

(** The buffer a paint leaves, written out: for each angle in turn the
    three channels of the base colour times the intensity at that angle. *)
Definition paintedBuffer (intensityAt : R -> number) (base : Color)
  (angles : list R) : list number :=
  flat_map (fun a => [nmul (Fin (r base)) (intensityAt a);
                      nmul (Fin (g base)) (intensityAt a);
                      nmul (Fin (b base)) (intensityAt a)]) angles.

(** ** ClockSystem.ts, first revision: the filled arc *)

Module RingPointsP03.

Record RingPointsConfig : Type := {
  radius : R;
  thickness : R;
  points : nat;
  falloffFactor : R;
  cfg_baseColor : Color
}.

Record T : Type := {
  baseColor : Color;
  angles : list R;
  colors : list number;
  falloffPower : R;
  needsUpdate : bool
}.

Definition new (config : RingPointsConfig) : T :=
  let clamped := MathUtils.clamp (falloffFactor config) 0 1 in
  {| baseColor := cfg_baseColor config;
     angles := map (fun i : nat => INR i / INR (points config) * PI * 2)
                 (seq 0 (points config));
     colors := replicate (points config * 3) (Fin 0);
     falloffPower := MathUtils.lerp (12 / 10) 3 clamped;
     needsUpdate := false |}.

(** [Math.max(clampedFill * tau, 1e-4)]. *)
Definition fillArcOf (fillFraction : R) : R :=
  let clampedFill := MathUtils.clamp fillFraction 0 1 in
  Rmax (clampedFill * tau) (1 / 10000).

(** The loop body up to the stores: no floor, no scale, no guard band. *)
Definition pointIntensity (falloff head fillArc angle : R) : number :=
  let delta := RingPoints.deltaBackOf head angle in
  let lit :=
    if Rle_dec 0 delta
    then (if Rle_dec delta fillArc then true else false)
    else false in
  if lit
  then
    let t := 1 - delta / fillArc in
    JS.Math_pow t falloff
  else Fin 0.

Definition updateFill (headAngle fillFraction : R) (ring : T) : T :=
  let fillArc := fillArcOf fillFraction in
  let head := RingPoints.normalizeHead headAngle in
  {| baseColor := baseColor ring; angles := angles ring;
     colors := RingPoints.fillLoop
                 (pointIntensity (falloffPower ring) head fillArc)
                 (baseColor ring) 0 (angles ring) (colors ring);
     falloffPower := falloffPower ring;
     needsUpdate := true |}.

End RingPointsP03.

(** The invariant of a first-revision ring. *)
Record ringP03_ok (ring : RingPointsP03.T) : Prop := {
  okP03_length : length (RingPointsP03.colors ring)
                 = (length (RingPointsP03.angles ring) * 3)%nat;
  okP03_angles : Forall (fun a => 0 <= a < tau) (RingPointsP03.angles ring);
  okP03_falloff : 0 < RingPointsP03.falloffPower ring;
  okP03_base : forall c : nat, 0 <= channel c (RingPointsP03.baseColor ring) <= 1
}.

(** ** CoreSystem.ts: the frame *)

Inductive CorePhase : Type := black_hole | solar | lunar.

Module CoreSystem.

(** The core owns a clock and a presence system; [scale] is the scalar set
    on the core group and on the roots of the clock and time systems. *)
Record T : Type := {
  clock : ClockSystem.T;
  presence : PresenceHotkeys.T;
  phase : CorePhase;
  shrinkLevel : R;
  scale : R
}.

(** The constructor; [now] is the reading of [performance.now()] inside the
    presence system's constructor.  Object scales start at 1. *)
Definition new (palette : ClockSystem.Palette) (now : R) : T :=
  {| clock := ClockSystem.new palette
                {| ClockSystem.pointsPerRing := None;
                   ClockSystem.minTailLength := None;
                   ClockSystem.maxTailLength := None |};
     presence := PresenceHotkeys.enableDebugHotkeys (PresenceHotkeys.new now);
     phase := black_hole;
     shrinkLevel := 0;
     scale := 1 |}.

(** The three levels as reals, when none of them is NaN. *)
Definition realLevels (l : PresenceSystem.ClockPresenceLevels)
  : option (R * R * R) :=
  match PresenceSystem.hour l, PresenceSystem.minute l,
        PresenceSystem.second l with
  | Fin h, Fin m, Fin s => Some (h, m, s)
  | _, _, _ => None
  end.

(** One frame: the presence system is updated, its staged levels become the
    clock's overrides, and the clock paints.  The controller's fields are
    reals, so a NaN level has no image here: the frame is [None] then. *)
Definition update (dt perfNow : R) (wall : WallClock) (core : T) : option T :=
  let presence' :=
    PresenceHotkeys.onSys (PresenceSystem.update dt perfNow) (presence core) in
  match realLevels
          (PresenceSystem.getClockPresenceLevels (PresenceHotkeys.sys presence'))
  with
  | Some (h, m, s) =>
      Some {| clock := ClockSystem.update dt wall
                         (ClockSystem.setRingPresenceLevels h m s (clock core));
              presence := presence';
              phase := phase core;
              shrinkLevel := shrinkLevel core;
              scale := scale core |}
  | None => None
  end.

Definition setShrinkLevel (level : R) (core : T) : T :=
  let shrinkLevel := MathUtils.clamp level 0 1 in
  let maxScale := 1 in
  let minScale := 3 / 10 in
  {| clock := clock core; presence := presence core; phase := phase core;
     shrinkLevel := shrinkLevel;
     scale := maxScale - (maxScale - minScale) * shrinkLevel |}.

Definition setPhase (p : CorePhase) (core : T) : T :=
  {| clock := clock core; presence := presence core; phase := p;
     shrinkLevel := shrinkLevel core; scale := scale core |}.

End CoreSystem.

(** ** DemoScene.ts: distance-driven brightness *)

Record Vector3 : Type := { vx : R; vy : R; vz : R }.

(** [Vector3.length()] of three.js. *)
Definition vlength (v : Vector3) : R :=
  sqrt (vx v * vx v + vy v * vy v + vz v * vz v).

Module DemoScene.

(** The mapping of the camera distance to a brightness factor. *)
Definition distanceFactorOf (distance : R) : R :=
  let minDist := 6 in
  let maxDist := 40 in
  let t := MathUtils.clamp ((distance - minDist) / (maxDist - minDist)) 0 1 in
  MathUtils.lerp (12 / 10) (35 / 100) t.

(** The clock branch of [update]: taken when the scene has both its clock
    and a camera. *)
Definition updateClock (cameraPosition : Vector3) (delta : R) (now : WallClock)
  (clock : ClockSystem.T) : ClockSystem.T :=
  let distance := vlength cameraPosition in
  ClockSystem.update delta now
    (ClockSystem.setDistanceFactor (distanceFactorOf distance) clock).

End DemoScene.

(** A first-revision ring of eight points, with the hour ring's falloff
    factor [0.25 * 0.6] and a base colour of that revision's kind. *)
Definition sampleRingP03 : RingPointsP03.T :=
  RingPointsP03.new
    {| RingPointsP03.radius := 25 / 10; RingPointsP03.thickness := 2 / 10;
       RingPointsP03.points := 8; RingPointsP03.falloffFactor := 15 / 100;
       RingPointsP03.cfg_baseColor :=
         {| r := 26 / 255; g := 26 / 255; b := 64 / 255 |} |}.

(** ** RegionSystem.ts *)

(** [Math.atan2(y, x)] on reals; the sign of a zero is not represented. *)
Definition Math_atan2 (y x : R) : R :=
  if Rlt_dec 0 x then atan (y / x)
  else if Rlt_dec x 0
       then (if Rle_dec 0 y then atan (y / x) + PI else atan (y / x) - PI)
       else if Rlt_dec 0 y then PI / 2
            else if Rlt_dec y 0 then - (PI / 2) else 0.

Module RegionSystem.

Inductive RegionId : Type :=
  | JAN | FEB | MAR | APR | MAY | JUN | JUL | AUG | SEP | OCT | NOV | DEC.

Definition RegionId_eqb (a b : RegionId) : bool :=
  match a, b with
  | JAN, JAN | FEB, FEB | MAR, MAR | APR, APR | MAY, MAY | JUN, JUN
  | JUL, JUL | AUG, AUG | SEP, SEP | OCT, OCT | NOV, NOV | DEC, DEC => true
  | _, _ => false
  end.

Record ColorBias : Type := { hue : R; sat : R; lum : R }.
Record VibeBias : Type := { warmth : R; calm : R; intensity : R }.

Record RegionDefinition : Type := {
  index : Z;
  id : RegionId;
  label : String.string;
  colorBias : ColorBias;
  vibeBias : VibeBias
}.

Record RadialFalloff : Type := {
  enabled : bool;
  start : R;
  end_ : R;
  strength : R
}.

(** The optional fields of [RegionSystemConfig]; [regionCount] is the
    literal 12. *)
Record RegionSystemConfig : Type := {
  cfg_baseRotationRad : option R;
  cfg_boundaryBlend : option R;
  cfg_radialFalloff : option RadialFalloff
}.

Record RequiredConfig : Type := {
  regionCount : Z;
  baseRotationRad : R;
  boundaryBlend : R;
  radialFalloff : RadialFalloff
}.

Definition REGION_ORDER : list (RegionId * String.string) :=
  [(JAN, "January"%string); (FEB, "February"%string); (MAR, "March"%string);
   (APR, "April"%string); (MAY, "May"%string); (JUN, "June"%string);
   (JUL, "July"%string); (AUG, "August"%string); (SEP, "September"%string);
   (OCT, "October"%string); (NOV, "November"%string); (DEC, "December"%string)].

Definition clamp01 (v : R) : R := Rmax 0 (Rmin 1 v).

Definition lerp (a b t : R) : R := a + (b - a) * t.

(** The quotient is taken with [edge1 <> edge0] at every use the
    properties below rely on. *)
Definition smoothstep (edge0 edge1 x : R) : R :=
  let t := clamp01 ((x - edge0) / (edge1 - edge0)) in
  t * t * (3 - 2 * t).

(** [while (d > Math.PI) d -= Math.PI * 2], run for at most [fuel] turns. *)
Fixpoint whileAbove (fuel : nat) (d : R) : R :=
  match fuel with
  | O => d
  | S fuel' => if Rlt_dec PI d then whileAbove fuel' (d - PI * 2) else d
  end.

(** [while (d < -Math.PI) d += Math.PI * 2], run for at most [fuel] turns. *)
Fixpoint whileBelow (fuel : nat) (d : R) : R :=
  match fuel with
  | O => d
  | S fuel' => if Rlt_dec d (- PI) then whileBelow fuel' (d + PI * 2) else d
  end.

(** A number of turns that is enough for either loop started at [d], over
    the reals.  In binary64 the subtraction leaves a difference of about
    1e16 or more unchanged and the loop does not exit; the properties of
    [signedAngleDelta] below are stated for differences of at most a turn
    and a half, where each loop takes at most one turn. *)
Definition turnsFor (d : R) : nat := Z.to_nat (up (Rabs d / (PI * 2))).

Definition signedAngleDelta (a b : R) : R :=
  let d := a - b in
  let d := whileAbove (turnsFor d) d in
  whileBelow (turnsFor d) d.

(** Over the reals the sum [a + PI * 2] of the negative branch is below a
    full turn; in binary64 it can round up to the full turn itself, so the
    properties below promise the closed range for negative angles. *)
Definition normalizeAngleRad (angle : R) : R :=
  let a := JS.rem angle (PI * 2) in
  if Rlt_dec a 0 then a + PI * 2 else a.

Definition createDefaultRegions : list RegionDefinition :=
  imap (fun (i : nat) (entry : RegionId * String.string) =>
          let hue := INR i * 30 in
          {| index := Z.of_nat i;
             id := fst entry;
             label := snd entry;
             colorBias := {| hue := hue; sat := 35 / 100; lum := 55 / 100 |};
             vibeBias :=
               {| warmth := sin (INR i / 12 * PI * 2) * (4 / 10);
                  calm := cos (INR i / 12 * PI * 2) * (4 / 10);
                  intensity := 35 / 100 |} |})
       REGION_ORDER.

Record T : Type := {
  config : RequiredConfig;
  regions : list RegionDefinition;
  wedgeSizeRad : R;
  halfWedgeRad : R;
  blendZoneRad : R
}.

Definition defaultRadialFalloff : RadialFalloff :=
  {| enabled := false; start := 10; end_ := 80; strength := 35 / 100 |}.

(** The constructor; an absent [config] is one with every field absent. *)
Definition new (cfg : RegionSystemConfig) : T :=
  let rf := default defaultRadialFalloff (cfg_radialFalloff cfg) in
  let config :=
    {| regionCount := 12;
       baseRotationRad := default 0 (cfg_baseRotationRad cfg);
       boundaryBlend := clamp01 (default (25 / 100) (cfg_boundaryBlend cfg));
       radialFalloff :=
         {| enabled := enabled rf; start := start rf; end_ := end_ rf;
            strength := clamp01 (strength rf) |} |} in
  let wedgeSizeRad := (PI * 2) / IZR (regionCount config) in
  let halfWedgeRad := wedgeSizeRad * (5 / 10) in
  {| config := config;
     regions := createDefaultRegions;
     wedgeSizeRad := wedgeSizeRad;
     halfWedgeRad := halfWedgeRad;
     blendZoneRad := halfWedgeRad * boundaryBlend config |}.


Definition getAngleForPosition (s : T) (pos : Vector3) : R :=
  let a := Math_atan2 (vz pos) (vx pos) in
  let rotated := a + baseRotationRad (config s) in
  normalizeAngleRad rotated.

Definition getRadialDistance (pos : Vector3) : R :=
  sqrt (vx pos * vx pos + vz pos * vz pos).

Definition getRegionCenterAngle (s : T) (index : Z) : R :=
  normalizeAngleRad (IZR index * wedgeSizeRad s + halfWedgeRad s).

(** [((idx % 12) + 12) % 12] on an integer-valued number. *)
Definition wrap12 (idx : Z) : Z := Z.rem (Z.rem idx 12 + 12) 12.

Definition getNearestRegionIndex (s : T) (angleRad : R) : Z :=
  let idx := Int_part (angleRad / wedgeSizeRad s) in
  wrap12 idx.

Definition computeRegionWeight (s : T) (regionIndex : Z)
  (angleRad distanceToCore : R) : R :=
  let center := getRegionCenterAngle s regionIndex in
  let d := Rabs (signedAngleDelta angleRad center) in
  let innerFull := Rmax 0 (halfWedgeRad s - blendZoneRad s) in
  let wAngular :=
    if Rle_dec d innerFull then 1
    else if Rle_dec (halfWedgeRad s) d then 0
    else
      let t := smoothstep innerFull (halfWedgeRad s) d in
      1 - t in
  let rf := radialFalloff (config s) in
  let wRadial :=
    if enabled rf && (if Rlt_dec 0 (strength rf) then true else false)
    then
      let t := smoothstep (start rf) (end_ rf) distanceToCore in
      lerp 1 (1 - strength rf) t
    else 1 in
  clamp01 (wAngular * wRadial).

(** [regions[i]] for an integer-valued index: [undefined] is [None]. *)
Definition regionAt (s : T) (i : Z) : option RegionDefinition :=
  if Z.ltb i 0 then None else regions s !! Z.to_nat i.

Record RegionQueryResult : Type := {
  region : option RegionDefinition;
  weight : R;
  angleRad : R;
  distanceToCore : R
}.

Definition getRegionAtPosition (s : T) (pos : Vector3) : RegionQueryResult :=
  let angle := getAngleForPosition s pos in
  let distanceToCore := getRadialDistance pos in
  let regionIndex := getNearestRegionIndex s angle in
  {| region := regionAt s regionIndex;
     weight := computeRegionWeight s regionIndex angle distanceToCore;
     angleRad := angle;
     distanceToCore := distanceToCore |}.


(** [findIndex], with [-1] for no match. *)
Fixpoint findIndexFrom (i : Z) (target : RegionId) (l : list RegionDefinition) : Z :=
  match l with
  | [] => (-1)%Z
  | r :: rest =>
      if RegionId_eqb (id r) target then i
      else findIndexFrom (i + 1) target rest
  end.

Definition getRegionIndexById (s : T) (target : RegionId) : Z :=
  let idx := findIndexFrom 0 target (regions s) in
  if Z.leb 0 idx then idx else 0%Z.

Definition getRegionByIndex (s : T) (index : R) : option RegionDefinition :=
  let i := wrap12 (Int_part index) in
  regionAt s i.

End RegionSystem.

(** The radial falloff is off, or its two distances differ (so that the
    quotient in [smoothstep] is a number). *)
Definition radial_ok (s : RegionSystem.T) : Prop :=
  let rf := RegionSystem.radialFalloff (RegionSystem.config s) in
  RegionSystem.enabled rf = false \/ RegionSystem.start rf <> RegionSystem.end_ rf.

Definition emptyRegionConfig : RegionSystem.RegionSystemConfig :=
  {| RegionSystem.cfg_baseRotationRad := None;
     RegionSystem.cfg_boundaryBlend := None;
     RegionSystem.cfg_radialFalloff := None |}.

(** ** ControlSystem.ts *)

Record Vector2 : Type := { x2 : R; y2 : R }.

Module ControlSystem.

Record ControlLocks : Type := { rotate : bool; zoom : bool }.

(** [Partial<ControlLocks>]. *)
Record PartialLocks : Type := { p_rotate : option bool; p_zoom : option bool }.

Record ControlSnapshot : Type := {
  s_rotateDelta : Vector2;
  s_dollyDelta : R
}.

(** [pointerMode] is ["rotate"] or null. *)
Inductive PointerMode : Type := ModeRotate.

Record T : Type := {
  enabled : bool;
  locks : ControlLocks;
  pointerActive : bool;
  pointerMode : option PointerMode;
  lastPointer : Vector2;
  rotateDelta : Vector2;
  dollyDelta : R
}.

(** What the handlers read of a pointer event. *)
Record PointerEvent : Type := {
  button : Z;
  clientX : R;
  clientY : R
}.

Definition new : T :=
  {| enabled := true;
     locks := {| rotate := false; zoom := false |};
     pointerActive := false;
     pointerMode := None;
     lastPointer := {| x2 := 0; y2 := 0 |};
     rotateDelta := {| x2 := 0; y2 := 0 |};
     dollyDelta := 0 |}.

Definition setEnabled (e : bool) (c : T) : T :=
  {| enabled := e; locks := locks c; pointerActive := pointerActive c;
     pointerMode := pointerMode c; lastPointer := lastPointer c;
     rotateDelta := rotateDelta c; dollyDelta := dollyDelta c |}.

Definition setLocks (partial : PartialLocks) (c : T) : T :=
  {| enabled := enabled c;
     locks := {| rotate := default (rotate (locks c)) (p_rotate partial);
                 zoom := default (zoom (locks c)) (p_zoom partial) |};
     pointerActive := pointerActive c;
     pointerMode := pointerMode c; lastPointer := lastPointer c;
     rotateDelta := rotateDelta c; dollyDelta := dollyDelta c |}.

Definition consumeSnapshot (c : T) : ControlSnapshot * T :=
  ({| s_rotateDelta := rotateDelta c; s_dollyDelta := dollyDelta c |},
   {| enabled := enabled c; locks := locks c;
      pointerActive := pointerActive c; pointerMode := pointerMode c;
      lastPointer := lastPointer c;
      rotateDelta := {| x2 := 0; y2 := 0 |}; dollyDelta := 0 |}).

Definition handlePointerDown (ev : PointerEvent) (c : T) : T :=
  if negb (enabled c) then c
  else if negb (Z.eqb (button ev) 0) then c
  else
    {| enabled := enabled c; locks := locks c;
       pointerActive := true; pointerMode := Some ModeRotate;
       lastPointer := {| x2 := clientX ev; y2 := clientY ev |};
       rotateDelta := rotateDelta c; dollyDelta := dollyDelta c |}.

Definition isRotate (m : option PointerMode) : bool :=
  match m with
  | Some ModeRotate => true
  | None => false
  end.

Definition handlePointerMove (ev : PointerEvent) (c : T) : T :=
  if negb (enabled c) || negb (pointerActive c) then c
  else if negb (isRotate (pointerMode c)) || rotate (locks c) then c
  else
    let dx := clientX ev - x2 (lastPointer c) in
    let dy := clientY ev - y2 (lastPointer c) in
    {| enabled := enabled c; locks := locks c;
       pointerActive := pointerActive c; pointerMode := pointerMode c;
       lastPointer := {| x2 := clientX ev; y2 := clientY ev |};
       rotateDelta := {| x2 := x2 (rotateDelta c) + dx;
                         y2 := y2 (rotateDelta c) + dy |};
       dollyDelta := dollyDelta c |}.

Definition handlePointerUp (ev : PointerEvent) (c : T) : T :=
  if negb (pointerActive c) then c
  else
    {| enabled := enabled c; locks := locks c;
       pointerActive := false; pointerMode := None;
       lastPointer := lastPointer c;
       rotateDelta := rotateDelta c; dollyDelta := dollyDelta c |}.

(** [deltaY] is the one field read of the wheel event. *)
Definition handleWheel (deltaY : R) (c : T) : T :=
  if negb (enabled c) || zoom (locks c) then c
  else
    {| enabled := enabled c; locks := locks c;
       pointerActive := pointerActive c; pointerMode := pointerMode c;
       lastPointer := lastPointer c;
       rotateDelta := rotateDelta c;
       dollyDelta := dollyDelta c + deltaY |}.

(** What reaches the control surface between two snapshots: DOM events and
    calls of the two setters. *)
Inductive Input : Type :=
  | PointerDown (ev : PointerEvent)
  | PointerMove (ev : PointerEvent)
  | PointerUp (ev : PointerEvent)
  | Wheel (deltaY : R)
  | SetEnabled (e : bool)
  | SetLocks (partial : PartialLocks).

Definition step (c : T) (i : Input) : T :=
  match i with
  | PointerDown ev => handlePointerDown ev c
  | PointerMove ev => handlePointerMove ev c
  | PointerUp ev => handlePointerUp ev c
  | Wheel deltaY => handleWheel deltaY c
  | SetEnabled e => setEnabled e c
  | SetLocks partial => setLocks partial c
  end.

Definition run (inputs : list Input) (c : T) : T := fold_left step inputs c.

End ControlSystem.

Definition vadd2 (a b : Vector2) : Vector2 :=
  {| x2 := x2 a + x2 b; y2 := y2 a + y2 b |}.

Definition vsub2 (a b : Vector2) : Vector2 :=
  {| x2 := x2 a - x2 b; y2 := y2 a - y2 b |}.

Definition pointOf (ev : ControlSystem.PointerEvent) : Vector2 :=
  {| x2 := ControlSystem.clientX ev; y2 := ControlSystem.clientY ev |}.

(** Two control states that agree on everything but the accumulated
    deltas, which differ by [dr] and [dd]. *)
Definition shifted (dr : Vector2) (dd : R) (a b : ControlSystem.T) : Prop :=
  ControlSystem.enabled a = ControlSystem.enabled b /\
  ControlSystem.locks a = ControlSystem.locks b /\
  ControlSystem.pointerActive a = ControlSystem.pointerActive b /\
  ControlSystem.pointerMode a = ControlSystem.pointerMode b /\
  ControlSystem.lastPointer a = ControlSystem.lastPointer b /\
  ControlSystem.rotateDelta a = vadd2 dr (ControlSystem.rotateDelta b) /\
  ControlSystem.dollyDelta a = dd + ControlSystem.dollyDelta b.

Definition isEnable (i : ControlSystem.Input) : bool :=
  match i with
  | ControlSystem.SetEnabled true => true
  | _ => false
  end.

Definition lockRotate (b : bool) : ControlSystem.Input :=
  ControlSystem.SetLocks
    {| ControlSystem.p_rotate := Some b; ControlSystem.p_zoom := None |}.

(** ** CameraSystem.ts *)

Module CameraSystem.

Record CameraRigOptions : Type := {
  minDistance : R;
  maxDistance : R;
  minPolarAngle : R;
  maxPolarAngle : R;
  enableDamping : bool;
  dampingFactor : R;
  rotateSpeed : R;
  zoomSpeed : R
}.

(** [Partial<CameraRigOptions>]. *)
Record PartialOptions : Type := {
  p_minDistance : option R;
  p_maxDistance : option R;
  p_minPolarAngle : option R;
  p_maxPolarAngle : option R;
  p_enableDamping : option bool;
  p_dampingFactor : option R;
  p_rotateSpeed : option R;
  p_zoomSpeed : option R
}.

(** A [THREE.Spherical]. *)
Record Spherical : Type := { radius : R; phi : R; theta : R }.

Record CameraTelemetry : Type := {
  t_position : Vector3;
  t_target : Vector3;
  t_distance : R;
  t_azimuthAngle : R;
  t_polarAngle : R
}.

(** [position] is [camera.position]; the camera's orientation, set by
    [lookAt], is not represented. *)
Record T : Type := {
  position : Vector3;
  target : Vector3;
  options : CameraRigOptions;
  spherical : Spherical;
  sphericalDelta : Spherical;
  scale : R
}.

Definition DEFAULT_OPTIONS : CameraRigOptions :=
  {| minDistance := 10;
     maxDistance := 500;
     minPolarAngle := 1 / 10;
     maxPolarAngle := PI - 1 / 10;
     enableDamping := true;
     dampingFactor := 15 / 100;
     rotateSpeed := PI / 180 * (3 / 100);
     zoomSpeed := 15 / 10000 |}.

(** [Vector3.setFromSpherical] of three.js. *)
Definition setFromSpherical (s : Spherical) : Vector3 :=
  let sinPhiRadius := sin (phi s) * radius s in
  {| vx := sinPhiRadius * sin (theta s);
     vy := cos (phi s) * radius s;
     vz := sinPhiRadius * cos (theta s) |}.

(** [Spherical.setFromVector3] of three.js. *)
Definition setFromVector3 (v : Vector3) : Spherical :=
  let r := vlength v in
  if Req_dec_T r 0 then {| radius := r; phi := 0; theta := 0 |}
  else {| radius := r;
          phi := acos (MathUtils.clamp (vy v / r) (-1) 1);
          theta := Math_atan2 (vx v) (vz v) |}.

(** [Spherical.makeSafe] of three.js: [phi] clamped to
    [[EPS, PI - EPS]] with [EPS = 0.000001]. *)
Definition makeSafe (s : Spherical) : Spherical :=
  {| radius := radius s;
     phi := MathUtils.clamp (phi s) (1 / 1000000) (PI - 1 / 1000000);
     theta := theta s |}.

Definition vadd3 (a b : Vector3) : Vector3 :=
  {| vx := vx a + vx b; vy := vy a + vy b; vz := vz a + vz b |}.

Definition vsub3 (a b : Vector3) : Vector3 :=
  {| vx := vx a - vx b; vy := vy a - vy b; vz := vz a - vz b |}.

Definition updateCameraFromSpherical (c : T) : T :=
  let scratchOffset := setFromSpherical (spherical c) in
  {| position := vadd3 (target c) scratchOffset;
     target := target c; options := options c; spherical := spherical c;
     sphericalDelta := sphericalDelta c; scale := scale c |}.

Definition updateSphericalFromCamera (c : T) : T :=
  let scratchOffset := vsub3 (position c) (target c) in
  {| position := position c; target := target c; options := options c;
     spherical := setFromVector3 scratchOffset;
     sphericalDelta := sphericalDelta c; scale := scale c |}.

(** The constructor, without the two bus subscriptions. *)
Definition new : T :=
  updateCameraFromSpherical
    {| position := {| vx := 0; vy := 0; vz := 0 |};
       target := {| vx := 0; vy := 0; vz := 0 |};
       options := DEFAULT_OPTIONS;
       spherical := {| radius := 12; phi := PI / 3; theta := 0 |};
       sphericalDelta := {| radius := 0; phi := 0; theta := 0 |};
       scale := 1 |}.

Definition setTarget (t : Vector3) (c : T) : T :=
  updateSphericalFromCamera
    {| position := position c; target := t; options := options c;
       spherical := spherical c; sphericalDelta := sphericalDelta c;
       scale := scale c |}.

(** [Object.assign(this.options, partial)]. *)
Definition setOptions (partial : PartialOptions) (c : T) : T :=
  let o := options c in
  {| position := position c; target := target c;
     options :=
       {| minDistance := default (minDistance o) (p_minDistance partial);
          maxDistance := default (maxDistance o) (p_maxDistance partial);
          minPolarAngle := default (minPolarAngle o) (p_minPolarAngle partial);
          maxPolarAngle := default (maxPolarAngle o) (p_maxPolarAngle partial);
          enableDamping := default (enableDamping o) (p_enableDamping partial);
          dampingFactor := default (dampingFactor o) (p_dampingFactor partial);
          rotateSpeed := default (rotateSpeed o) (p_rotateSpeed partial);
          zoomSpeed := default (zoomSpeed o) (p_zoomSpeed partial) |};
     spherical := spherical c; sphericalDelta := sphericalDelta c;
     scale := scale c |}.

(** [Math.pow(0.95, y)]: the base is positive, so the result is the real
    power. *)
Definition zoomScaleOf (y : R) : R := Rpower (95 / 100) y.

Definition applyControlDeltas (rotateDelta : Vector2) (dollyDelta : R) (c : T) : T :=
  let lengthSq := x2 rotateDelta * x2 rotateDelta + y2 rotateDelta * y2 rotateDelta in
  let sd := sphericalDelta c in
  let sd' :=
    if Rlt_dec 0 lengthSq
    then {| radius := radius sd;
            phi := phi sd - y2 rotateDelta * rotateSpeed (options c);
            theta := theta sd - x2 rotateDelta * rotateSpeed (options c) |}
    else sd in
  let scale' :=
    if Req_dec_T dollyDelta 0 then scale c
    else scale c * zoomScaleOf (dollyDelta * zoomSpeed (options c)) in
  {| position := position c; target := target c; options := options c;
     spherical := spherical c; sphericalDelta := sd'; scale := scale' |}.

Definition getTelemetry (c : T) : CameraTelemetry :=
  {| t_position := position c;
     t_target := target c;
     t_distance := radius (spherical c);
     t_azimuthAngle := theta (spherical c);
     t_polarAngle := phi (spherical c) |}.

(** One frame; the telemetry emitted on the bus is [getTelemetry] of the
    state after the camera transform is committed. *)
Definition update (deltaSeconds : R) (c : T) : T :=
  let o := options c in
  let s1 := {| radius := radius (spherical c);
               phi := phi (spherical c) + phi (sphericalDelta c);
               theta := theta (spherical c) + theta (sphericalDelta c) |} in
  let s2 := makeSafe s1 in
  let s3 := {| radius := radius s2;
               phi := Rmin (maxPolarAngle o) (Rmax (minPolarAngle o) (phi s2));
               theta := theta s2 |} in
  let r4 := radius s3 * scale c in
  let s5 := {| radius := Rmin (maxDistance o) (Rmax (minDistance o) r4);
               phi := phi s3; theta := theta s3 |} in
  let c5 := updateCameraFromSpherical
              {| position := position c; target := target c; options := o;
                 spherical := s5; sphericalDelta := sphericalDelta c;
                 scale := scale c |} in
  if enableDamping o
  then
    let damping := 1 - dampingFactor o * Rmax deltaSeconds (16 / 1000) in
    {| position := position c5; target := target c5; options := o;
       spherical := s5;
       sphericalDelta := {| radius := radius (sphericalDelta c);
                            phi := phi (sphericalDelta c) * damping;
                            theta := theta (sphericalDelta c) * damping |};
       scale := 1 + (scale c - 1) * damping |}
  else
    {| position := position c5; target := target c5; options := o;
       spherical := s5;
       sphericalDelta := {| radius := radius (sphericalDelta c);
                            phi := 0; theta := 0 |};
       scale := 1 |}.

End CameraSystem.

(** Rig options under which the clamps of [update] are ranges. *)
Definition options_ok (o : CameraSystem.CameraRigOptions) : Prop :=
  0 <= CameraSystem.minDistance o <= CameraSystem.maxDistance o /\
  CameraSystem.minPolarAngle o <= CameraSystem.maxPolarAngle o.

(** ** EventBus.ts *)

Module EventBus.

(** A registered handler, known by reference.  [Plain id] is a function
    passed to [on]; [Once wrapper id] is the closure [once] builds around
    the function [id], a fresh object at every call.  What a function does
    when called is not represented: calls are recorded, and a function that
    calls back into the bus is outside this model. *)
Inductive Handler : Type :=
  | Plain (id : nat)
  | Once (wrapper : nat) (id : nat).

#[global] Instance Handler_eq_dec : EqDecision Handler.
Proof. solve_decision. Defined.

(** [listeners] maps an event to its [Set], kept in insertion order;
    [nextWrapper] numbers the closures made so far. *)
Record T : Type := {
  listeners : gmap string (list Handler);
  nextWrapper : nat
}.

Definition new : T := {| listeners := ∅; nextWrapper := 0 |}.

(** [Set.prototype.add] and [Set.prototype.delete]. *)
Definition setAdd (h : Handler) (set : list Handler) : list Handler :=
  if decide (h ∈ set) then set else set ++ [h].

Definition setDelete (h : Handler) (set : list Handler) : list Handler :=
  filter (fun x => x <> h) set.

Definition on (event : string) (h : Handler) (bus : T) : T :=
  let set := default [] (listeners bus !! event) in
  {| listeners := <[event := setAdd h set]> (listeners bus);
     nextWrapper := nextWrapper bus |}.

Definition off (event : string) (h : Handler) (bus : T) : T :=
  match listeners bus !! event with
  | None => bus
  | Some set =>
      let set' := setDelete h set in
      if decide (length set' = 0%nat)
      then {| listeners := delete event (listeners bus);
              nextWrapper := nextWrapper bus |}
      else {| listeners := <[event := set']> (listeners bus);
              nextWrapper := nextWrapper bus |}
  end.

Definition once (event : string) (id : nat) (bus : T) : T :=
  on event (Once (nextWrapper bus) id)
    {| listeners := listeners bus; nextWrapper := S (nextWrapper bus) |}.

(** The function a handler ends up calling. *)
Definition baseOf (h : Handler) : nat :=
  match h with
  | Plain id => id
  | Once _ id => id
  end.

(** What calling a handler does to the bus: a [once] closure first takes
    itself off. *)
Definition invoke (event : string) (bus : T) (h : Handler) : T :=
  match h with
  | Plain _ => bus
  | Once _ _ => off event h bus
  end.

(** [emit]: the functions called, in order, and the bus afterwards. *)
Definition emit (event : string) (bus : T) : list nat * T :=
  match listeners bus !! event with
  | None => ([], bus)
  | Some set =>
      if decide (length set = 0%nat) then ([], bus)
      else (map baseOf set, fold_left (invoke event) set bus)
  end.

Definition clearAll (bus : T) : T :=
  {| listeners := ∅; nextWrapper := nextWrapper bus |}.

(** What a client can do: it holds plain functions only. *)
Inductive Op : Type :=
  | OpOn (event : string) (id : nat)
  | OpOff (event : string) (id : nat)
  | OpOnce (event : string) (id : nat)
  | OpEmit (event : string)
  | OpClearAll.

Definition step (bus : T) (op : Op) : T :=
  match op with
  | OpOn event id => on event (Plain id) bus
  | OpOff event id => off event (Plain id) bus
  | OpOnce event id => once event id bus
  | OpEmit event => snd (emit event bus)
  | OpClearAll => clearAll bus
  end.

Definition run (ops : list Op) (bus : T) : T := fold_left step ops bus.

End EventBus.

Definition isPlain (h : EventBus.Handler) : Prop :=
  match h with
  | EventBus.Plain _ => True
  | EventBus.Once _ _ => False
  end.

#[global] Instance isPlain_dec (h : EventBus.Handler) : Decision (isPlain h).
Proof. destruct h; simpl; apply _. Defined.

(** The state of a bus: no event is kept with an empty set, a set lists a
    handler once, and every closure in it was numbered by this bus. *)
Definition bus_ok (bus : EventBus.T) : Prop :=
  forall (event : string) (set : list EventBus.Handler),
    EventBus.listeners bus !! event = Some set ->
    set <> [] /\ NoDup set /\
    (forall w id : nat,
        EventBus.Once w id ∈ set -> (w < EventBus.nextWrapper bus)%nat).

(** Storing a set the way [off] does: an empty one is dropped. *)
Definition store (m : gmap string (list EventBus.Handler)) (event : string)
  (set : list EventBus.Handler) : gmap string (list EventBus.Handler) :=
  if decide (length set = 0%nat) then delete event m else <[event := set]> m.


(** * Properties *)

(** ** Clamps and powers *)

Lemma clamp_range (v lo hi : R) :
  lo <= hi -> lo <= MathUtils.clamp v lo hi <= hi.
Proof.
  intros Hle. unfold MathUtils.clamp, Rmax, Rmin.
  repeat destruct (Rle_dec _ _); lra.
Qed.

Lemma clamp_id (v lo hi : R) :
  lo <= v <= hi -> MathUtils.clamp v lo hi = v.
Proof.
  intros Hv. unfold MathUtils.clamp, Rmax, Rmin.
  repeat destruct (Rle_dec _ _); lra.
Qed.

Lemma clamp_below (v lo hi : R) :
  lo <= hi -> v < lo -> MathUtils.clamp v lo hi = lo.
Proof.
  intros Hle Hv. unfold MathUtils.clamp, Rmax, Rmin.
  repeat destruct (Rle_dec _ _); lra.
Qed.

Lemma clamp_above (v lo hi : R) :
  lo <= hi -> hi < v -> MathUtils.clamp v lo hi = hi.
Proof.
  intros Hle Hv. unfold MathUtils.clamp, Rmax, Rmin.
  repeat destruct (Rle_dec _ _); lra.
Qed.

Lemma clamp_mono (v w lo hi : R) :
  v <= w -> MathUtils.clamp v lo hi <= MathUtils.clamp w lo hi.
Proof.
  intros Hvw. unfold MathUtils.clamp, Rmax, Rmin.
  repeat destruct (Rle_dec _ _); lra.
Qed.

Lemma Math_pow_pos (x y : R) :
  0 < x -> JS.Math_pow x y = Fin (Rpower x y).
Proof.
  intros Hx. unfold JS.Math_pow.
  destruct (Req_dec_T y 0) as [-> | Hy].
  - now rewrite Rpower_O.
  - destruct (total_order_T x 0) as [[Hlt | Heq] | Hgt]; [lra | lra | reflexivity].
Qed.

Lemma Math_pow_one (y : R) : JS.Math_pow 1 y = Fin 1.
Proof.
  rewrite Math_pow_pos by lra. f_equal.
  unfold Rpower. rewrite ln_1, Rmult_0_r. apply exp_0.
Qed.

Lemma Math_pow_zero (y : R) : 0 < y -> JS.Math_pow 0 y = Fin 0.
Proof.
  intros Hy. unfold JS.Math_pow.
  destruct (Req_dec_T y 0) as [Hy0 | _]; [lra |].
  destruct (total_order_T 0 0) as [[Hlt | _] | Hgt]; [lra | | lra].
  destruct (Rlt_dec 0 y); [reflexivity | contradiction].
Qed.

Lemma Math_pow_neg_fractional (x y : R) :
  x < 0 -> ~ JS.is_integer y -> JS.Math_pow x y = NaN.
Proof.
  intros Hx Hy. unfold JS.Math_pow.
  destruct (Req_dec_T y 0) as [Hy0 | _].
  - exfalso. apply Hy. subst y. unfold JS.is_integer.
    replace (Int_part 0) with 0%Z; [reflexivity |].
    apply Int_part_spec. lra.
  - destruct (total_order_T x 0) as [[_ | Heq] | Hgt]; [| lra | lra].
    destruct (JS.integer_dec y); [contradiction | reflexivity].
Qed.

(** On the unit interval a power with positive exponent stays there. *)
Lemma Rpower_unit (x y : R) :
  0 < x <= 1 -> 0 <= y -> 0 < Rpower x y <= 1.
Proof.
  intros [Hx0 Hx1] Hy. split.
  - unfold Rpower. apply exp_pos.
  - assert (H1 : Rpower 1 y = 1).
    { unfold Rpower. rewrite ln_1, Rmult_0_r. apply exp_0. }
    rewrite <- H1. apply Rle_Rpower_l; lra.
Qed.

(** ** The staged fade of PresenceSystem *)

Section StagedFade.

Import PresenceSystem.

Lemma stage_spec_range (e p st d : R) : 0 <= stage_spec e p st d <= 1.
Proof.
  unfold stage_spec.
  destruct (Rle_dec _ 0); [lra |].
  destruct (Rle_dec 1 _); [lra |].
  unfold Rmax, Rmin. repeat destruct (Rle_dec _ _); lra.
Qed.

Lemma stage_spec_before (e p st d : R) :
  0 < d -> p <= st -> stage_spec e p st d = 1.
Proof.
  intros Hd Hp. unfold stage_spec.
  destruct (Rle_dec _ 0) as [_ | Hn]; [reflexivity |].
  exfalso. apply Hn. unfold Rdiv.
  assert (0 < / d) by now apply Rinv_0_lt_compat. nra.
Qed.

Lemma stage_spec_after (e p st d : R) :
  0 < d -> st + d <= p -> stage_spec e p st d = 0.
Proof.
  intros Hd Hp. unfold stage_spec.
  assert (Ht : 1 <= (p - st) / d).
  { apply Rmult_le_reg_r with d; [assumption |].
    unfold Rdiv. rewrite Rmult_assoc, Rinv_l by lra. lra. }
  destruct (Rle_dec _ 0); [lra |].
  destruct (Rle_dec 1 _); [reflexivity | contradiction].
Qed.

(** Inside its window the stage is the eased power, which needs no clamp. *)
Lemma stage_spec_inside (e p st d : R) :
  0 < d -> 0 <= e -> st < p < st + d ->
  stage_spec e p st d = Rpower (1 - (p - st) / d) (1 + e).
Proof.
  intros Hd He [Hlo Hhi]. unfold stage_spec.
  assert (Hinv : 0 < / d) by now apply Rinv_0_lt_compat.
  assert (Ht0 : 0 < (p - st) / d) by (unfold Rdiv; nra).
  assert (Ht1 : (p - st) / d < 1).
  { apply Rmult_lt_reg_r with d; [assumption |].
    unfold Rdiv. rewrite Rmult_assoc, Rinv_l by lra. lra. }
  destruct (Rle_dec _ 0); [lra |].
  destruct (Rle_dec 1 _); [lra |].
  pose proof (Rpower_unit (1 - (p - st) / d) (1 + e)) as Hu.
  unfold Rmax, Rmin. repeat destruct (Rle_dec _ _); lra.
Qed.

(** More progress through the timeline never raises a stage. *)
Lemma stage_spec_antitone (e p p' st d : R) :
  0 < d -> 0 <= e -> p <= p' ->
  stage_spec e p' st d <= stage_spec e p st d.
Proof.
  intros Hd He Hpp.
  destruct (Rle_dec p st) as [Hb | Hb].
  { rewrite (stage_spec_before e p) by assumption.
    apply stage_spec_range. }
  destruct (Rle_dec (st + d) p') as [Ha | Ha].
  { rewrite (stage_spec_after e p') by assumption.
    apply stage_spec_range. }
  rewrite !stage_spec_inside by lra.
  assert (Hinv : 0 < / d) by now apply Rinv_0_lt_compat.
  assert (Ht1 : (p' - st) / d < 1).
  { apply Rmult_lt_reg_r with d; [assumption |].
    unfold Rdiv. rewrite Rmult_assoc, Rinv_l by lra. lra. }
  apply Rle_Rpower_l; [lra |]. unfold Rdiv in *. split; nra.
Qed.

(** The method computes the specification's stage, and the result is a
    real: the power is only ever taken of a base in (0,1). *)
Lemma computeStageValue_spec (s : T) (p st d : R) :
  0 <= easePower (gates s) ->
  computeStageValue s p st d = Fin (stage_spec (easePower (gates s)) p st d).
Proof.
  intros He. unfold computeStageValue, stage_spec.
  destruct (Rle_dec _ 0); [reflexivity |].
  destruct (Rle_dec 1 _); [reflexivity |].
  destruct (Rle_dec (easePower (gates s)) 0) as [He0 | He0].
  - assert (Hz : easePower (gates s) = 0) by lra. rewrite Hz.
    rewrite Rplus_0_r, Rpower_1 by lra. reflexivity.
  - rewrite Math_pow_pos by lra. reflexivity.
Qed.

Lemma gates_ok_default : gates_ok defaultGates.
Proof. unfold gates_ok, defaultGates; simpl. lra. Qed.

Lemma gates_ok_setGatesConfig (partial : PartialGatesConfig) (s : T) :
  gates_ok (gates (setGatesConfig partial s)).
Proof.
  unfold gates_ok, setGatesConfig; simpl.
  unfold Rmax. repeat destruct (Rle_dec _ _); lra.
Qed.

End StagedFade.

(** C2.  For a presence level [p] in [0,1], [getClockPresenceLevels]
    returns, for the hour, minute and second stage, the staged value of
    the specification (1 when [t <= 0], 0 when [t >= 1], otherwise
    [(1 - t) ^ (1 + easePower)] clamped to [0,1]) at
    [progressed = (1 - p) * (hourFade + minuteFade + secondFade)] with the
    stage starts [0], [hourFade] and [hourFade + minuteFade]. *)
Theorem getClockPresenceLevels_staged (s : PresenceSystem.T) :
  PresenceSystem.gates_ok (PresenceSystem.gates s) ->
  0 <= PresenceSystem.level (PresenceSystem.state s) <= 1 ->
  let g := PresenceSystem.gates s in
  let h := PresenceSystem.hourFadeSeconds g in
  let m := PresenceSystem.minuteFadeSeconds g in
  let sec := PresenceSystem.secondFadeSeconds g in
  let e := PresenceSystem.easePower g in
  let progressed := (1 - PresenceSystem.level (PresenceSystem.state s)) * (h + m + sec) in
  PresenceSystem.getClockPresenceLevels s =
    {| PresenceSystem.hour := Fin (stage_spec e progressed 0 h);
       PresenceSystem.minute := Fin (stage_spec e progressed h m);
       PresenceSystem.second := Fin (stage_spec e progressed (h + m) sec) |}.
Proof.
  intros (Hh & Hm & Hs & He) Hp. cbv zeta.
  unfold PresenceSystem.getClockPresenceLevels.
  rewrite clamp_id by assumption.
  rewrite !computeStageValue_spec by assumption. reflexivity.
Qed.

Lemma getClockPresenceLevels_staged_witness :
  PresenceSystem.getClockPresenceLevels
    (PresenceSystem.setPresenceLevel (1 / 2) 0 (PresenceSystem.new 0)) =
    {| PresenceSystem.hour := Fin (stage_spec 1 ((1 - 1 / 2) * (60 + 30 + 15)) 0 60);
       PresenceSystem.minute := Fin (stage_spec 1 ((1 - 1 / 2) * (60 + 30 + 15)) 60 30);
       PresenceSystem.second :=
         Fin (stage_spec 1 ((1 - 1 / 2) * (60 + 30 + 15)) (60 + 30) 15) |}.
Proof.
  assert (Hc : MathUtils.clamp (1 / 2) 0 1 = 1 / 2) by (apply clamp_id; lra).
  pose proof (getClockPresenceLevels_staged
                (PresenceSystem.setPresenceLevel (1 / 2) 0 (PresenceSystem.new 0)))
    as H.
  simpl in H. rewrite Hc in H. apply H.
  - unfold PresenceSystem.gates_ok; simpl. lra.
  - lra.
Defined.

(** C4.  For presence levels [p1 < p2] in [0,1] and any gates the object
    can hold, each of the three stage values at [p1] is at most the
    corresponding value at [p2]. *)
Theorem getClockPresenceLevels_monotone (s : PresenceSystem.T) (p1 p2 now : R) :
  PresenceSystem.gates_ok (PresenceSystem.gates s) ->
  0 <= p1 -> p1 < p2 -> p2 <= 1 ->
  let l1 := PresenceSystem.getClockPresenceLevels
              (PresenceSystem.setPresenceLevel p1 now s) in
  let l2 := PresenceSystem.getClockPresenceLevels
              (PresenceSystem.setPresenceLevel p2 now s) in
  nle (PresenceSystem.hour l1) (PresenceSystem.hour l2) /\
  nle (PresenceSystem.minute l1) (PresenceSystem.minute l2) /\
  nle (PresenceSystem.second l1) (PresenceSystem.second l2).
Proof.
  intros (Hh & Hm & Hs & He) H1 H12 H2. cbv zeta.
  unfold PresenceSystem.getClockPresenceLevels; simpl.
  rewrite !computeStageValue_spec by assumption; simpl.
  rewrite !(clamp_id (MathUtils.clamp _ 0 1) 0 1) by (apply clamp_range; lra).
  rewrite (clamp_id p1), (clamp_id p2) by lra.
  repeat split; apply stage_spec_antitone; try assumption; nra.
Qed.

Lemma getClockPresenceLevels_monotone_witness :
  let l1 := PresenceSystem.getClockPresenceLevels
              (PresenceSystem.setPresenceLevel (1 / 4) 0 (PresenceSystem.new 0)) in
  let l2 := PresenceSystem.getClockPresenceLevels
              (PresenceSystem.setPresenceLevel (3 / 4) 0 (PresenceSystem.new 0)) in
  nle (PresenceSystem.hour l1) (PresenceSystem.hour l2) /\
  nle (PresenceSystem.minute l1) (PresenceSystem.minute l2) /\
  nle (PresenceSystem.second l1) (PresenceSystem.second l2).
Proof.
  apply (getClockPresenceLevels_monotone (PresenceSystem.new 0) (1 / 4) (3 / 4) 0).
  - apply gates_ok_default.
  - lra.
  - lra.
  - lra.
Defined.

(** C5.  When [progressed = (1 - p) * (hourFade + minuteFade + secondFade)]
    lies in [[hourFade, hourFade + minuteFade)], the hour value is 0 and the
    second value is 1. *)
Theorem getClockPresenceLevels_sequential (s : PresenceSystem.T) :
  PresenceSystem.gates_ok (PresenceSystem.gates s) ->
  let g := PresenceSystem.gates s in
  let h := PresenceSystem.hourFadeSeconds g in
  let m := PresenceSystem.minuteFadeSeconds g in
  let sec := PresenceSystem.secondFadeSeconds g in
  let p := MathUtils.clamp (PresenceSystem.level (PresenceSystem.state s)) 0 1 in
  let progressed := (1 - p) * (h + m + sec) in
  h <= progressed < h + m ->
  PresenceSystem.hour (PresenceSystem.getClockPresenceLevels s) = Fin 0 /\
  PresenceSystem.second (PresenceSystem.getClockPresenceLevels s) = Fin 1.
Proof.
  intros (Hh & Hm & Hs & He). cbv zeta. intros [Hlo Hhi].
  unfold PresenceSystem.getClockPresenceLevels; simpl.
  rewrite !computeStageValue_spec by assumption. split; f_equal.
  - apply stage_spec_after; lra.
  - apply stage_spec_before; lra.
Qed.

Lemma getClockPresenceLevels_sequential_witness :
  let s := PresenceSystem.setPresenceLevel (3 / 10) 0 (PresenceSystem.new 0) in
  PresenceSystem.hour (PresenceSystem.getClockPresenceLevels s) = Fin 0 /\
  PresenceSystem.second (PresenceSystem.getClockPresenceLevels s) = Fin 1.
Proof.
  assert (Hc : MathUtils.clamp (3 / 10) 0 1 = 3 / 10) by (apply clamp_id; lra).
  apply (getClockPresenceLevels_sequential
           (PresenceSystem.setPresenceLevel (3 / 10) 0 (PresenceSystem.new 0))).
  - apply gates_ok_default.
  - simpl. rewrite Hc. rewrite clamp_id by lra. lra.
Defined.



(** ** The hour head *)

Lemma msOfDay_mod_halfDay (now : WallClock) :
  wellFormed now ->
  (msOfDay now mod halfDayMs =
   (getHours now mod 12) * 3600000 + getMinutes now * 60000
   + getSeconds now * 1000 + getMilliseconds now)%Z.
Proof.
  intros (Hh & Hm & Hs & Hms). unfold msOfDay, halfDayMs.
  pose proof (Z.div_mod (getHours now) 12 ltac:(lia)) as Hdm.
  pose proof (Z.mod_pos_bound (getHours now) 12 ltac:(lia)) as Hb.
  symmetry. apply Z.mod_unique with (q := (getHours now / 12)%Z); lia.
Qed.

Lemma hourProgress_linear (now : WallClock) :
  wellFormed now ->
  ClockSystem.hourProgress now = IZR (msOfDay now mod halfDayMs) / IZR halfDayMs.
Proof.
  intros Hwf. rewrite msOfDay_mod_halfDay by assumption.
  unfold ClockSystem.hourProgress, halfDayMs.
  rewrite !plus_IZR, !mult_IZR. field.
Qed.

(** C7.  The hour ring's progress is
    [(hourOfHalfDay + minutes / 60 + secondFraction / 3600) / 12] with
    [secondFraction = seconds + ms / 1000]; it is the elapsed part of the
    half day, so one millisecond later it is [1 / 43200000] further on, at
    an hour boundary as anywhere else. *)
Theorem hourProgress_smooth (now : WallClock) :
  wellFormed now ->
  ClockSystem.hourProgress now =
    (IZR (getHours now mod 12) + IZR (getMinutes now) / 60
     + (IZR (getSeconds now) + IZR (getMilliseconds now) / 1000) / 3600) / 12 /\
  ClockSystem.hourProgress now = IZR (msOfDay now mod halfDayMs) / IZR halfDayMs /\
  0 <= ClockSystem.hourProgress now < 1 /\
  (forall next : WallClock,
     wellFormed next ->
     msOfDay next = (msOfDay now + 1)%Z ->
     (msOfDay next mod halfDayMs)%Z <> 0%Z ->
     ClockSystem.hourProgress next =
       ClockSystem.hourProgress now + 1 / IZR halfDayMs).
Proof.
  intros Hwf. split; [| split; [| split]].
  - unfold ClockSystem.hourProgress. field.
  - now apply hourProgress_linear.
  - rewrite hourProgress_linear by assumption.
    pose proof (Z.mod_pos_bound (msOfDay now) halfDayMs ltac:(unfold halfDayMs; lia))
      as [Hlo Hhi].
    apply IZR_le in Hlo. apply IZR_lt in Hhi.
    assert (Hpos : 0 < IZR halfDayMs) by (unfold halfDayMs; lra).
    split.
    + apply Rmult_le_reg_r with (IZR halfDayMs); [assumption |].
      unfold Rdiv. rewrite Rmult_assoc, Rinv_l by lra. lra.
    + apply Rmult_lt_reg_r with (IZR halfDayMs); [assumption |].
      unfold Rdiv. rewrite Rmult_assoc, Rinv_l by lra. lra.
  - intros next Hn Hstep Hnz.
    rewrite !hourProgress_linear by assumption.
    assert (Hmod : (msOfDay next mod halfDayMs = msOfDay now mod halfDayMs + 1)%Z).
    { rewrite Hstep in *. unfold halfDayMs in *.
      pose proof (Z.div_mod (msOfDay now) 43200000 ltac:(lia)) as Hdm.
      pose proof (Z.mod_pos_bound (msOfDay now) 43200000 ltac:(lia)) as Hb.
      destruct (Z.eq_dec (msOfDay now mod 43200000) 43199999) as [Heq | Hne].
      - exfalso. apply Hnz.
        apply Z.mod_divide; [lia |].
        exists (msOfDay now / 43200000 + 1)%Z. lia.
      - symmetry. apply Z.mod_unique with (q := (msOfDay now / 43200000)%Z); lia. }
    rewrite Hmod, plus_IZR. unfold halfDayMs. field.
Qed.

Lemma hourProgress_smooth_witness :
  let now := {| getHours := 15; getMinutes := 59; getSeconds := 59;
                getMilliseconds := 999 |} in
  let next := {| getHours := 16; getMinutes := 0; getSeconds := 0;
                 getMilliseconds := 0 |} in
  ClockSystem.hourProgress now = IZR (msOfDay now mod halfDayMs) / IZR halfDayMs /\
  ClockSystem.hourProgress next =
    ClockSystem.hourProgress now + 1 / IZR halfDayMs.
Proof.
  intros now next.
  assert (Hwf : wellFormed now) by (unfold wellFormed, now; simpl; lia).
  destruct (hourProgress_smooth now Hwf) as (_ & Hlin & _ & Htick).
  split; [exact Hlin |].
  apply Htick.
  - unfold wellFormed, next; simpl. lia.
  - reflexivity.
  - vm_compute. discriminate.
Defined.

(** The first revision does not have the property: at 3:30 its hour head
    still stands on 3. *)
Example hourProgress_P03_pinned :
  ClockSystemP03.hourProgress
    {| getHours := 3; getMinutes := 30; getSeconds := 0; getMilliseconds := 0 |}
  = ClockSystemP03.hourProgress
    {| getHours := 3; getMinutes := 0; getSeconds := 0; getMilliseconds := 0 |}.
Proof. reflexivity. Qed.

(** ** Setters *)




(** ** Presence overrides of the controller *)

Lemma step_keeps_cleared (c : ClockSystem.T) (op : ClockSystem.Op) :
  ClockSystem.establishesOverrides op = false ->
  overridesCleared c -> overridesCleared (ClockSystem.step c op).
Proof.
  intros Hop (Hh & Hm & Hs).
  destruct op; simpl in Hop; try discriminate;
    unfold overridesCleared; simpl; auto.
Qed.

Lemma run_keeps_cleared (ops : list ClockSystem.Op) :
  forall c : ClockSystem.T,
    forallb (fun op => negb (ClockSystem.establishesOverrides op)) ops = true ->
    overridesCleared c -> overridesCleared (ClockSystem.run ops c).
Proof.
  induction ops as [| op ops IH]; intros c Hops Hc; simpl in *.
  - exact Hc.
  - apply andb_prop in Hops as [Hop Hrest].
    apply IH; [exact Hrest |].
    apply step_keeps_cleared; [| exact Hc].
    now destruct (ClockSystem.establishesOverrides op).
Qed.

(** C10.  Whatever overrides were in place, [setPresenceLevel v] clears the
    three of them, so the next [update] paints the hour, minute and second
    ring with presence [clamp(v, 0, 1)]; they stay cleared under every
    operation but [setRingPresenceLevels], which sets them again. *)
Theorem setPresenceLevel_clears_overrides
  (c : ClockSystem.T) (v dt : R) (now : WallClock) (ops : list ClockSystem.Op) :
  forallb (fun op => negb (ClockSystem.establishesOverrides op)) ops = true ->
  let c' := ClockSystem.setPresenceLevel v c in
  let p := MathUtils.clamp v 0 1 in
  let base := ClockSystem.globalIntensity c * ClockSystem.distanceFactor c in
  overridesCleared c' /\
  ClockSystem.hourRing (ClockSystem.update dt now c') =
    RingPoints.updateFill (ClockSystem.hourProgress now * tau)
      (base * (1 + ClockSystem.audioLow c * (6 / 10))) p
      (ClockSystem.colorMode c) (ClockSystem.hourRing c) /\
  ClockSystem.minuteRing (ClockSystem.update dt now c') =
    RingPoints.updateFill (ClockSystem.minuteProgress now * tau)
      (base * (1 + ClockSystem.audioMid c * (6 / 10))) p
      (ClockSystem.colorMode c) (ClockSystem.minuteRing c) /\
  ClockSystem.secondRing (ClockSystem.update dt now c') =
    RingPoints.updateFill (ClockSystem.secondProgress now * tau)
      (base * (1 + ClockSystem.audioHigh c * (6 / 10))) p
      (ClockSystem.colorMode c) (ClockSystem.secondRing c) /\
  overridesCleared (ClockSystem.run ops c') /\
  (forall h m s : R,
     ~ overridesCleared (ClockSystem.setRingPresenceLevels h m s c')).
Proof.
  intros Hops c' p base.
  assert (Hc : overridesCleared c') by (unfold overridesCleared; simpl; auto).
  split; [exact Hc |].
  repeat split; try reflexivity.
  - destruct (run_keeps_cleared ops c' Hops Hc) as (H & _). exact H.
  - destruct (run_keeps_cleared ops c' Hops Hc) as (_ & H & _). exact H.
  - destruct (run_keeps_cleared ops c' Hops Hc) as (_ & _ & H). exact H.
  - intros h m s (H & _). simpl in H. discriminate.
Qed.

(** ** Angles *)

Lemma tau_pos : 0 < tau.
Proof. unfold tau. pose proof PI_RGT_0. lra. Qed.

Lemma PI_gt_3 : 3 < PI.
Proof. pose proof PI2_3_2. lra. Qed.

Lemma trunc_nonneg (x : R) :
  0 <= x -> IZR (JS.trunc x) <= x < IZR (JS.trunc x) + 1.
Proof.
  intros Hx. unfold JS.trunc.
  destruct (Rle_dec 0 x); [| contradiction].
  pose proof (base_Int_part x). lra.
Qed.

Lemma trunc_neg (x : R) :
  x < 0 -> x <= IZR (JS.trunc x) < x + 1.
Proof.
  intros Hx. unfold JS.trunc.
  destruct (Rle_dec 0 x); [lra |].
  rewrite opp_IZR. pose proof (base_Int_part (- x)). lra.
Qed.

Lemma trunc_unique (x : R) (k : Z) :
  0 <= x -> IZR k <= x < IZR k + 1 -> JS.trunc x = k.
Proof.
  intros Hx Hk. unfold JS.trunc.
  destruct (Rle_dec 0 x); [| contradiction].
  symmetry. apply Int_part_spec. lra.
Qed.

Lemma quotient_bounds (a b lo hi : R) :
  0 < b -> lo * b <= a < hi * b -> lo <= a / b < hi.
Proof.
  intros Hb [Hlo Hhi]. split.
  - apply Rmult_le_reg_r with b; [assumption |].
    unfold Rdiv. rewrite Rmult_assoc, Rinv_l by lra. lra.
  - apply Rmult_lt_reg_r with b; [assumption |].
    unfold Rdiv. rewrite Rmult_assoc, Rinv_l by lra. lra.
Qed.

Lemma rem_nonneg (a b : R) :
  0 <= a -> 0 < b -> 0 <= JS.rem a b < b.
Proof.
  intros Ha Hb. unfold JS.rem.
  assert (Hq : 0 <= a / b).
  { assert (0 < / b) by now apply Rinv_0_lt_compat. unfold Rdiv. nra. }
  pose proof (trunc_nonneg (a / b) Hq) as [Hlo Hhi].
  assert (Hab : a = a / b * b) by (field; lra).
  split; nra.
Qed.

Lemma rem_neg (a b : R) :
  a < 0 -> 0 < b -> - b < JS.rem a b <= 0.
Proof.
  intros Ha Hb. unfold JS.rem.
  assert (Hq : a / b < 0).
  { assert (0 < / b) by now apply Rinv_0_lt_compat. unfold Rdiv. nra. }
  pose proof (trunc_neg (a / b) Hq) as [Hlo Hhi].
  assert (Hab : a = a / b * b) by (field; lra).
  split; nra.
Qed.

Lemma rem_small (a b : R) : 0 <= a < b -> JS.rem a b = a.
Proof.
  intros [Ha Hb]. unfold JS.rem.
  assert (Hq : 0 <= a / b < 1) by (apply quotient_bounds; lra).
  rewrite (trunc_unique (a / b) 0) by (simpl; lra).
  simpl. lra.
Qed.

Lemma rem_shift (a b : R) : b <= a < 2 * b -> 0 < b -> JS.rem a b = a - b.
Proof.
  intros [Ha Hb] Hpos. unfold JS.rem.
  assert (Hq : 1 <= a / b < 2) by (apply quotient_bounds; lra).
  rewrite (trunc_unique (a / b) 1) by (simpl; lra).
  simpl. lra.
Qed.

Lemma normalizeHead_range (headAngle : R) :
  0 <= RingPoints.normalizeHead headAngle < tau.
Proof.
  unfold RingPoints.normalizeHead. pose proof tau_pos as Ht.
  destruct (Rle_dec 0 headAngle) as [Hh | Hh].
  - pose proof (rem_nonneg headAngle tau Hh Ht).
    destruct (Rlt_dec _ 0); lra.
  - pose proof (rem_neg headAngle tau ltac:(lra) Ht).
    destruct (Rlt_dec _ 0); lra.
Qed.

Lemma normalizeHead_small (headAngle : R) :
  0 <= headAngle < tau -> RingPoints.normalizeHead headAngle = headAngle.
Proof.
  intros Hh. unfold RingPoints.normalizeHead.
  rewrite rem_small by assumption.
  destruct (Rlt_dec headAngle 0); lra.
Qed.

(** The distance back from the head, by cases on which side of the head the
    point lies. *)
Lemma deltaBackOf_cases (head angle : R) :
  0 <= head < tau -> 0 <= angle < tau ->
  RingPoints.deltaBackOf head angle =
    if Rle_dec angle head then head - angle else head - angle + tau.
Proof.
  intros Hh Ha. unfold RingPoints.deltaBackOf. pose proof tau_pos.
  destruct (Rle_dec angle head).
  - rewrite rem_shift by lra. lra.
  - rewrite rem_small by lra. reflexivity.
Qed.

Lemma deltaBackOf_range (head angle : R) :
  0 <= head < tau -> 0 <= angle < tau ->
  0 <= RingPoints.deltaBackOf head angle < tau.
Proof.
  intros Hh Ha. rewrite deltaBackOf_cases by assumption.
  destruct (Rle_dec angle head); lra.
Qed.

Lemma deltaBackOf_head (head : R) :
  0 <= head < tau -> RingPoints.deltaBackOf head head = 0.
Proof.
  intros Hh. rewrite deltaBackOf_cases by assumption.
  destruct (Rle_dec head head); lra.
Qed.

(** ** The paint loop *)

Section PaintLoop.

Variable intensityAt : R -> number.
Variable base : Color.

Lemma paintPoint_length (x : number) (i : nat) (colors : list number) :
  length (RingPoints.paintPoint base x i colors) = length colors.
Proof. unfold RingPoints.paintPoint. now rewrite !length_insert. Qed.

Lemma paintPoint_lookup_other (x : number) (i j : nat) (colors : list number) :
  (j < i * 3 \/ i * 3 + 3 <= j)%nat ->
  RingPoints.paintPoint base x i colors !! j = colors !! j.
Proof.
  intros Hj. unfold RingPoints.paintPoint.
  rewrite !list_lookup_insert_ne by lia. reflexivity.
Qed.

Lemma paintPoint_lookup (x : number) (i c : nat) (colors : list number) :
  (i * 3 + 2 < length colors)%nat -> (c < 3)%nat ->
  RingPoints.paintPoint base x i colors !! (i * 3 + c)%nat =
    Some (nmul (Fin (channel c base)) x).
Proof.
  intros Hlen Hc. unfold RingPoints.paintPoint.
  destruct c as [| [| [| c]]]; [| | | lia]; simpl channel.
  - rewrite Nat.add_0_r.
    rewrite !list_lookup_insert_ne by lia.
    apply list_lookup_insert_eq. lia.
  - rewrite list_lookup_insert_ne by lia.
    apply list_lookup_insert_eq. rewrite length_insert. lia.
  - apply list_lookup_insert_eq. rewrite !length_insert. lia.
Qed.

Lemma fillLoop_length (angles : list R) :
  forall (i : nat) (colors : list number),
    length (RingPoints.fillLoop intensityAt base i angles colors) = length colors.
Proof.
  induction angles as [| a rest IH]; intros i colors; simpl.
  - reflexivity.
  - rewrite IH. apply paintPoint_length.
Qed.

(** Iterations from index [i] on leave the entries below [3 i] alone. *)
Lemma fillLoop_lookup_below (angles : list R) :
  forall (i j : nat) (colors : list number),
    (j < i * 3)%nat ->
    RingPoints.fillLoop intensityAt base i angles colors !! j = colors !! j.
Proof.
  induction angles as [| a rest IH]; intros i j colors Hj; simpl.
  - reflexivity.
  - rewrite IH by lia. apply paintPoint_lookup_other. lia.
Qed.

(** After the loop, entry [3 (i + k) + c] holds channel [c] of the base
    colour times the intensity of the [k]-th angle. *)
Lemma fillLoop_lookup (angles : list R) :
  forall (i k c : nat) (a : R) (colors : list number),
    angles !! k = Some a ->
    ((i + length angles) * 3 <= length colors)%nat ->
    (c < 3)%nat ->
    RingPoints.fillLoop intensityAt base i angles colors !! ((i + k) * 3 + c)%nat =
      Some (nmul (Fin (channel c base)) (intensityAt a)).
Proof.
  induction angles as [| a0 rest IH]; intros i k c a colors Hk Hlen Hc.
  - discriminate.
  - simpl in Hlen. destruct k as [| k]; simpl in Hk |- *.
    + injection Hk as ->. rewrite Nat.add_0_r.
      rewrite fillLoop_lookup_below by lia.
      apply paintPoint_lookup; lia.
    + replace (i + S k)%nat with (S i + k)%nat by lia.
      apply IH; [assumption | | assumption].
      rewrite paintPoint_length. lia.
Qed.

End PaintLoop.

Lemma updateFill_lookup (ring : RingPoints.T)
  (headAngle intensityScale presenceLevel : R) (mode : ClockColorMode)
  (i c : nat) (a : R) :
  length (RingPoints.colors ring) = (length (RingPoints.angles ring) * 3)%nat ->
  RingPoints.angles ring !! i = Some a -> (c < 3)%nat ->
  RingPoints.colors
    (RingPoints.updateFill headAngle intensityScale presenceLevel mode ring)
    !! (i * 3 + c)%nat =
  Some (nmul (Fin (channel c (RingPoints.baseColor ring)))
          (RingPoints.pointIntensity (RingPoints.falloffPower ring)
             (RingPoints.normalizeHead headAngle)
             (RingPoints.tailArcOf ring presenceLevel)
             (Rmax 0 intensityScale) a)).
Proof.
  intros Hlen Hi Hc. unfold RingPoints.updateFill; simpl.
  apply (fillLoop_lookup _ _ _ 0%nat i c a); [assumption | simpl; lia | assumption].
Qed.

(** ** The intensity of one point *)

Lemma rpow_unit (t p : R) : 0 <= t <= 1 -> 0 < p -> 0 <= rpow t p <= 1.
Proof.
  intros Ht Hp. unfold rpow.
  destruct (Req_dec_T t 0); [lra |].
  pose proof (Rpower_unit t p). lra.
Qed.

Lemma Math_pow_rpow (t p : R) :
  0 <= t -> 0 < p -> JS.Math_pow t p = Fin (rpow t p).
Proof.
  intros Ht Hp. unfold rpow.
  destruct (Req_dec_T t 0) as [-> | Hne].
  - now apply Math_pow_zero.
  - apply Math_pow_pos. lra.
Qed.

Lemma tailArcOf_bounds (ring : RingPoints.T) (presenceLevel : R) :
  ring_ok ring ->
  1 / 10000 <= RingPoints.tailArcOf ring presenceLevel <= tau.
Proof.
  intros Hok. destruct (ok_minTail ring Hok), (ok_maxTail ring Hok).
  unfold RingPoints.tailArcOf, MathUtils.lerp.
  pose proof (clamp_range presenceLevel 0 1 ltac:(lra)) as Hp.
  pose proof tau_pos as Ht. pose proof PI_gt_3 as Hpi.
  assert (Htau : 1 / 10000 <= tau) by (unfold tau; lra).
  set (p := MathUtils.clamp presenceLevel 0 1) in *.
  assert (Hmin : 1 / 10000 <= Rmax (RingPoints.minTailLengthFraction ring * tau) (1 / 10000) <= tau).
  { unfold Rmax. destruct (Rle_dec _ _); split; nra. }
  assert (Hmax : 1 / 10000 <= Rmax (RingPoints.maxTailLengthFraction ring * tau) (1 / 10000) <= tau).
  { unfold Rmax. destruct (Rle_dec _ _); split; nra. }
  split; nra.
Qed.

Section PointIntensity.

Variables falloff head tailArc scale angle : R.
Hypothesis Hhead : 0 <= head < tau.
Hypothesis Hangle : 0 <= angle < tau.
Hypothesis HtailArc : 0 < tailArc.
Hypothesis Hscale : 0 <= scale.

Let deltaBack := RingPoints.deltaBackOf head angle.

Lemma pointIntensity_beyond_guard :
  tailArc + RingPoints.EPS < deltaBack ->
  RingPoints.pointIntensity falloff head tailArc scale angle = Fin 0.
Proof.
  intros Hfar. unfold RingPoints.pointIntensity. fold deltaBack.
  destruct (Rle_dec 0 deltaBack); [| simpl].
  - destruct (Rle_dec deltaBack _); [lra |]. simpl.
    rewrite Rmult_0_l. destruct (Rlt_dec 1 0); [lra | reflexivity].
  - rewrite Rmult_0_l. destruct (Rlt_dec 1 0); [lra | reflexivity].
Qed.

Lemma pointIntensity_within_arc :
  0 < falloff -> deltaBack <= tailArc ->
  RingPoints.pointIntensity falloff head tailArc scale angle =
    Fin (paint_spec falloff tailArc scale RingPoints.TAIL_FLOOR deltaBack).
Proof.
  intros Hf Hin.
  pose proof (deltaBackOf_range head angle Hhead Hangle) as Hd.
  fold deltaBack in Hd.
  assert (Ht : 0 <= 1 - deltaBack / tailArc <= 1).
  { assert (Hq : 0 <= deltaBack / tailArc <= 1).
    { assert (Hinv : 0 < / tailArc) by now apply Rinv_0_lt_compat.
      split; [unfold Rdiv; nra |].
      apply Rmult_le_reg_r with tailArc; [assumption |].
      unfold Rdiv. rewrite Rmult_assoc, Rinv_l by lra. lra. }
    lra. }
  pose proof (rpow_unit _ falloff Ht Hf) as Hr.
  unfold RingPoints.pointIntensity, paint_spec. fold deltaBack.
  assert (HE : 0 < RingPoints.EPS) by (unfold RingPoints.EPS; lra).
  destruct (Rle_dec 0 deltaBack); [| lra].
  destruct (Rle_dec deltaBack _); [| lra].
  destruct (Rlt_dec _ deltaBack); [lra |].
  rewrite Math_pow_rpow by lra. simpl.
  set (x := rpow (1 - deltaBack / tailArc) falloff) in *.
  assert (Hfl : 0 <= RingPoints.TAIL_FLOOR + (1 - RingPoints.TAIL_FLOOR) * x <= 1).
  { unfold RingPoints.TAIL_FLOOR. lra. }
  unfold MathUtils.clamp, Rmax, Rmin.
  destruct (Rlt_dec 1 _); repeat destruct (Rle_dec _ _); f_equal; nra.
Qed.

(** In the guard band the shape is the power of a negative base. *)
Lemma pointIntensity_guard_band :
  ~ JS.is_integer falloff ->
  tailArc < deltaBack <= tailArc + RingPoints.EPS ->
  RingPoints.pointIntensity falloff head tailArc scale angle = NaN.
Proof.
  intros Hfrac [Hlo Hhi].
  unfold RingPoints.pointIntensity. fold deltaBack.
  destruct (Rle_dec 0 deltaBack); [| lra].
  destruct (Rle_dec deltaBack _); [| lra].
  rewrite Math_pow_neg_fractional; [reflexivity | | assumption].
  assert (1 < deltaBack / tailArc); [| lra].
  apply Rmult_lt_reg_r with tailArc; [assumption |].
  unfold Rdiv. rewrite Rmult_assoc, Rinv_l by lra. lra.
Qed.

Lemma pointIntensity_head :
  angle = head ->
  RingPoints.pointIntensity falloff head tailArc scale angle = Fin (Rmin 1 scale).
Proof.
  intros ->. unfold RingPoints.pointIntensity.
  rewrite deltaBackOf_head by assumption.
  assert (HE : 0 < RingPoints.EPS) by (unfold RingPoints.EPS; lra).
  destruct (Rle_dec 0 0); [| lra].
  destruct (Rle_dec 0 _); [| lra].
  replace (1 - 0 / tailArc) with 1 by (field; lra).
  rewrite Math_pow_one. simpl.
  unfold Rmin, RingPoints.TAIL_FLOOR.
  destruct (Rlt_dec 1 _); destruct (Rle_dec 1 scale); f_equal; lra.
Qed.

End PointIntensity.

(** ** Ring invariant *)

Lemma channel_ok (col : Color) (c : nat) : color_ok col -> 0 <= channel c col <= 1.
Proof.
  intros (Hr & Hg & Hb). destruct c as [| [| c]]; simpl; assumption.
Qed.

Lemma new_angle_range (points i : nat) :
  (i < points)%nat -> 0 <= INR i / INR points * PI * 2 < tau.
Proof.
  intros Hi. pose proof PI_RGT_0 as Hpi.
  assert (Hp : 0 < INR points) by (apply lt_0_INR; lia).
  assert (Hq : 0 <= INR i / INR points < 1).
  { apply quotient_bounds; [assumption |].
    split; [rewrite Rmult_0_l; apply pos_INR |].
    rewrite Rmult_1_l. now apply lt_INR. }
  unfold tau. split; nra.
Qed.

Lemma new_ok (config : RingPoints.RingPointsConfig) :
  color_ok (RingPoints.cfg_baseColor config) -> ring_ok (RingPoints.new config).
Proof.
  intros Hcol. constructor; simpl.
  - now rewrite length_replicate, length_map, length_seq.
  - apply Forall_forall. intros a Ha.
    apply list_elem_of_In, in_map_iff in Ha as (i & <- & Hi).
    apply in_seq in Hi. apply new_angle_range. lia.
  - unfold MathUtils.lerp.
    pose proof (clamp_range (RingPoints.falloffFactor config) 0 1 ltac:(lra)).
    nra.
  - apply clamp_range; lra.
  - apply clamp_range; lra.
  - intros c. now apply channel_ok.
Qed.

Lemma updateFill_ok (ring : RingPoints.T)
  (headAngle intensityScale presenceLevel : R) (mode : ClockColorMode) :
  ring_ok ring ->
  ring_ok (RingPoints.updateFill headAngle intensityScale presenceLevel mode ring).
Proof.
  intros [Hl Ha Hf Hmin Hmax Hb]. constructor; simpl; try assumption.
  now rewrite fillLoop_length.
Qed.

Lemma Rmax_0_nonneg (x : R) : 0 <= Rmax 0 x.
Proof. unfold Rmax. destruct (Rle_dec _ _); lra. Qed.

(** The falloff power every ring of the controller is built with:
    [lerp(1.2, 3.0, 0.35) = 1.83]. *)
Lemma controller_falloff :
  MathUtils.lerp (12 / 10) 3 (MathUtils.clamp (35 / 100) 0 1) = 183 / 100.
Proof.
  rewrite clamp_id by lra. unfold MathUtils.lerp. lra.
Qed.

Lemma fractional_183 : ~ JS.is_integer (183 / 100).
Proof.
  unfold JS.is_integer. intros H.
  assert (H' : IZR (Int_part (183 / 100) * 100) = IZR 183).
  { rewrite mult_IZR, H. lra. }
  apply eq_IZR in H'. lia.
Qed.

(** ** Painting *)

Lemma normalizeHead_congruent (headAngle : R) :
  exists k : Z, RingPoints.normalizeHead headAngle = headAngle + IZR k * tau.
Proof.
  unfold RingPoints.normalizeHead, JS.rem.
  destruct (Rlt_dec _ 0).
  - exists (1 - JS.trunc (headAngle / tau))%Z. rewrite minus_IZR. lra.
  - exists (- JS.trunc (headAngle / tau))%Z. rewrite opp_IZR. lra.
Qed.

Lemma deltaBackOf_congruent (headAngle angle : R) :
  0 <= angle < tau ->
  exists k : Z,
    RingPoints.deltaBackOf (RingPoints.normalizeHead headAngle) angle =
      headAngle - angle + IZR k * tau.
Proof.
  intros Ha. destruct (normalizeHead_congruent headAngle) as [k Hk].
  rewrite deltaBackOf_cases by (apply normalizeHead_range || assumption).
  destruct (Rle_dec _ _).
  - exists k. lra.
  - exists (k + 1)%Z. rewrite plus_IZR. lra.
Qed.

(** At presence 0 the tail arc is the minimum arc. *)
Lemma tailArcOf_presence_0 (ring : RingPoints.T) :
  RingPoints.minTailLengthFraction ring = 31 / 1000 ->
  RingPoints.tailArcOf ring 0 = 31 / 1000 * tau.
Proof.
  intros Hmin. unfold RingPoints.tailArcOf, MathUtils.lerp.
  rewrite clamp_id by lra. rewrite Hmin.
  pose proof PI_gt_3. unfold tau, Rmax.
  repeat destruct (Rle_dec _ _); lra.
Qed.

(** A ring built like the controller's, painted at presence 0 with the head
    just past the end of the minimum arc as seen from the first point. *)
Lemma first_point_in_guard_band (ring : RingPoints.T)
  (headAngle intensityScale : R) (mode : ClockColorMode) :
  length (RingPoints.colors ring) = (length (RingPoints.angles ring) * 3)%nat ->
  RingPoints.angles ring !! 0%nat = Some 0 ->
  RingPoints.falloffPower ring = 183 / 100 ->
  RingPoints.minTailLengthFraction ring = 31 / 1000 ->
  31 / 1000 * tau < headAngle <= 31 / 1000 * tau + RingPoints.EPS ->
  RingPoints.colors (RingPoints.updateFill headAngle intensityScale 0 mode ring)
    !! 0%nat = Some NaN.
Proof.
  intros Hlen Hang Hfall Hmin Hband.
  pose proof tau_pos as Ht. pose proof PI_gt_3 as Hpi.
  assert (Hh : 0 <= headAngle < tau).
  { unfold RingPoints.EPS, tau in *. lra. }
  pose proof (updateFill_lookup ring headAngle intensityScale 0 mode 0 0 0
                Hlen Hang ltac:(lia)) as Hl.
  change (0 * 3 + 0)%nat with 0%nat in Hl. rewrite Hl. clear Hl.
  rewrite pointIntensity_guard_band; [reflexivity | | | ].
  - rewrite tailArcOf_presence_0 by assumption. lra.
  - rewrite Hfall. apply fractional_183.
  - rewrite tailArcOf_presence_0, normalizeHead_small by assumption.
    rewrite deltaBackOf_cases by lra.
    destruct (Rle_dec 0 headAngle); lra.
Qed.

(** C1.  What a paint call stores for the point at angle [a], by the
    distance [deltaBack] of the point behind the normalized head: beyond
    the tail arc and its guard the channels are the base colour times 0;
    up to the tail arc they are the base colour times the specification's
    intensity (floored shape, times the scale, clamped to [0,1]); in the
    guard band between the two, with a fractional falloff power, the stored
    value is NaN and not a clamped intensity. *)
Theorem updateFill_point (ring : RingPoints.T)
  (headAngle intensityScale presenceLevel : R) (mode : ClockColorMode)
  (i c : nat) (a : R) :
  ring_ok ring -> 0 <= intensityScale ->
  RingPoints.angles ring !! i = Some a -> (c < 3)%nat ->
  let tailArc := RingPoints.tailArcOf ring presenceLevel in
  let deltaBack :=
    RingPoints.deltaBackOf (RingPoints.normalizeHead headAngle) a in
  let base := channel c (RingPoints.baseColor ring) in
  let stored :=
    RingPoints.colors
      (RingPoints.updateFill headAngle intensityScale presenceLevel mode ring)
      !! (i * 3 + c)%nat in
  0 < tailArc /\
  0 <= deltaBack < tau /\
  (exists k : Z, deltaBack = headAngle - a + IZR k * tau) /\
  (tailArc + RingPoints.EPS < deltaBack -> stored = Some (Fin (base * 0))) /\
  (deltaBack <= tailArc ->
   stored = Some (Fin (base * paint_spec (RingPoints.falloffPower ring) tailArc
                                intensityScale RingPoints.TAIL_FLOOR deltaBack))) /\
  (tailArc < deltaBack <= tailArc + RingPoints.EPS ->
   ~ JS.is_integer (RingPoints.falloffPower ring) ->
   stored = Some NaN).
Proof.
  intros Hok Hs Hi Hc tailArc deltaBack base stored.
  assert (Ha : 0 <= a < tau).
  { pose proof (ok_angles ring Hok) as HF.
    rewrite Forall_forall in HF. apply HF.
    eapply list_elem_of_lookup_2; eassumption. }
  pose proof (normalizeHead_range headAngle) as Hh.
  pose proof (tailArcOf_bounds ring presenceLevel Hok) as HA.
  fold tailArc in HA.
  assert (HApos : 0 < tailArc) by lra.
  assert (Hstored : stored =
    Some (nmul (Fin base)
            (RingPoints.pointIntensity (RingPoints.falloffPower ring)
               (RingPoints.normalizeHead headAngle) tailArc intensityScale a))).
  { unfold stored. rewrite (updateFill_lookup _ _ _ _ _ i c a (ok_length ring Hok) Hi Hc).
    unfold Rmax. destruct (Rle_dec 0 intensityScale); [reflexivity | lra]. }
  split; [exact HApos |].
  split; [now apply deltaBackOf_range |].
  split; [now apply deltaBackOf_congruent |].
  rewrite Hstored. repeat split.
  - intros Hfar. now rewrite pointIntensity_beyond_guard.
  - intros Hin.
    rewrite pointIntensity_within_arc;
      [reflexivity | assumption .. | apply (ok_falloff ring Hok) | assumption].
  - intros Hband Hfrac. now rewrite pointIntensity_guard_band.
Qed.

Lemma sampleRing_ok : ring_ok sampleRing.
Proof. apply new_ok. unfold color_ok; simpl. lra. Qed.

Lemma sampleRing_first_angle : RingPoints.angles sampleRing !! 0%nat = Some 0.
Proof. simpl. f_equal. lra. Qed.

Lemma updateFill_point_witness :
  RingPoints.colors
    (RingPoints.updateFill (31 / 1000 * tau + 1 / 2000000) 1 0 classic sampleRing)
    !! 0%nat = Some NaN.
Proof.
  pose proof PI_gt_3 as Hpi.
  destruct (updateFill_point sampleRing (31 / 1000 * tau + 1 / 2000000) 1 0
              classic 0 0 0 sampleRing_ok ltac:(lra) sampleRing_first_angle
              ltac:(lia))
    as (_ & _ & _ & _ & _ & Hband).
  apply Hband.
  - rewrite tailArcOf_presence_0 by (simpl; apply clamp_id; lra).
    rewrite normalizeHead_small by (unfold tau; lra).
    rewrite deltaBackOf_cases by (unfold tau; lra).
    unfold RingPoints.EPS, tau. destruct (Rle_dec _ _); lra.
  - simpl. rewrite controller_falloff. apply fractional_183.
Defined.

Lemma paint_spec_range (falloff tailArc s tailFloor deltaBack : R) :
  0 <= paint_spec falloff tailArc s tailFloor deltaBack <= 1.
Proof.
  unfold paint_spec. destruct (Rlt_dec _ _); [lra |].
  apply clamp_range. lra.
Qed.

(** Outside the guard band the intensity of a point is a real of the unit
    interval, and never above the scale. *)
Lemma pointIntensity_outside_band (falloff head tailArc scale angle : R) :
  0 <= head < tau -> 0 <= angle < tau -> 0 < tailArc -> 0 <= scale ->
  0 < falloff ->
  ~ (tailArc < RingPoints.deltaBackOf head angle <= tailArc + RingPoints.EPS) ->
  exists x : R,
    RingPoints.pointIntensity falloff head tailArc scale angle = Fin x /\
    0 <= x <= Rmin 1 scale.
Proof.
  intros Hh Ha HA Hs Hf Hout.
  destruct (Rle_dec (RingPoints.deltaBackOf head angle) tailArc) as [Hin | Hnin].
  - rewrite pointIntensity_within_arc by assumption.
    eexists; split; [reflexivity |].
    pose proof (deltaBackOf_range head angle Hh Ha) as Hd.
    unfold paint_spec. assert (HE : 0 < RingPoints.EPS) by (unfold RingPoints.EPS; lra).
    destruct (Rlt_dec _ _); [lra |].
    set (t := 1 - RingPoints.deltaBackOf head angle / tailArc).
    assert (Ht : 0 <= t <= 1).
    { assert (Hq : 0 <= RingPoints.deltaBackOf head angle / tailArc <= 1).
      { assert (Hinv : 0 < / tailArc) by now apply Rinv_0_lt_compat.
        split; [unfold Rdiv; nra |].
        apply Rmult_le_reg_r with tailArc; [assumption |].
        unfold Rdiv. rewrite Rmult_assoc, Rinv_l by lra. lra. }
      unfold t. lra. }
    pose proof (rpow_unit t falloff Ht Hf) as Hr.
    unfold RingPoints.TAIL_FLOOR, MathUtils.clamp, Rmax, Rmin.
    repeat destruct (Rle_dec _ _); nra.
  - rewrite pointIntensity_beyond_guard by lra.
    eexists; split; [reflexivity |].
    unfold Rmin. destruct (Rle_dec _ _); lra.
Qed.

(** A paint in which no point falls in the guard band leaves only reals of
    the unit interval in the buffer. *)
Lemma updateFill_unit_outside_band (ring : RingPoints.T)
  (headAngle intensityScale presenceLevel : R) (mode : ClockColorMode) :
  ring_ok ring ->
  Forall (fun a =>
            ~ (RingPoints.tailArcOf ring presenceLevel
               < RingPoints.deltaBackOf (RingPoints.normalizeHead headAngle) a
               <= RingPoints.tailArcOf ring presenceLevel + RingPoints.EPS))
    (RingPoints.angles ring) ->
  Forall in_unit
    (RingPoints.colors
       (RingPoints.updateFill headAngle intensityScale presenceLevel mode ring)).
Proof.
  intros Hok Hout. apply Forall_lookup. intros j x Hj.
  pose proof (lookup_lt_Some _ _ _ Hj) as Hlt.
  pose proof (ok_length _ (updateFill_ok ring headAngle intensityScale
                             presenceLevel mode Hok)) as Hlen.
  simpl RingPoints.angles in Hlen. rewrite Hlen in Hlt.
  assert (Hi : (j / 3 < length (RingPoints.angles ring))%nat).
  { apply Nat.Div0.div_lt_upper_bound. lia. }
  destruct (lookup_lt_is_Some_2 _ _ Hi) as [a Ha].
  pose proof (Nat.div_mod_eq j 3) as Hdm.
  assert (Hc : (j mod 3 < 3)%nat) by (apply Nat.mod_upper_bound; lia).
  replace j with (j / 3 * 3 + j mod 3)%nat in Hj by lia.
  rewrite (updateFill_lookup _ _ _ _ _ _ _ a (ok_length ring Hok) Ha Hc) in Hj.
  injection Hj as <-.
  assert (Harange : 0 <= a < tau).
  { pose proof (ok_angles ring Hok) as HF. rewrite Forall_forall in HF.
    apply HF. eapply list_elem_of_lookup_2; eassumption. }
  rewrite Forall_lookup in Hout. specialize (Hout _ _ Ha).
  pose proof (tailArcOf_bounds ring presenceLevel Hok) as HA.
  destruct (pointIntensity_outside_band (RingPoints.falloffPower ring)
              (RingPoints.normalizeHead headAngle)
              (RingPoints.tailArcOf ring presenceLevel)
              (Rmax 0 intensityScale) a
              (normalizeHead_range headAngle) Harange ltac:(lra)
              (Rmax_0_nonneg intensityScale) (ok_falloff ring Hok) Hout)
    as (x & -> & Hx).
  pose proof (ok_base ring Hok (j mod 3)) as Hb.
  assert (Hx1 : x <= 1) by (pose proof (Rmin_l 1 (Rmax 0 intensityScale)); lra).
  unfold nmul, in_unit.
  set (base := channel (j mod 3) (RingPoints.baseColor ring)) in *.
  change (0 <= base * x <= 1). split; nra.
Qed.

(** C3.  The buffer does not stay within [0,1]: the controller as built
    with its defaults, updated once when the wall clock reads 00:22:19.203,
    stores NaN in the first channel of the hour ring, for any base colours.
    The hour head then lies 3 ms of hour-hand travel past the end of the
    minimum tail arc of the point at angle 0, inside the guard band. *)
Theorem update_stores_NaN (palette : ClockSystem.Palette) :
  let c := ClockSystem.new palette defaultConfig in
  let now := {| getHours := 0; getMinutes := 22; getSeconds := 19;
                getMilliseconds := 203 |} in
  let buffer :=
    RingPoints.colors (ClockSystem.hourRing (ClockSystem.update 0 now c)) in
  buffer !! 0%nat = Some NaN /\ ~ Forall in_unit buffer.
Proof.
  intros c now buffer.
  assert (Hnan : buffer !! 0%nat = Some NaN).
  { unfold buffer, ClockSystem.update, ClockSystem.withRings.
    cbn [ClockSystem.hourRing].
    apply first_point_in_guard_band.
    - reflexivity.
    - simpl. f_equal. lra.
    - simpl. apply controller_falloff.
    - simpl. rewrite (clamp_id (31 / 1000)) by lra. apply clamp_id. lra.
    - pose proof PI_gt_3. pose proof PI_4.
      unfold ClockSystem.hourProgress, RingPoints.EPS, tau, now. simpl.
      change (0 mod 12)%Z with 0%Z. lra. }
  split; [exact Hnan |].
  intros HF. rewrite Forall_lookup in HF.
  exact (HF _ _ Hnan).
Qed.

(** C9.  In one paint call the point whose angle is the normalized head
    angle gets an intensity, and channel values, at least those of any other
    point, the points of the guard band aside. *)
Theorem head_point_brightest (ring : RingPoints.T)
  (headAngle intensityScale presenceLevel : R) (mode : ClockColorMode)
  (i j c : nat) (aj : R) :
  ring_ok ring ->
  RingPoints.angles ring !! i = Some (RingPoints.normalizeHead headAngle) ->
  RingPoints.angles ring !! j = Some aj ->
  (c < 3)%nat ->
  ~ (RingPoints.tailArcOf ring presenceLevel
     < RingPoints.deltaBackOf (RingPoints.normalizeHead headAngle) aj
     <= RingPoints.tailArcOf ring presenceLevel + RingPoints.EPS) ->
  let painted :=
    RingPoints.colors
      (RingPoints.updateFill headAngle intensityScale presenceLevel mode ring) in
  let intensityAt :=
    RingPoints.pointIntensity (RingPoints.falloffPower ring)
      (RingPoints.normalizeHead headAngle)
      (RingPoints.tailArcOf ring presenceLevel) (Rmax 0 intensityScale) in
  exists xi xj yi yj : R,
    intensityAt (RingPoints.normalizeHead headAngle) = Fin xi /\
    intensityAt aj = Fin xj /\ xj <= xi /\
    painted !! (i * 3 + c)%nat = Some (Fin yi) /\
    painted !! (j * 3 + c)%nat = Some (Fin yj) /\ yj <= yi.
Proof.
  intros Hok Hi Hj Hc Hout painted intensityAt.
  pose proof (normalizeHead_range headAngle) as Hh.
  pose proof (tailArcOf_bounds ring presenceLevel Hok) as HA.
  assert (Haj : 0 <= aj < tau).
  { pose proof (ok_angles ring Hok) as HF. rewrite Forall_forall in HF.
    apply HF. eapply list_elem_of_lookup_2; eassumption. }
  destruct (pointIntensity_outside_band (RingPoints.falloffPower ring)
              (RingPoints.normalizeHead headAngle)
              (RingPoints.tailArcOf ring presenceLevel)
              (Rmax 0 intensityScale) aj Hh Haj ltac:(lra)
              (Rmax_0_nonneg intensityScale) (ok_falloff ring Hok) Hout)
    as (xj & Hxj & Hxj_range).
  pose proof (ok_base ring Hok c) as Hb.
  exists (Rmin 1 (Rmax 0 intensityScale)), xj,
    (channel c (RingPoints.baseColor ring) * Rmin 1 (Rmax 0 intensityScale)),
    (channel c (RingPoints.baseColor ring) * xj).
  assert (Hhead : intensityAt (RingPoints.normalizeHead headAngle) =
                  Fin (Rmin 1 (Rmax 0 intensityScale))).
  { unfold intensityAt. apply pointIntensity_head; [assumption | lra | reflexivity]. }
  split; [exact Hhead |].
  split; [exact Hxj |].
  split; [lra |].
  unfold painted.
  rewrite (updateFill_lookup _ _ _ _ _ i c _ (ok_length ring Hok) Hi Hc).
  rewrite (updateFill_lookup _ _ _ _ _ j c _ (ok_length ring Hok) Hj Hc).
  unfold intensityAt in Hhead. rewrite Hhead, Hxj. simpl.
  split; [reflexivity |]. split; [reflexivity |]. nra.
Qed.

Lemma head_point_brightest_witness :
  let painted :=
    RingPoints.colors (RingPoints.updateFill 0 1 0 classic sampleRing) in
  exists yi yj : R,
    painted !! 0%nat = Some (Fin yi) /\ painted !! 18%nat = Some (Fin yj) /\
    yj <= yi.
Proof.
  pose proof PI_gt_3 as Hpi. pose proof tau_pos as Ht.
  assert (Hn : RingPoints.normalizeHead 0 = 0) by (apply normalizeHead_small; lra).
  assert (Hi : RingPoints.angles sampleRing !! 0%nat =
               Some (RingPoints.normalizeHead 0)).
  { rewrite Hn. apply sampleRing_first_angle. }
  assert (Hj : RingPoints.angles sampleRing !! 6%nat = Some PI).
  { simpl. f_equal. lra. }
  destruct (head_point_brightest sampleRing 0 1 0 classic 0 6 0 PI
              sampleRing_ok Hi Hj ltac:(lia))
    as (xi & xj & yi & yj & _ & _ & _ & Hyi & Hyj & Hle).
  - rewrite tailArcOf_presence_0 by (simpl; apply clamp_id; lra).
    rewrite Hn, deltaBackOf_cases by (unfold tau; lra).
    unfold RingPoints.EPS, tau. destruct (Rle_dec _ _); lra.
  - exists yi, yj. repeat split; assumption.
Defined.

Lemma setPresenceLevel_clears_overrides_witness :
  let c := ClockSystem.setRingPresenceLevels (1 / 5) (3 / 10) (2 / 5)
             (ClockSystem.new samplePalette defaultConfig) in
  let noon := {| getHours := 12; getMinutes := 0; getSeconds := 0;
                 getMilliseconds := 0 |} in
  let ops := [ClockSystem.OpSetGlobalIntensity 2;
              ClockSystem.OpUpdate 0 noon;
              ClockSystem.OpSetAudioLevels 1 1 1;
              ClockSystem.OpClearRingPresenceOverrides] in
  ~ overridesCleared c /\
  overridesCleared (ClockSystem.setPresenceLevel 2 c) /\
  overridesCleared (ClockSystem.run ops (ClockSystem.setPresenceLevel 2 c)).
Proof.
  intros c noon ops.
  destruct (setPresenceLevel_clears_overrides c 2 0 noon ops eq_refl)
    as (Hnow & _ & _ & _ & Hlater & _).
  split; [| split; assumption].
  intros (H & _). discriminate H.
Defined.

(** The scenario of the specification: windows of 10 s each, linear easing,
    presence one half: the hour stage is gone, the minute stage is half way,
    the second stage is untouched. *)
Example staged_scenario :
  PresenceSystem.getClockPresenceLevels
    (PresenceSystem.setPresenceLevel (1 / 2) 0
       (PresenceSystem.setGatesConfig
          {| PresenceSystem.p_hourFadeSeconds := Some 10;
             PresenceSystem.p_minuteFadeSeconds := Some 10;
             PresenceSystem.p_secondFadeSeconds := Some 10;
             PresenceSystem.p_easePower := Some 0 |}
          (PresenceSystem.new 0))) =
    {| PresenceSystem.hour := Fin 0; PresenceSystem.minute := Fin (1 / 2);
       PresenceSystem.second := Fin 1 |}.
Proof.
  assert (H10 : Rmax (1 / 1000) 10 = 10)
    by (unfold Rmax; destruct (Rle_dec _ _); lra).
  assert (H0 : Rmax 0 0 = 0) by (unfold Rmax; destruct (Rle_dec _ _); lra).
  unfold PresenceSystem.getClockPresenceLevels; simpl.
  rewrite !computeStageValue_spec by (simpl; apply Rmax_0_nonneg); simpl.
  rewrite H10, H0, !(clamp_id (1 / 2)) by lra.
  rewrite (stage_spec_after 0 _ 0 10) by lra.
  rewrite (stage_spec_before 0 _ (10 + 10) 10) by lra.
  rewrite stage_spec_inside by lra.
  rewrite Rplus_0_r, Rpower_1 by lra.
  do 2 f_equal. lra.
Qed.

(** * Further properties *)

(** ** PresenceSystem: reachable states *)

Lemma presence_ok_gates (p : PresenceSystem.T) :
  presence_ok p -> PresenceSystem.gates_ok (PresenceSystem.gates p).
Proof.
  intros (_ & Hh & Hm & Hs & He). unfold PresenceSystem.gates_ok. lra.
Qed.

Lemma presence_ok_new (now : R) : presence_ok (PresenceSystem.new now).
Proof. unfold presence_ok; simpl. lra. Qed.

Lemma presence_ok_setPresenceLevel (v now : R) (p : PresenceSystem.T) :
  presence_ok p -> presence_ok (PresenceSystem.setPresenceLevel v now p).
Proof.
  intros (_ & Hg). split; [| exact Hg]. simpl. apply clamp_range. lra.
Qed.

Lemma presence_ok_setGatesConfig (partial : PresenceSystem.PartialGatesConfig)
  (p : PresenceSystem.T) :
  presence_ok p -> presence_ok (PresenceSystem.setGatesConfig partial p).
Proof.
  intros (Hl & _). split; [exact Hl |]. simpl.
  repeat split; try apply Rmax_l.
Qed.

Lemma presence_ok_handler (e : PresenceHotkeys.KeyboardEvent) (now : R)
  (p : PresenceSystem.T) :
  presence_ok p -> presence_ok (PresenceHotkeys.handler e now p).
Proof.
  intros Hp. unfold PresenceHotkeys.handler, PresenceSystem.nudgePresence.
  destruct (_ || _); [exact Hp |].
  repeat (destruct (String.eqb _ _);
          try apply presence_ok_setPresenceLevel); exact Hp.
Qed.

Lemma presence_ok_step (s : PresenceHotkeys.T) (op : PresenceHotkeys.Op) :
  presence_ok (PresenceHotkeys.sys s) ->
  presence_ok (PresenceHotkeys.sys (PresenceHotkeys.step s op)).
Proof.
  intros Hp. destruct op; simpl.
  - exact Hp.
  - now apply presence_ok_setPresenceLevel.
  - now apply presence_ok_setPresenceLevel.
  - now apply presence_ok_setGatesConfig.
  - unfold PresenceHotkeys.enableDebugHotkeys.
    destruct (PresenceHotkeys.debugKeyHandler s); exact Hp.
  - unfold PresenceHotkeys.disableDebugHotkeys.
    destruct (PresenceHotkeys.debugKeyHandler s); exact Hp.
  - unfold PresenceHotkeys.keydown.
    destruct (PresenceHotkeys.debugKeyHandler s); simpl;
      [now apply presence_ok_handler | exact Hp].
Qed.

Lemma presence_ok_run (ops : list PresenceHotkeys.Op) :
  forall s : PresenceHotkeys.T,
    presence_ok (PresenceHotkeys.sys s) ->
    presence_ok (PresenceHotkeys.sys (PresenceHotkeys.run ops s)).
Proof.
  induction ops as [| op ops IH]; intros s Hs; simpl.
  - exact Hs.
  - apply IH. now apply presence_ok_step.
Qed.

(** X1.  Whatever a host does with a presence system (updates, setting or
    nudging the level, reconfiguring the gates with any partial config,
    installing or removing the hotkeys, key presses), the level stays in
    [0,1], the fade durations stay at least 0.001, the ease power stays
    non-negative, and [getClockPresenceLevels] returns three reals of the
    unit interval. *)
Theorem presence_reachable_in_unit (ops : list PresenceHotkeys.Op) (now : R) :
  let p := PresenceHotkeys.sys
             (PresenceHotkeys.run ops (PresenceHotkeys.new now)) in
  let l := PresenceSystem.getClockPresenceLevels p in
  presence_ok p /\
  in_unit (PresenceSystem.hour l) /\
  in_unit (PresenceSystem.minute l) /\
  in_unit (PresenceSystem.second l).
Proof.
  intros p l.
  assert (Hp : presence_ok p).
  { apply presence_ok_run. apply presence_ok_new. }
  split; [exact Hp |].
  pose proof (presence_ok_gates p Hp) as (_ & _ & _ & He).
  unfold l, PresenceSystem.getClockPresenceLevels; simpl.
  rewrite !computeStageValue_spec by assumption.
  repeat split; apply stage_spec_range.
Qed.

Lemma stage_spec_positive_inside (e p st d : R) :
  0 < d -> 0 < stage_spec e p st d -> p < st + d.
Proof.
  intros Hd Hpos. destruct (Rlt_dec p (st + d)) as [H | H]; [exact H |].
  rewrite stage_spec_after in Hpos by lra. lra.
Qed.

Lemma stage_spec_below_one_started (e p st d : R) :
  0 < d -> stage_spec e p st d < 1 -> st < p.
Proof.
  intros Hd Hlt. destruct (Rlt_dec st p) as [H | H]; [exact H |].
  rewrite stage_spec_before in Hlt by lra. lra.
Qed.

(** X2.  In every reachable state the three stages fade strictly in turn:
    while the hour stage is not fully gone the minute and second stages are
    untouched, while the minute stage is not fully gone the second stage is
    untouched, and a stage that has started fading finds every earlier stage
    at 0.  In particular hour <= minute <= second. *)
Theorem stages_fade_in_turn (ops : list PresenceHotkeys.Op) (now : R) :
  let l := PresenceSystem.getClockPresenceLevels
             (PresenceHotkeys.sys
                (PresenceHotkeys.run ops (PresenceHotkeys.new now))) in
  exists h m s : R,
    PresenceSystem.hour l = Fin h /\
    PresenceSystem.minute l = Fin m /\
    PresenceSystem.second l = Fin s /\
    h <= m <= s /\
    (0 < h -> m = 1 /\ s = 1) /\
    (0 < m -> s = 1) /\
    (m < 1 -> h = 0) /\
    (s < 1 -> h = 0 /\ m = 0).
Proof.
  intros l.
  set (p := PresenceHotkeys.sys
              (PresenceHotkeys.run ops (PresenceHotkeys.new now))) in *.
  assert (Hp : presence_ok p).
  { apply presence_ok_run. apply presence_ok_new. }
  destruct Hp as (Hl & Hh & Hm & Hs & He).
  unfold l, PresenceSystem.getClockPresenceLevels; simpl.
  rewrite !computeStageValue_spec by assumption.
  set (g := PresenceSystem.gates p) in *.
  set (ph := PresenceSystem.hourFadeSeconds g) in *.
  set (pm := PresenceSystem.minuteFadeSeconds g) in *.
  set (ps := PresenceSystem.secondFadeSeconds g) in *.
  set (e := PresenceSystem.easePower g) in *.
  set (x := (1 - MathUtils.clamp (PresenceSystem.level (PresenceSystem.state p)) 0 1)
            * (ph + pm + ps)).
  do 3 eexists. split; [reflexivity |]. split; [reflexivity |].
  split; [reflexivity |].
  pose proof (stage_spec_range e x 0 ph) as Rh.
  pose proof (stage_spec_range e x ph pm) as Rm.
  pose proof (stage_spec_range e x (ph + pm) ps) as Rs.
  assert (A1 : 0 < stage_spec e x 0 ph ->
               stage_spec e x ph pm = 1 /\ stage_spec e x (ph + pm) ps = 1).
  { intros H. apply stage_spec_positive_inside in H; [| lra].
    split; apply stage_spec_before; lra. }
  assert (A2 : 0 < stage_spec e x ph pm -> stage_spec e x (ph + pm) ps = 1).
  { intros H. apply stage_spec_positive_inside in H; [| lra].
    apply stage_spec_before; lra. }
  assert (A3 : stage_spec e x ph pm < 1 -> stage_spec e x 0 ph = 0).
  { intros H. apply stage_spec_below_one_started in H; [| lra].
    apply stage_spec_after; lra. }
  assert (A4 : stage_spec e x (ph + pm) ps < 1 ->
               stage_spec e x 0 ph = 0 /\ stage_spec e x ph pm = 0).
  { intros H. apply stage_spec_below_one_started in H; [| lra].
    split; apply stage_spec_after; lra. }
  repeat split; try assumption.
  - destruct (Rlt_dec 0 (stage_spec e x 0 ph)) as [H | H];
      [destruct (A1 H) as [-> _]; lra | lra].
  - destruct (Rlt_dec 0 (stage_spec e x ph pm)) as [H | H];
      [rewrite (A2 H); lra | lra].
  - apply A1; assumption.
  - apply A1; assumption.
  - apply A4; assumption.
  - apply A4; assumption.
Qed.

Lemma Rmax_absorb (lo x : R) : Rmax lo (Rmax lo x) = Rmax lo x.
Proof. unfold Rmax. repeat destruct (Rle_dec _ _); lra. Qed.

Lemma Rmax_above (lo x : R) : lo <= x -> Rmax lo x = x.
Proof. intros H. unfold Rmax. destruct (Rle_dec _ _); lra. Qed.

(** X3.  Reconfiguring the gates is idempotent: applying the same partial
    config twice stores what applying it once stores, for any partial config
    and any state.  On a reachable state the empty partial config changes
    nothing. *)
Theorem setGatesConfig_idempotent (ops : list PresenceHotkeys.Op) (now : R)
  (partial : PresenceSystem.PartialGatesConfig) (q : PresenceSystem.T) :
  let p := PresenceHotkeys.sys
             (PresenceHotkeys.run ops (PresenceHotkeys.new now)) in
  PresenceSystem.setGatesConfig partial (PresenceSystem.setGatesConfig partial q)
    = PresenceSystem.setGatesConfig partial q /\
  PresenceSystem.setGatesConfig emptyPartial p = p.
Proof.
  intros p. split.
  - destruct q as [st g], partial as [[a |] [b |] [c |] [d |]];
      unfold PresenceSystem.setGatesConfig; simpl;
      rewrite ?Rmax_absorb; reflexivity.
  - assert (Hp : presence_ok p).
    { apply presence_ok_run. apply presence_ok_new. }
    destruct Hp as (_ & Hh & Hm & Hs & He).
    destruct p as [st g]. destruct g as [h m s e]. simpl in *.
    unfold PresenceSystem.setGatesConfig; simpl.
    rewrite !Rmax_above by assumption. reflexivity.
Qed.

(** X4.  Nudging the presence by [d] and back by [- d] restores the level,
    provided the first nudge stays within [0,1]; a first nudge that would
    pass 1 saturates, and the way back then ends below the starting level. *)
Theorem nudgePresence_round_trip (p : PresenceSystem.T) (d now1 now2 : R) :
  0 <= PresenceSystem.getPresenceLevel p <= 1 ->
  let back := PresenceSystem.nudgePresence (- d) now2
                (PresenceSystem.nudgePresence d now1 p) in
  (0 <= PresenceSystem.getPresenceLevel p + d <= 1 ->
   PresenceSystem.getPresenceLevel back = PresenceSystem.getPresenceLevel p) /\
  (1 < PresenceSystem.getPresenceLevel p + d -> d <= 1 ->
   PresenceSystem.getPresenceLevel back = 1 - d /\
   PresenceSystem.getPresenceLevel back < PresenceSystem.getPresenceLevel p).
Proof.
  intros Hl back. unfold back, PresenceSystem.getPresenceLevel in *; simpl.
  split.
  - intros Hin. rewrite (clamp_id (_ + d)) by assumption.
    rewrite clamp_id by lra. lra.
  - intros Hover Hd. rewrite (clamp_above (_ + d)) by lra.
    rewrite clamp_id by lra. lra.
Qed.

Lemma nudgePresence_round_trip_witness :
  let p := PresenceSystem.setPresenceLevel (98 / 100) 0 (PresenceSystem.new 0) in
  let back := PresenceSystem.nudgePresence (- (5 / 100)) 2
                (PresenceSystem.nudgePresence (5 / 100) 1 p) in
  PresenceSystem.getPresenceLevel back = 1 - 5 / 100 /\
  PresenceSystem.getPresenceLevel back < PresenceSystem.getPresenceLevel p.
Proof.
  intros p back.
  assert (Hp : PresenceSystem.getPresenceLevel p = 98 / 100).
  { unfold p, PresenceSystem.getPresenceLevel; simpl. apply clamp_id. lra. }
  assert (Hr : 0 <= PresenceSystem.getPresenceLevel p <= 1) by (rewrite Hp; lra).
  destruct (nudgePresence_round_trip p (5 / 100) 1 2 Hr) as [_ Hsat].
  apply Hsat; rewrite ?Hp; lra.
Defined.

(** ** The controller: reachable states *)

Lemma setThicknessScale_ok (scale : R) (ring : RingPoints.T) :
  ring_ok ring -> ring_ok (RingPoints.setThicknessScale scale ring).
Proof. intros [Hl Ha Hf Hmin Hmax Hb]. constructor; simpl; assumption. Qed.

Lemma knobs_ok_new (palette : ClockSystem.Palette)
  (config : ClockSystem.ClockSystemConfig) :
  knobs_ok (ClockSystem.new palette config).
Proof. constructor; simpl; lra || exact I. Qed.

Lemma rings_ok_new (palette : ClockSystem.Palette)
  (config : ClockSystem.ClockSystemConfig) :
  palette_ok palette ->
  rings_ok (default 12%nat (ClockSystem.pointsPerRing config))
    (ClockSystem.new palette config).
Proof.
  intros (Hh & Hm & Hs).
  constructor; simpl;
    try (apply new_ok; simpl; assumption);
    now rewrite length_map, length_seq.
Qed.

Lemma knobs_ok_step (c : ClockSystem.T) (op : ClockSystem.Op) :
  knobs_ok c -> knobs_ok (ClockSystem.step c op).
Proof.
  intros [Hg Hd Hl Hm Hh Hp Ho1 Ho2 Ho3].
  destruct op; constructor; simpl; try assumption; try exact I;
    try apply Rmax_0_nonneg; apply clamp_range; lra.
Qed.

Lemma rings_ok_step (n : nat) (c : ClockSystem.T) (op : ClockSystem.Op) :
  rings_ok n c -> rings_ok n (ClockSystem.step c op).
Proof.
  intros [Hh Hm Hs Lh Lm Ls].
  destruct op; constructor; simpl; try assumption;
    try (apply setThicknessScale_ok; assumption);
    apply updateFill_ok; assumption.
Qed.

(** X5.  With base colours in [0,1], every state the controller reaches
    from its constructor, under any sequence of its public operations, has
    well-formed rings (three buffer entries per point, angles in
    [[0, tau)], tail fractions in [0,1]) of [n], [5 n] and [30 n] points for
    [n = pointsPerRing] (12 by default), non-negative intensity and distance
    factor, and audio levels, presence level and overrides in [0,1]. *)
Theorem controller_reachable_ok (palette : ClockSystem.Palette)
  (config : ClockSystem.ClockSystemConfig) (ops : list ClockSystem.Op) :
  palette_ok palette ->
  let c := ClockSystem.run ops (ClockSystem.new palette config) in
  rings_ok (default 12%nat (ClockSystem.pointsPerRing config)) c /\ knobs_ok c.
Proof.
  intros Hpal. cbv zeta.
  pose proof (rings_ok_new palette config Hpal) as Hr.
  pose proof (knobs_ok_new palette config) as Hk.
  revert Hr Hk. generalize (ClockSystem.new palette config) as c.
  induction ops as [| op ops IH]; intros c Hr Hk; simpl.
  - split; assumption.
  - apply IH; [now apply rings_ok_step | now apply knobs_ok_step].
Qed.

Lemma samplePalette_ok : palette_ok samplePalette.
Proof. unfold palette_ok, color_ok, samplePalette; simpl. lra. Qed.

Lemma controller_reachable_ok_witness :
  let noon := {| getHours := 12; getMinutes := 0; getSeconds := 0;
                 getMilliseconds := 0 |} in
  let c := ClockSystem.run
             [ClockSystem.OpSetGlobalIntensity (-3);
              ClockSystem.OpSetRingPresenceLevels 2 (1 / 2) (-1);
              ClockSystem.OpUpdate 0 noon]
             (ClockSystem.new samplePalette defaultConfig) in
  rings_ok 12 c /\ knobs_ok c.
Proof.
  intros noon c.
  exact (controller_reachable_ok samplePalette defaultConfig _ samplePalette_ok).
Defined.

(** ** Painting: the whole buffer *)

Lemma paintPoint_app (base : Color) (x : number) (i : nat)
  (pre rest : list number) (x0 x1 x2 : number) :
  length pre = (i * 3)%nat ->
  RingPoints.paintPoint base x i (pre ++ x0 :: x1 :: x2 :: rest) =
    (pre ++ [nmul (Fin (r base)) x; nmul (Fin (g base)) x; nmul (Fin (b base)) x])
    ++ rest.
Proof.
  intros Hlen. unfold RingPoints.paintPoint.
  rewrite (insert_app_r_alt pre _ (i * 3)) by lia.
  rewrite (insert_app_r_alt pre _ (i * 3 + 1)) by lia.
  rewrite (insert_app_r_alt pre _ (i * 3 + 2)) by lia.
  replace (i * 3 - length pre)%nat with 0%nat by lia.
  replace (i * 3 + 1 - length pre)%nat with 1%nat by lia.
  replace (i * 3 + 2 - length pre)%nat with 2%nat by lia.
  simpl. now rewrite <- app_assoc.
Qed.

Lemma fillLoop_paints (intensityAt : R -> number) (base : Color) (angles : list R) :
  forall (i : nat) (pre rest : list number),
    length pre = (i * 3)%nat ->
    length rest = (length angles * 3)%nat ->
    RingPoints.fillLoop intensityAt base i angles (pre ++ rest) =
      pre ++ paintedBuffer intensityAt base angles.
Proof.
  induction angles as [| a angles IH]; intros i pre rest Hpre Hrest; simpl in *.
  - destruct rest; [reflexivity | discriminate].
  - destruct rest as [| x0 [| x1 [| x2 rest]]]; try discriminate.
    rewrite paintPoint_app by assumption.
    rewrite IH.
    + now rewrite <- app_assoc.
    + rewrite length_app. simpl. lia.
    + simpl in Hrest. lia.
Qed.

(** X6.  A paint rewrites the whole buffer: afterwards it holds, for each
    point in turn, the three channels of the base colour times that point's
    intensity, whatever it held before.  So a paint erases the previous one,
    and painting twice with the same arguments is painting once. *)
Theorem updateFill_overwrites (ring : RingPoints.T)
  (headAngle intensityScale presenceLevel : R) (mode : ClockColorMode)
  (headAngle' intensityScale' presenceLevel' : R) (mode' : ClockColorMode) :
  length (RingPoints.colors ring) = (length (RingPoints.angles ring) * 3)%nat ->
  RingPoints.colors
    (RingPoints.updateFill headAngle intensityScale presenceLevel mode ring) =
    paintedBuffer
      (RingPoints.pointIntensity (RingPoints.falloffPower ring)
         (RingPoints.normalizeHead headAngle)
         (RingPoints.tailArcOf ring presenceLevel) (Rmax 0 intensityScale))
      (RingPoints.baseColor ring) (RingPoints.angles ring) /\
  RingPoints.updateFill headAngle intensityScale presenceLevel mode
    (RingPoints.updateFill headAngle' intensityScale' presenceLevel' mode' ring) =
  RingPoints.updateFill headAngle intensityScale presenceLevel mode ring.
Proof.
  intros Hlen.
  assert (Hpaint : forall (f : R -> number) (colors : list number),
             length colors = (length (RingPoints.angles ring) * 3)%nat ->
             RingPoints.fillLoop f (RingPoints.baseColor ring) 0
               (RingPoints.angles ring) colors =
             paintedBuffer f (RingPoints.baseColor ring) (RingPoints.angles ring)).
  { intros f colors Hc.
    apply (fillLoop_paints f _ _ 0%nat [] colors); [reflexivity | exact Hc]. }
  split.
  - unfold RingPoints.updateFill; simpl. now apply Hpaint.
  - unfold RingPoints.updateFill; simpl. f_equal.
    rewrite (Hpaint _ (RingPoints.fillLoop _ _ _ _ _))
      by (now rewrite fillLoop_length).
    unfold RingPoints.tailArcOf.
    cbn [RingPoints.minTailLengthFraction RingPoints.maxTailLengthFraction].
    rewrite (Hpaint _ (RingPoints.colors ring)) by assumption.
    reflexivity.
Qed.

Lemma updateFill_overwrites_witness :
  RingPoints.updateFill 1 1 (1 / 2) classic
    (RingPoints.updateFill 4 7 0 vinyl sampleRing) =
  RingPoints.updateFill 1 1 (1 / 2) classic sampleRing.
Proof.
  apply (updateFill_overwrites sampleRing 1 1 (1 / 2) classic 4 7 0 vinyl).
  apply (ok_length _ sampleRing_ok).
Defined.

(** X7.  The tail arc of a paint is never shorter than 0.0001 rad (so the
    division by it is defined) and never longer than the full circle; when
    the minimum fraction does not exceed the maximum one it grows with the
    presence, from the minimum arc at presence 0 or below to the maximum arc
    at presence 1 or above. *)
Theorem tailArc_bounded_monotone (ring : RingPoints.T) (p1 p2 : R) :
  ring_ok ring ->
  RingPoints.minTailLengthFraction ring <= RingPoints.maxTailLengthFraction ring ->
  p1 <= p2 ->
  let minArc := Rmax (RingPoints.minTailLengthFraction ring * tau) (1 / 10000) in
  let maxArc := Rmax (RingPoints.maxTailLengthFraction ring * tau) (1 / 10000) in
  1 / 10000 <= RingPoints.tailArcOf ring p1 /\
  RingPoints.tailArcOf ring p1 <= RingPoints.tailArcOf ring p2 /\
  RingPoints.tailArcOf ring p2 <= tau /\
  (p1 <= 0 -> RingPoints.tailArcOf ring p1 = minArc) /\
  (1 <= p2 -> RingPoints.tailArcOf ring p2 = maxArc).
Proof.
  intros Hok Hmm Hp minArc maxArc.
  pose proof (tailArcOf_bounds ring p1 Hok) as [H1 _].
  pose proof (tailArcOf_bounds ring p2 Hok) as [_ H2].
  split; [exact H1 |]. split; [| split; [exact H2 |]].
  - unfold RingPoints.tailArcOf, MathUtils.lerp. fold minArc maxArc.
    pose proof (clamp_mono p1 p2 0 1 Hp) as Hc.
    pose proof (clamp_range p1 0 1 ltac:(lra)) as Hr1.
    pose proof (clamp_range p2 0 1 ltac:(lra)) as Hr2.
    assert (Harc : minArc <= maxArc).
    { pose proof tau_pos. unfold minArc, maxArc.
      apply Rle_max_compat_r. nra. }
    nra.
  - split; intros Hedge; unfold RingPoints.tailArcOf, MathUtils.lerp;
      fold minArc maxArc.
    + destruct (Req_dec_T p1 0) as [-> | Hne].
      * rewrite clamp_id by lra. lra.
      * rewrite clamp_below by lra. lra.
    + destruct (Req_dec_T p2 1) as [-> | Hne].
      * rewrite clamp_id by lra. lra.
      * rewrite clamp_above by lra. lra.
Qed.

Lemma tailArc_bounded_monotone_witness :
  1 / 10000 <= RingPoints.tailArcOf sampleRing 0 /\
  RingPoints.tailArcOf sampleRing 0 <= RingPoints.tailArcOf sampleRing 1 /\
  RingPoints.tailArcOf sampleRing 1 <= tau.
Proof.
  assert (Hmm : RingPoints.minTailLengthFraction sampleRing
                <= RingPoints.maxTailLengthFraction sampleRing).
  { simpl. rewrite !clamp_id by lra. lra. }
  destruct (tailArc_bounded_monotone sampleRing 0 1 sampleRing_ok Hmm ltac:(lra))
    as (H1 & H2 & H3 & _).
  repeat split; assumption.
Defined.

(** ** Minute and second heads *)

Lemma ratio_unit (z n : Z) :
  (0 <= z < n)%Z -> 0 <= IZR z / IZR n < 1.
Proof.
  intros [Hlo Hhi].
  assert (Hn : 0 < IZR n) by (apply IZR_lt; lia).
  apply IZR_le in Hlo. apply IZR_lt in Hhi.
  apply quotient_bounds; lra.
Qed.

Lemma msOfDay_mod_hour (now : WallClock) :
  wellFormed now ->
  (msOfDay now mod 3600000 =
   getMinutes now * 60000 + getSeconds now * 1000 + getMilliseconds now)%Z.
Proof.
  intros (Hh & Hm & Hs & Hms). unfold msOfDay.
  symmetry. apply Z.mod_unique with (q := getHours now); lia.
Qed.

Lemma msOfDay_mod_minute (now : WallClock) :
  wellFormed now ->
  (msOfDay now mod 60000 = getSeconds now * 1000 + getMilliseconds now)%Z.
Proof.
  intros (Hh & Hm & Hs & Hms). unfold msOfDay.
  symmetry.
  apply Z.mod_unique with (q := (getHours now * 60 + getMinutes now)%Z); lia.
Qed.

Lemma progress_angle_normalized (x : R) :
  0 <= x < 1 -> RingPoints.normalizeHead (x * tau) = x * tau.
Proof.
  intros Hx. pose proof tau_pos. apply normalizeHead_small. split; nra.
Qed.

(** X8.  For a well-formed clock reading the minute progress is the elapsed
    part of the current hour and the second progress the elapsed part of the
    current minute, in milliseconds; the three progress fractions lie in
    [[0, 1)], so the three head angles passed to the rings are already
    normalized. *)
Theorem head_angles_normalized (now : WallClock) :
  wellFormed now ->
  ClockSystem.minuteProgress now = IZR (msOfDay now mod 3600000) / 3600000 /\
  ClockSystem.secondProgress now = IZR (msOfDay now mod 60000) / 60000 /\
  0 <= ClockSystem.minuteProgress now < 1 /\
  0 <= ClockSystem.secondProgress now < 1 /\
  RingPoints.normalizeHead (ClockSystem.hourProgress now * tau)
    = ClockSystem.hourProgress now * tau /\
  RingPoints.normalizeHead (ClockSystem.minuteProgress now * tau)
    = ClockSystem.minuteProgress now * tau /\
  RingPoints.normalizeHead (ClockSystem.secondProgress now * tau)
    = ClockSystem.secondProgress now * tau.
Proof.
  intros Hwf.
  assert (Hm : ClockSystem.minuteProgress now
               = IZR (msOfDay now mod 3600000) / 3600000).
  { rewrite msOfDay_mod_hour by assumption.
    unfold ClockSystem.minuteProgress. rewrite !plus_IZR, !mult_IZR. field. }
  assert (Hs : ClockSystem.secondProgress now
               = IZR (msOfDay now mod 60000) / 60000).
  { rewrite msOfDay_mod_minute by assumption.
    unfold ClockSystem.secondProgress. rewrite !plus_IZR, !mult_IZR. field. }
  assert (Rh : 0 <= ClockSystem.hourProgress now < 1).
  { rewrite hourProgress_linear by assumption.
    apply ratio_unit. apply Z.mod_pos_bound. unfold halfDayMs. lia. }
  assert (Rm : 0 <= ClockSystem.minuteProgress now < 1).
  { rewrite Hm. apply (ratio_unit _ 3600000). apply Z.mod_pos_bound. lia. }
  assert (Rs : 0 <= ClockSystem.secondProgress now < 1).
  { rewrite Hs. apply (ratio_unit _ 60000). apply Z.mod_pos_bound. lia. }
  repeat split; try assumption; try apply Rm; try apply Rs;
    now apply progress_angle_normalized.
Qed.

Lemma head_angles_normalized_witness :
  let now := {| getHours := 23; getMinutes := 59; getSeconds := 59;
                getMilliseconds := 999 |} in
  0 <= ClockSystem.minuteProgress now < 1 /\
  0 <= ClockSystem.secondProgress now < 1.
Proof.
  intros now.
  assert (Hwf : wellFormed now) by (unfold wellFormed, now; simpl; lia).
  destruct (head_angles_normalized now Hwf) as (_ & _ & Hm & Hs & _).
  split; assumption.
Defined.

(** ** The first revision's filled arc *)

Lemma paintedBuffer_in_unit (f : R -> number) (base : Color) (angles : list R) :
  (forall c : nat, 0 <= channel c base <= 1) ->
  Forall (fun a => in_unit (f a)) angles ->
  Forall in_unit (paintedBuffer f base angles).
Proof.
  intros Hb HF. induction HF as [| a angles Ha _ IH]; simpl.
  - constructor.
  - pose proof (Hb 0%nat) as H0. pose proof (Hb 1%nat) as H1.
    pose proof (Hb 2%nat) as H2. simpl in H0, H1, H2.
    destruct (f a) as [| x]; [contradiction |]. simpl in Ha.
    do 3 (apply List.Forall_cons; [simpl; split; nra |]). exact IH.
Qed.

Lemma fillArcOf_pos (fillFraction : R) :
  1 / 10000 <= RingPointsP03.fillArcOf fillFraction.
Proof. unfold RingPointsP03.fillArcOf. apply Rmax_r. Qed.

Lemma pointIntensityP03_unit (falloff head fillArc angle : R) :
  0 <= head < tau -> 0 <= angle < tau -> 0 < falloff -> 0 < fillArc ->
  in_unit (RingPointsP03.pointIntensity falloff head fillArc angle).
Proof.
  intros Hh Ha Hf HA. unfold RingPointsP03.pointIntensity.
  destruct (Rle_dec 0 _) as [H0 | H0]; [| simpl; lra].
  destruct (Rle_dec _ fillArc) as [H1 | H1]; [| simpl; lra].
  set (d := RingPoints.deltaBackOf head angle) in *.
  assert (Ht : 0 <= 1 - d / fillArc <= 1).
  { assert (Hq : 0 <= d / fillArc <= 1).
    { assert (Hinv : 0 < / fillArc) by now apply Rinv_0_lt_compat.
      split; [unfold Rdiv; nra |].
      apply Rmult_le_reg_r with fillArc; [assumption |].
      unfold Rdiv. rewrite Rmult_assoc, Rinv_l by lra. lra. }
    lra. }
  rewrite Math_pow_rpow by lra. simpl. now apply rpow_unit.
Qed.

Lemma newP03_ok (config : RingPointsP03.RingPointsConfig) :
  color_ok (RingPointsP03.cfg_baseColor config) ->
  ringP03_ok (RingPointsP03.new config).
Proof.
  intros Hcol. constructor; simpl.
  - now rewrite length_replicate, length_map, length_seq.
  - apply Forall_forall. intros a Ha.
    apply list_elem_of_In, in_map_iff in Ha as (i & <- & Hi).
    apply in_seq in Hi. apply new_angle_range. lia.
  - unfold MathUtils.lerp.
    pose proof (clamp_range (RingPointsP03.falloffFactor config) 0 1 ltac:(lra)).
    nra.
  - intros c. now apply channel_ok.
Qed.

Lemma sampleRingP03_ok : ringP03_ok sampleRingP03.
Proof. apply newP03_ok. unfold color_ok; simpl. lra. Qed.

(** X9.  The first revision of the paint, which has no guard band, keeps
    its promise for every head angle and fill fraction: on a well-formed
    ring with base colours in [0,1] the buffer holds only reals of [0,1]
    afterwards, and the ring stays well formed. *)
Theorem updateFillP03_in_unit (ring : RingPointsP03.T)
  (headAngle fillFraction : R) :
  ringP03_ok ring ->
  Forall in_unit
    (RingPointsP03.colors (RingPointsP03.updateFill headAngle fillFraction ring)) /\
  ringP03_ok (RingPointsP03.updateFill headAngle fillFraction ring).
Proof.
  intros [Hl Ha Hf Hb].
  assert (Hcolors :
    RingPointsP03.colors (RingPointsP03.updateFill headAngle fillFraction ring) =
    paintedBuffer
      (RingPointsP03.pointIntensity (RingPointsP03.falloffPower ring)
         (RingPoints.normalizeHead headAngle)
         (RingPointsP03.fillArcOf fillFraction))
      (RingPointsP03.baseColor ring) (RingPointsP03.angles ring)).
  { unfold RingPointsP03.updateFill; simpl.
    apply (fillLoop_paints _ _ _ 0%nat [] (RingPointsP03.colors ring));
      [reflexivity | exact Hl]. }
  split.
  - rewrite Hcolors. apply paintedBuffer_in_unit; [exact Hb |].
    eapply Forall_impl; [exact Ha |]. intros a Harange. simpl.
    apply pointIntensityP03_unit; try assumption.
    + apply normalizeHead_range.
    + pose proof (fillArcOf_pos fillFraction). lra.
  - constructor; simpl; try assumption.
    now rewrite fillLoop_length.
Qed.

Lemma updateFillP03_in_unit_witness :
  Forall in_unit
    (RingPointsP03.colors (RingPointsP03.updateFill (- 7) (3 / 2) sampleRingP03)).
Proof.
  exact (proj1 (updateFillP03_in_unit sampleRingP03 (- 7) (3 / 2) sampleRingP03_ok)).
Defined.

(** X10.  Driven as the first revision's [update] drives it (head angle
    [progress * tau], fill fraction [progress], with the arc at least the
    0.0001 rad floor), the ring is lit from 12 o'clock up to the head and
    dark after it: a point at angle [a] gets the base colour times
    [(a / head) ^ falloffPower] when [a <= head], and times 0 otherwise. *)
Theorem updateFillP03_fills_from_twelve (ring : RingPointsP03.T)
  (progress : R) (i c : nat) (a : R) :
  ringP03_ok ring ->
  0 <= progress < 1 -> 1 / 10000 <= progress * tau ->
  RingPointsP03.angles ring !! i = Some a -> (c < 3)%nat ->
  let head := progress * tau in
  RingPointsP03.colors (RingPointsP03.updateFill head progress ring)
    !! (i * 3 + c)%nat =
  Some (Fin (channel c (RingPointsP03.baseColor ring)
             * (if Rle_dec a head
                then rpow (a / head) (RingPointsP03.falloffPower ring)
                else 0))).
Proof.
  intros [Hl Ha Hf Hb] Hp Harc Hi Hc head.
  fold head in Harc. pose proof tau_pos as Ht.
  assert (Harange : 0 <= a < tau).
  { rewrite Forall_forall in Ha. apply Ha.
    eapply list_elem_of_lookup_2; eassumption. }
  assert (Hhead : 0 <= head < tau) by (unfold head; split; nra).
  unfold RingPointsP03.updateFill; simpl.
  rewrite (fillLoop_lookup _ _ _ 0%nat i c a) by (assumption || simpl; lia).
  f_equal.
  rewrite normalizeHead_small by assumption.
  assert (Hfill : RingPointsP03.fillArcOf progress = head).
  { unfold RingPointsP03.fillArcOf. rewrite clamp_id by lra.
    fold head. unfold Rmax. destruct (Rle_dec _ _); lra. }
  rewrite Hfill. unfold RingPointsP03.pointIntensity.
  rewrite deltaBackOf_cases by assumption.
  destruct (Rle_dec a head) as [Hle | Hgt].
  - destruct (Rle_dec 0 (head - a)); [| lra].
    destruct (Rle_dec (head - a) head); [| lra].
    replace (1 - (head - a) / head) with (a / head) by (field; lra).
    rewrite Math_pow_rpow; [reflexivity | | assumption].
    apply (quotient_bounds a head 0 2); lra.
  - destruct (Rle_dec 0 (head - a + tau)); [| lra].
    destruct (Rle_dec (head - a + tau) head); [lra |].
    reflexivity.
Qed.

Lemma updateFillP03_fills_from_twelve_witness :
  RingPointsP03.colors
    (RingPointsP03.updateFill (1 / 2 * tau) (1 / 2) sampleRingP03) !! 0%nat =
  Some (Fin (26 / 255
             * (if Rle_dec 0 (1 / 2 * tau)
                then rpow (0 / (1 / 2 * tau))
                       (RingPointsP03.falloffPower sampleRingP03)
                else 0))).
Proof.
  pose proof PI_gt_3 as Hpi.
  assert (Hang : RingPointsP03.angles sampleRingP03 !! 0%nat = Some 0).
  { simpl. f_equal. lra. }
  apply (updateFillP03_fills_from_twelve sampleRingP03 (1 / 2) 0 0 0
           sampleRingP03_ok).
  - lra.
  - unfold tau. lra.
  - exact Hang.
  - lia.
Defined.

(** ** The core's frame *)

Lemma realLevels_staged (p : PresenceSystem.T) :
  presence_ok p ->
  exists h m s : R,
    CoreSystem.realLevels (PresenceSystem.getClockPresenceLevels p) = Some (h, m, s) /\
    PresenceSystem.getClockPresenceLevels p =
      {| PresenceSystem.hour := Fin h; PresenceSystem.minute := Fin m;
         PresenceSystem.second := Fin s |} /\
    0 <= h <= 1 /\ 0 <= m <= 1 /\ 0 <= s <= 1.
Proof.
  intros Hp. pose proof (presence_ok_gates p Hp) as (_ & _ & _ & He).
  unfold PresenceSystem.getClockPresenceLevels, CoreSystem.realLevels; simpl.
  rewrite !computeStageValue_spec by assumption.
  do 3 eexists. split; [reflexivity |]. split; [reflexivity |].
  repeat split; apply stage_spec_range.
Qed.

(** X11.  One frame of the core, on a presence system in a reachable state:
    the frame completes, and each ring is painted with the staged level of
    the presence system for that ring (a real of [0,1]) as its presence.
    The clock's own presence level plays no part: setting it to any value
    before the frame leaves the three painted rings the same. *)
Theorem core_frame_paints_staged_levels (core : CoreSystem.T)
  (dt perfNow v : R) (wall : WallClock) :
  presence_ok (PresenceHotkeys.sys (CoreSystem.presence core)) ->
  let c := CoreSystem.clock core in
  let base := ClockSystem.globalIntensity c * ClockSystem.distanceFactor c in
  let core_v :=
    {| CoreSystem.clock := ClockSystem.setPresenceLevel v c;
       CoreSystem.presence := CoreSystem.presence core;
       CoreSystem.phase := CoreSystem.phase core;
       CoreSystem.shrinkLevel := CoreSystem.shrinkLevel core;
       CoreSystem.scale := CoreSystem.scale core |} in
  exists (h m s : R) (core' core_v' : CoreSystem.T),
    PresenceSystem.getClockPresenceLevels
      (PresenceHotkeys.sys (CoreSystem.presence core)) =
      {| PresenceSystem.hour := Fin h; PresenceSystem.minute := Fin m;
         PresenceSystem.second := Fin s |} /\
    (0 <= h <= 1 /\ 0 <= m <= 1 /\ 0 <= s <= 1) /\
    CoreSystem.update dt perfNow wall core = Some core' /\
    ClockSystem.hourRing (CoreSystem.clock core') =
      RingPoints.updateFill (ClockSystem.hourProgress wall * tau)
        (base * (1 + ClockSystem.audioLow c * (6 / 10))) h
        (ClockSystem.colorMode c) (ClockSystem.hourRing c) /\
    ClockSystem.minuteRing (CoreSystem.clock core') =
      RingPoints.updateFill (ClockSystem.minuteProgress wall * tau)
        (base * (1 + ClockSystem.audioMid c * (6 / 10))) m
        (ClockSystem.colorMode c) (ClockSystem.minuteRing c) /\
    ClockSystem.secondRing (CoreSystem.clock core') =
      RingPoints.updateFill (ClockSystem.secondProgress wall * tau)
        (base * (1 + ClockSystem.audioHigh c * (6 / 10))) s
        (ClockSystem.colorMode c) (ClockSystem.secondRing c) /\
    CoreSystem.update dt perfNow wall core_v = Some core_v' /\
    ClockSystem.hourRing (CoreSystem.clock core_v')
      = ClockSystem.hourRing (CoreSystem.clock core') /\
    ClockSystem.minuteRing (CoreSystem.clock core_v')
      = ClockSystem.minuteRing (CoreSystem.clock core') /\
    ClockSystem.secondRing (CoreSystem.clock core_v')
      = ClockSystem.secondRing (CoreSystem.clock core').
Proof.
  intros Hp c base core_v.
  destruct (realLevels_staged _ Hp) as (h & m & s & Hreal & Hlev & Hh & Hm & Hs).
  assert (Hreal' :
    CoreSystem.realLevels
      (PresenceSystem.getClockPresenceLevels
         (PresenceHotkeys.sys
            (PresenceHotkeys.onSys (PresenceSystem.update dt perfNow)
               (CoreSystem.presence core)))) = Some (h, m, s)) by exact Hreal.
  exists h, m, s. eexists. eexists.
  split; [exact Hlev |]. split; [auto |].
  unfold CoreSystem.update. cbn [CoreSystem.presence CoreSystem.clock core_v].
  rewrite Hreal'.
  split; [reflexivity |].
  cbn [CoreSystem.clock].
  unfold ClockSystem.update, ClockSystem.withRings.
  cbn [ClockSystem.hourRing ClockSystem.minuteRing ClockSystem.secondRing].
  unfold ClockSystem.pHour, ClockSystem.pMinute, ClockSystem.pSecond; simpl.
  rewrite !(clamp_id h), !(clamp_id m), !(clamp_id s) by assumption.
  repeat split; reflexivity.
Qed.

Lemma core_frame_paints_staged_levels_witness :
  let noon := {| getHours := 12; getMinutes := 0; getSeconds := 0;
                 getMilliseconds := 0 |} in
  exists core' : CoreSystem.T,
    CoreSystem.update (1 / 60) 16 noon (CoreSystem.new samplePalette 0) = Some core'.
Proof.
  intros noon.
  destruct (core_frame_paints_staged_levels (CoreSystem.new samplePalette 0)
              (1 / 60) 16 1 noon (presence_ok_new 0))
    as (h & m & s & core' & _ & _ & _ & Hupd & _).
  exists core'. exact Hupd.
Defined.

(** X12.  The shrink level is clamped to [0,1] and mapped to a scale that
    falls from 1 at level 0 (or below) to 0.3 at level 1 (or above), never
    leaving [0.3, 1] and never growing with the level. *)
Theorem setShrinkLevel_scale (core : CoreSystem.T) (l1 l2 : R) :
  l1 <= l2 ->
  let s1 := CoreSystem.scale (CoreSystem.setShrinkLevel l1 core) in
  let s2 := CoreSystem.scale (CoreSystem.setShrinkLevel l2 core) in
  3 / 10 <= s2 /\ s2 <= s1 /\ s1 <= 1 /\
  (l1 <= 0 -> s1 = 1) /\ (1 <= l2 -> s2 = 3 / 10) /\
  0 <= CoreSystem.shrinkLevel (CoreSystem.setShrinkLevel l1 core) <= 1.
Proof.
  intros Hl s1 s2. unfold s1, s2; simpl.
  pose proof (clamp_range l1 0 1 ltac:(lra)) as H1.
  pose proof (clamp_range l2 0 1 ltac:(lra)) as H2.
  pose proof (clamp_mono l1 l2 0 1 Hl) as Hm.
  repeat split; try lra.
  - intros H0. destruct (Req_dec_T l1 0) as [-> | Hne].
    + rewrite clamp_id by lra. lra.
    + rewrite clamp_below by lra. lra.
  - intros H0. destruct (Req_dec_T l2 1) as [-> | Hne].
    + rewrite clamp_id by lra. lra.
    + rewrite clamp_above by lra. lra.
Qed.

Lemma setShrinkLevel_scale_witness :
  let core := CoreSystem.new samplePalette 0 in
  CoreSystem.scale (CoreSystem.setShrinkLevel (-2) core) = 1 /\
  CoreSystem.scale (CoreSystem.setShrinkLevel 5 core) = 3 / 10.
Proof.
  intros core.
  destruct (setShrinkLevel_scale core (-2) 5 ltac:(lra))
    as (_ & _ & _ & Hlo & Hhi & _).
  split; [apply Hlo | apply Hhi]; lra.
Defined.

(** ** The scene's distance factor *)

(** X13.  The brightness factor the scene derives from the camera distance
    is 1.2 up to distance 6, 0.35 from distance 40 on, never outside
    [[0.35, 1.2]] and never growing with the distance; it is what the clock
    holds as its distance factor after the scene's clock update, for any
    camera position. *)
Theorem distanceFactor_bounds (d1 d2 delta : R) (position : Vector3)
  (now : WallClock) (clock : ClockSystem.T) :
  d1 <= d2 ->
  35 / 100 <= DemoScene.distanceFactorOf d2 /\
  DemoScene.distanceFactorOf d2 <= DemoScene.distanceFactorOf d1 /\
  DemoScene.distanceFactorOf d1 <= 12 / 10 /\
  (d1 <= 6 -> DemoScene.distanceFactorOf d1 = 12 / 10) /\
  (40 <= d2 -> DemoScene.distanceFactorOf d2 = 35 / 100) /\
  ClockSystem.distanceFactor (DemoScene.updateClock position delta now clock)
    = DemoScene.distanceFactorOf (vlength position).
Proof.
  intros Hd. unfold DemoScene.distanceFactorOf, MathUtils.lerp.
  set (t := fun d : R => MathUtils.clamp ((d - 6) / (40 - 6)) 0 1).
  change (MathUtils.clamp ((d1 - 6) / (40 - 6)) 0 1) with (t d1).
  change (MathUtils.clamp ((d2 - 6) / (40 - 6)) 0 1) with (t d2).
  assert (Hr : forall d, 0 <= t d <= 1) by (intros d; apply clamp_range; lra).
  assert (Hmono : t d1 <= t d2) by (apply clamp_mono; lra).
  pose proof (Hr d1) as R1. pose proof (Hr d2) as R2.
  repeat split; try lra.
  - intros H6. assert (Ht : t d1 = 0); [| rewrite Ht; lra].
    unfold t, MathUtils.clamp, Rmax, Rmin.
    repeat destruct (Rle_dec _ _); lra.
  - intros H40. assert (Ht : t d2 = 1); [| rewrite Ht; lra].
    unfold t, MathUtils.clamp, Rmax, Rmin.
    repeat destruct (Rle_dec _ _); lra.
  - simpl. apply Rmax_above.
    change (MathUtils.clamp ((vlength position - 6) / (40 - 6)) 0 1)
      with (t (vlength position)).
    pose proof (Hr (vlength position)). lra.
Qed.

Lemma distanceFactor_bounds_witness :
  DemoScene.distanceFactorOf 3 = 12 / 10 /\
  DemoScene.distanceFactorOf 100 = 35 / 100.
Proof.
  destruct (distanceFactor_bounds 3 100 0 {| vx := 0; vy := 0; vz := 0 |}
              {| getHours := 0; getMinutes := 0; getSeconds := 0;
                 getMilliseconds := 0 |}
              (ClockSystem.new samplePalette defaultConfig) ltac:(lra))
    as (_ & _ & _ & Hnear & Hfar & _).
  split; [apply Hnear | apply Hfar]; lra.
Defined.

(** ** RegionSystem: angles *)

Lemma whileAbove_spec (fuel : nat) :
  forall d : R,
    d <= PI + INR fuel * tau ->
    RegionSystem.whileAbove fuel d <= PI /\
    exists k : nat,
      RegionSystem.whileAbove fuel d = d - INR k * tau /\
      (k = 0%nat \/ - PI < RegionSystem.whileAbove fuel d).
Proof.
  induction fuel as [| fuel IH]; intros d Hd.
  - simpl in *. split; [lra |]. exists 0%nat. simpl. split; [lra | now left].
  - rewrite S_INR in Hd. simpl RegionSystem.whileAbove.
    destruct (Rlt_dec PI d) as [Hgt | Hle].
    + destruct (IH (d - PI * 2)) as (Hr & k & Hk & Hlow).
      { unfold tau in *. lra. }
      split; [exact Hr |]. exists (S k). rewrite S_INR. split.
      * rewrite Hk. unfold tau. lra.
      * right. destruct Hlow as [-> | Hlow]; [| exact Hlow].
        rewrite Hk. simpl. lra.
    + split; [lra |]. exists 0%nat. simpl. split; [lra | now left].
Qed.

Lemma whileBelow_spec (fuel : nat) :
  forall d : R,
    - PI - INR fuel * tau <= d ->
    - PI <= RegionSystem.whileBelow fuel d /\
    exists k : nat,
      RegionSystem.whileBelow fuel d = d + INR k * tau /\
      (k = 0%nat \/ RegionSystem.whileBelow fuel d < PI).
Proof.
  induction fuel as [| fuel IH]; intros d Hd.
  - simpl in *. split; [lra |]. exists 0%nat. simpl. split; [lra | now left].
  - rewrite S_INR in Hd. simpl RegionSystem.whileBelow.
    destruct (Rlt_dec d (- PI)) as [Hlt | Hge].
    + destruct (IH (d + PI * 2)) as (Hr & k & Hk & Hup).
      { unfold tau in *. lra. }
      split; [exact Hr |]. exists (S k). rewrite S_INR. split.
      * rewrite Hk. unfold tau. lra.
      * right. destruct Hup as [-> | Hup]; [| exact Hup].
        rewrite Hk. simpl. lra.
    + split; [lra |]. exists 0%nat. simpl. split; [lra | now left].
Qed.

(** Once a loop has left by its condition, further turns change nothing. *)
Lemma whileAbove_enough (fuel : nat) :
  forall (extra : nat) (d : R),
    d <= PI + INR fuel * tau ->
    RegionSystem.whileAbove (fuel + extra) d = RegionSystem.whileAbove fuel d.
Proof.
  induction fuel as [| fuel IH]; intros extra d Hd.
  - simpl in Hd. destruct extra; simpl; [reflexivity |].
    destruct (Rlt_dec PI d); [lra | reflexivity].
  - rewrite S_INR in Hd. simpl.
    destruct (Rlt_dec PI d); [| reflexivity].
    apply IH. unfold tau in *. lra.
Qed.

Lemma whileBelow_enough (fuel : nat) :
  forall (extra : nat) (d : R),
    - PI - INR fuel * tau <= d ->
    RegionSystem.whileBelow (fuel + extra) d = RegionSystem.whileBelow fuel d.
Proof.
  induction fuel as [| fuel IH]; intros extra d Hd.
  - simpl in Hd. destruct extra; simpl; [reflexivity |].
    destruct (Rlt_dec d (- PI)); [lra | reflexivity].
  - rewrite S_INR in Hd. simpl.
    destruct (Rlt_dec d (- PI)); [| reflexivity].
    apply IH. unfold tau in *. lra.
Qed.

Lemma turnsFor_enough (d : R) :
  Rabs d <= INR (RegionSystem.turnsFor d) * tau.
Proof.
  unfold RegionSystem.turnsFor. fold tau. pose proof tau_pos as Ht.
  set (x := Rabs d / tau).
  assert (Hx : 0 <= x).
  { unfold x, Rdiv. pose proof (Rabs_pos d).
    assert (0 < / tau) by now apply Rinv_0_lt_compat. nra. }
  destruct (archimed x) as [Hup _].
  assert (Hz : (0 <= up x)%Z).
  { apply le_IZR. lra. }
  rewrite INR_IZR_INZ, Z2Nat.id by assumption.
  assert (Hd : Rabs d = x * tau) by (unfold x; field; lra).
  rewrite Hd. nra.
Qed.

Lemma turnsFor_pos (d : R) : (1 <= RegionSystem.turnsFor d)%nat.
Proof.
  unfold RegionSystem.turnsFor. fold tau. pose proof tau_pos as Ht.
  set (x := Rabs d / tau).
  assert (Hx : 0 <= x).
  { unfold x, Rdiv. pose proof (Rabs_pos d).
    assert (0 < / tau) by now apply Rinv_0_lt_compat. nra. }
  destruct (archimed x) as [Hup _].
  assert (Hz : (0 < up x)%Z) by (apply lt_IZR; lra).
  lia.
Qed.

(** One turn of the first loop is all it takes when the difference is at
    most a turn and a half. *)
Lemma whileAbove_one (fuel : nat) (d : R) :
  (1 <= fuel)%nat -> d <= 3 * PI ->
  RegionSystem.whileAbove fuel d = if Rlt_dec PI d then d - PI * 2 else d.
Proof.
  intros Hf Hd.
  replace fuel with (1 + (fuel - 1))%nat by lia.
  rewrite whileAbove_enough by (simpl; unfold tau; lra).
  reflexivity.
Qed.

Lemma whileBelow_one (fuel : nat) (d : R) :
  (1 <= fuel)%nat -> - (3 * PI) <= d ->
  RegionSystem.whileBelow fuel d = if Rlt_dec d (- PI) then d + PI * 2 else d.
Proof.
  intros Hf Hd.
  replace fuel with (1 + (fuel - 1))%nat by lia.
  rewrite whileBelow_enough by (simpl; unfold tau; lra).
  reflexivity.
Qed.

(** X14.  For two angles at most one turn apart, as the normalized angle
    and the wedge centre that [computeRegionWeight] passes always are
    ([region_angles_within_turn]), [signedAngleDelta] returns after at most one turn of each loop, each
    loop leaving by its own condition (more turns allotted change
    nothing).  The result lies in [[-PI, PI]], is the difference moved by
    at most one full turn, and is the smallest of all angular distances
    between the two directions, as the doc comment promises.  Larger
    differences are not covered. *)
Theorem signedAngleDelta_spec (a b : R) (extra1 extra2 : nat) :
  - (PI * 2) <= a - b <= PI * 2 ->
  let r := RegionSystem.signedAngleDelta a b in
  let d1 := RegionSystem.whileAbove (1 + extra1) (a - b) in
  - PI <= r <= PI /\
  (exists k : Z, (-1 <= k <= 1)%Z /\ r = a - b + IZR k * (PI * 2)) /\
  (forall k : Z, Rabs r <= Rabs (a - b + IZR k * (PI * 2))) /\
  d1 <= PI /\
  RegionSystem.whileBelow (1 + extra2) d1 = r.
Proof.
  intros [Hlo Hhi] r d1. pose proof PI_RGT_0 as Hpi.
  set (d := a - b) in *.
  assert (Hd1 : d1 = if Rlt_dec PI d then d - PI * 2 else d).
  { unfold d1. apply whileAbove_one; [lia | lra]. }
  assert (Hd1lo : - (3 * PI) <= d1) by (rewrite Hd1; destruct (Rlt_dec PI d); lra).
  assert (Hr : r = if Rlt_dec d1 (- PI) then d1 + PI * 2 else d1).
  { unfold r, RegionSystem.signedAngleDelta. fold d.
    rewrite (whileAbove_one _ d (turnsFor_pos d)) by lra. rewrite <- Hd1.
    apply whileBelow_one; [apply turnsFor_pos | exact Hd1lo]. }
  assert (Hval : r = (if Rlt_dec PI d then d - PI * 2
                      else if Rlt_dec d (- PI) then d + PI * 2 else d)).
  { rewrite Hr, Hd1. destruct (Rlt_dec PI d) as [Hgt | Hle].
    - destruct (Rlt_dec (d - PI * 2) (- PI)); [lra | reflexivity].
    - reflexivity. }
  assert (Hrange : - PI <= r <= PI).
  { rewrite Hval. destruct (Rlt_dec PI d); [lra |].
    destruct (Rlt_dec d (- PI)); lra. }
  assert (Hturn : exists j : Z, (-1 <= j <= 1)%Z /\ r = d + IZR j * (PI * 2)).
  { rewrite Hval. destruct (Rlt_dec PI d).
    - exists (-1)%Z. split; [lia | lra].
    - destruct (Rlt_dec d (- PI)).
      + exists 1%Z. split; [lia | lra].
      + exists 0%Z. split; [lia | lra]. }
  split; [exact Hrange |]. split; [exact Hturn |]. split.
  - intros k. destruct Hturn as (j & _ & Hj).
    replace (d + IZR k * (PI * 2))
      with (r + IZR (k - j) * (PI * 2)) by (rewrite Hj, minus_IZR; lra).
    set (m := (k - j)%Z).
    assert (Hm : (m <= -1 \/ m = 0 \/ 1 <= m)%Z) by lia.
    destruct Hm as [Hm | [-> | Hm]].
    + apply IZR_le in Hm. unfold Rabs.
      destruct (Rcase_abs r), (Rcase_abs (r + IZR m * (PI * 2))); nra.
    + replace (r + 0 * (PI * 2)) with r by lra. lra.
    + apply IZR_le in Hm. unfold Rabs.
      destruct (Rcase_abs r), (Rcase_abs (r + IZR m * (PI * 2))); nra.
  - split.
    + rewrite Hd1. destruct (Rlt_dec PI d); lra.
    + rewrite Hr. apply whileBelow_one; [lia | exact Hd1lo].
Qed.

Lemma signedAngleDelta_spec_witness :
  - PI <= RegionSystem.signedAngleDelta (1 / 10) 6 <= PI /\
  Rabs (RegionSystem.signedAngleDelta (1 / 10) 6) <= Rabs (1 / 10 - 6).
Proof.
  pose proof PI_gt_3 as H3.
  assert (Hnear : - (PI * 2) <= 1 / 10 - 6 <= PI * 2) by lra.
  destruct (signedAngleDelta_spec (1 / 10) 6 0 0 Hnear) as (Hr & _ & Hmin & _).
  split; [exact Hr |].
  specialize (Hmin 0%Z).
  replace (1 / 10 - 6 + 0 * (PI * 2)) with (1 / 10 - 6) in Hmin by lra.
  exact Hmin.
Defined.

Lemma normalizeAngleRad_head (angle : R) :
  RegionSystem.normalizeAngleRad angle = RingPoints.normalizeHead angle.
Proof. reflexivity. Qed.

(** X15.  The angle normalisation shared by the region wheel and the ring
    painter maps every angle into [[0, 2 PI]] and moves it by a whole
    number of turns.  An angle already in [[0, 2 PI)] is left alone; for a
    non-negative angle the result is strictly below the full turn and
    normalising it again changes nothing.  (For a negative angle the last
    step is a sum, which binary64 can round up to the full turn; the range
    promised here is therefore the closed one.) *)
Theorem normalizeAngleRad_spec (angle : R) :
  let r := RegionSystem.normalizeAngleRad angle in
  0 <= r <= PI * 2 /\
  (exists k : Z, r = angle + IZR k * (PI * 2)) /\
  (0 <= angle < PI * 2 -> r = angle) /\
  (0 <= angle -> r < PI * 2 /\ RegionSystem.normalizeAngleRad r = r) /\
  RingPoints.normalizeHead angle = r.
Proof.
  intros r. unfold r. rewrite !normalizeAngleRad_head. fold tau.
  pose proof (normalizeHead_range angle) as Hr.
  split; [lra |]. split; [apply normalizeHead_congruent |].
  split; [intros Ha; now apply normalizeHead_small |].
  split; [| reflexivity].
  intros _. split; [apply Hr | now apply normalizeHead_small].
Qed.

(** ** RegionSystem: the twelve regions *)

Lemma wrap12_mod (z : Z) : RegionSystem.wrap12 z = (z mod 12)%Z.
Proof.
  unfold RegionSystem.wrap12. Z.to_euclidean_division_equations. lia.
Qed.

Lemma defaultRegions_lookup (k : Z) :
  (0 <= k < 12)%Z ->
  exists r : RegionSystem.RegionDefinition,
    RegionSystem.createDefaultRegions !! Z.to_nat k = Some r /\
    RegionSystem.index r = k.
Proof.
  intros Hk. unfold RegionSystem.createDefaultRegions.
  rewrite list_lookup_imap.
  destruct (lookup_lt_is_Some_2 RegionSystem.REGION_ORDER (Z.to_nat k)) as [e He].
  { simpl. lia. }
  rewrite He. simpl. eexists. split; [reflexivity |]. simpl. lia.
Qed.

Lemma regionAt_new (cfg : RegionSystem.RegionSystemConfig) (k : Z) :
  (0 <= k < 12)%Z ->
  exists r : RegionSystem.RegionDefinition,
    RegionSystem.regionAt (RegionSystem.new cfg) k = Some r /\
    RegionSystem.index r = k.
Proof.
  intros Hk. unfold RegionSystem.regionAt.
  destruct (Z.ltb_spec k 0); [lia |].
  now apply defaultRegions_lookup.
Qed.

Lemma Int_part_shift (x : R) (n : Z) :
  Int_part (x + IZR n) = (Int_part x + n)%Z.
Proof.
  symmetry. apply Int_part_spec. rewrite plus_IZR.
  pose proof (base_Int_part x). lra.
Qed.

Lemma Int_part_IZR (z : Z) : Int_part (IZR z) = z.
Proof. symmetry. apply Int_part_spec. lra. Qed.

(** X16.  [getRegionByIndex] never returns [undefined]: any real index is
    floored and wrapped into 0..11, so negative and large indices come back
    as the region whose index is [floor(index) mod 12], and the lookup has
    period 12.  It inverts [getRegionIndexById]: the region found at the
    index of an id carries that id. *)
Theorem getRegionByIndex_total (cfg : RegionSystem.RegionSystemConfig)
  (index : R) (target : RegionSystem.RegionId) :
  let s := RegionSystem.new cfg in
  (exists r : RegionSystem.RegionDefinition,
     RegionSystem.getRegionByIndex s index = Some r /\
     RegionSystem.index r = (Int_part index mod 12)%Z /\
     RegionSystem.getRegionByIndex s (index + 12) = Some r /\
     RegionSystem.getRegionByIndex s (index - 12) = Some r) /\
  (exists r : RegionSystem.RegionDefinition,
     RegionSystem.getRegionByIndex s
       (IZR (RegionSystem.getRegionIndexById s target)) = Some r /\
     RegionSystem.id r = target).
Proof.
  intros s. split.
  - unfold RegionSystem.getRegionByIndex.
    assert (Hp : Int_part (index + 12) = (Int_part index + 12)%Z)
      by apply (Int_part_shift index 12).
    assert (Hm : Int_part (index - 12) = (Int_part index + -12)%Z)
      by apply (Int_part_shift index (-12)).
    rewrite Hp, Hm, !wrap12_mod.
    replace ((Int_part index + 12) mod 12)%Z with (Int_part index mod 12)%Z
      by (rewrite <- (Z.mod_add (Int_part index) 1 12) by lia; f_equal; lia).
    replace ((Int_part index + -12) mod 12)%Z with (Int_part index mod 12)%Z
      by (rewrite <- (Z.mod_add (Int_part index) (-1) 12) by lia; f_equal; lia).
    destruct (regionAt_new cfg (Int_part index mod 12)%Z) as (r & Hr & Hi).
    { apply Z.mod_pos_bound. lia. }
    exists r. auto.
  - unfold RegionSystem.getRegionByIndex. rewrite Int_part_IZR, wrap12_mod.
    destruct target; eexists; (split; [reflexivity | reflexivity]).
Qed.

(** ** RegionSystem: wedges and weights *)

Lemma signedAngleDelta_range (a b : R) :
  - PI <= RegionSystem.signedAngleDelta a b <= PI /\
  exists k : Z, RegionSystem.signedAngleDelta a b = a - b + IZR k * tau.
Proof.
  unfold RegionSystem.signedAngleDelta.
  set (d0 := a - b).
  pose proof (turnsFor_enough d0) as H0.
  assert (Hd0 : d0 <= PI + INR (RegionSystem.turnsFor d0) * tau).
  { pose proof (Rle_abs d0). pose proof PI_RGT_0. lra. }
  destruct (whileAbove_spec _ d0 Hd0) as (Hle & k1 & Hk1 & Hlow).
  set (d1 := RegionSystem.whileAbove (RegionSystem.turnsFor d0) d0) in *.
  pose proof (turnsFor_enough d1) as H1.
  assert (Hd1 : - PI - INR (RegionSystem.turnsFor d1) * tau <= d1).
  { pose proof (Rle_abs (- d1)). rewrite Rabs_Ropp in *. pose proof PI_RGT_0. lra. }
  destruct (whileBelow_spec _ d1 Hd1) as (Hge & k2 & Hk2 & Hup).
  repeat split.
  - exact Hge.
  - destruct Hup as [-> | Hup]; [| lra]. rewrite Hk2. simpl. lra.
  - exists (Z.of_nat k2 - Z.of_nat k1)%Z.
    rewrite Hk2, Hk1, minus_IZR, <- !INR_IZR_INZ. lra.
Qed.

Lemma clamp01_range (v : R) : 0 <= RegionSystem.clamp01 v <= 1.
Proof.
  unfold RegionSystem.clamp01, Rmax, Rmin. repeat destruct (Rle_dec _ _); lra.
Qed.

Lemma new_geometry (cfg : RegionSystem.RegionSystemConfig) :
  let s := RegionSystem.new cfg in
  RegionSystem.wedgeSizeRad s = tau / 12 /\
  RegionSystem.halfWedgeRad s = tau / 24 /\
  RegionSystem.blendZoneRad s
    = tau / 24 * RegionSystem.boundaryBlend (RegionSystem.config s) /\
  0 <= RegionSystem.boundaryBlend (RegionSystem.config s) <= 1.
Proof.
  simpl. unfold tau. repeat split; try lra; apply clamp01_range.
Qed.

(** The wedge an angle of [[0, tau)] falls in. *)
Lemma nearest_in_wedge (cfg : RegionSystem.RegionSystemConfig) (angle : R) :
  0 <= angle < tau ->
  let k := RegionSystem.getNearestRegionIndex (RegionSystem.new cfg) angle in
  (0 <= k < 12)%Z /\
  IZR k * (tau / 12) <= angle < (IZR k + 1) * (tau / 12).
Proof.
  intros Ha k. pose proof tau_pos as Ht.
  destruct (new_geometry cfg) as (Hw & _).
  unfold k, RegionSystem.getNearestRegionIndex. rewrite Hw, wrap12_mod.
  set (q := angle / (tau / 12)).
  assert (Hq : 0 <= q < 12).
  { unfold q. apply quotient_bounds; lra. }
  pose proof (base_Int_part q) as [Hlo Hhi].
  assert (Hz : (0 <= Int_part q < 12)%Z).
  { split.
    - apply Z.lt_succ_r, Z.lt_pred_lt_succ. apply lt_IZR.
      unfold Z.pred. rewrite plus_IZR. simpl. lra.
    - apply lt_IZR. lra. }
  rewrite Z.mod_small by assumption.
  split; [assumption |].
  assert (Hangle : angle = q * (tau / 12)) by (unfold q; field; lra).
  clearbody q. split; nra.
Qed.

Lemma center_angle (cfg : RegionSystem.RegionSystemConfig) (i : Z) :
  (0 <= i < 12)%Z ->
  RegionSystem.getRegionCenterAngle (RegionSystem.new cfg) i
    = IZR i * (tau / 12) + tau / 24.
Proof.
  intros [Hlo Hhi]. pose proof tau_pos as Ht.
  destruct (new_geometry cfg) as (Hw & Hh & _).
  unfold RegionSystem.getRegionCenterAngle.
  rewrite Hw, Hh, normalizeAngleRad_head.
  apply normalizeHead_small.
  apply IZR_le in Hlo. assert (Hhi' : (i <= 11)%Z) by lia.
  apply IZR_le in Hhi'. split; nra.
Qed.

(** What [computeRegionWeight] passes to [signedAngleDelta]: the angle of a
    position and the centre of one of the twelve wedges are less than one
    turn apart. *)
Lemma region_angles_within_turn (cfg : RegionSystem.RegionSystemConfig)
  (pos : Vector3) (i : Z) :
  (0 <= i < 12)%Z ->
  let s := RegionSystem.new cfg in
  - (PI * 2) <= RegionSystem.getAngleForPosition s pos
                - RegionSystem.getRegionCenterAngle s i <= PI * 2.
Proof.
  intros Hi s. pose proof tau_pos as Ht.
  assert (Hangle : 0 <= RegionSystem.getAngleForPosition s pos < tau).
  { unfold RegionSystem.getAngleForPosition.
    rewrite normalizeAngleRad_head. apply normalizeHead_range. }
  assert (Hc : 0 <= RegionSystem.getRegionCenterAngle s i < tau).
  { unfold s. rewrite center_angle by exact Hi.
    assert (Hi0 : 0 <= IZR i) by (apply IZR_le; lia).
    assert (Hi11 : IZR i <= 11) by (apply IZR_le; lia).
    split; nra. }
  unfold tau in Hangle, Hc. lra.
Qed.








Lemma nearest_full_turn (cfg : RegionSystem.RegionSystemConfig) :
  RegionSystem.getNearestRegionIndex (RegionSystem.new cfg) (PI * 2) = 0%Z.
Proof.
  pose proof tau_pos as Ht.
  destruct (new_geometry cfg) as (Hw & _).
  unfold RegionSystem.getNearestRegionIndex. rewrite Hw. fold tau.
  replace (tau / (tau / 12)) with (IZR 12) by (field; lra).
  rewrite Int_part_IZR. reflexivity.
Qed.

(** The centre of the wedge the code picks for an angle of [[0, tau]] is
    at most half a wedge away, measured the short way round; this holds at
    the full turn too, which is counted in wedge 0. *)
Lemma nearest_centre_close (cfg : RegionSystem.RegionSystemConfig) (angle : R) :
  0 <= angle <= tau ->
  let s := RegionSystem.new cfg in
  let k := RegionSystem.getNearestRegionIndex s angle in
  (0 <= k < 12)%Z /\
  Rabs (RegionSystem.signedAngleDelta angle
          (RegionSystem.getRegionCenterAngle s k)) <= tau / 24.
Proof.
  intros [Hlo Hhi] s k. pose proof tau_pos as Ht.
  assert (Hpi : PI = tau / 2) by (unfold tau; lra).
  assert (Hcase : angle < tau \/ angle = tau) by lra.
  assert (Hgoal : (0 <= k < 12)%Z /\
                  exists n : Z,
                    Rabs (angle - (IZR k * (tau / 12) + tau / 24)
                          + IZR n * tau) <= tau / 24).
  { destruct Hcase as [Hlt | Heq].
    - destruct (nearest_in_wedge cfg angle (conj Hlo Hlt)) as (Hk & Hw).
      fold s k in Hk, Hw. split; [exact Hk |]. exists 0%Z.
      unfold Rabs. destruct (Rcase_abs _); lra.
    - assert (Hk : k = 0%Z).
      { unfold k, s. rewrite Heq. unfold tau. apply nearest_full_turn. }
      rewrite Hk. split; [lia |]. exists (-1)%Z.
      unfold Rabs. destruct (Rcase_abs _); lra. }
  destruct Hgoal as (Hk & n & Hn). split; [exact Hk |].
  unfold s. rewrite center_angle by exact Hk. fold s.
  set (c := IZR k * (tau / 12) + tau / 24) in *.
  destruct (signedAngleDelta_range angle c) as ([Hr1 Hr2] & m & Hm).
  set (r := RegionSystem.signedAngleDelta angle c) in *.
  set (e := angle - c + IZR n * tau) in *.
  assert (He : r = e + IZR (m - n) * tau) by (unfold e; rewrite minus_IZR; lra).
  assert (Hen : - (tau / 24) <= e <= tau / 24).
  { unfold Rabs in Hn. destruct (Rcase_abs e); lra. }
  assert (Hz : (m - n <= -1 \/ m - n = 0 \/ 1 <= m - n)%Z) by lia.
  destruct Hz as [Hz | [Hz | Hz]].
  - apply IZR_le in Hz. nra.
  - rewrite Hz in He. replace r with e by lra. exact Hn.
  - apply IZR_le in Hz. nra.
Qed.

(** X18.  The primary query always names a region: for any position the
    result carries the region of the index [getNearestRegionIndex] gives
    for the reported angle, one of the twelve, and that region's wedge
    centre is at most half a wedge (PI/12) away from the reported angle,
    by the code's own [signedAngleDelta]: the region returned is a nearest
    one.  The angle lies in [[0, 2 PI]]; the distance is non-negative and
    the weight lies in [0,1].  An angle that comes out as the full turn
    itself is counted in wedge 0, January's, whose centre is again PI/12
    away. *)
Theorem getRegionAtPosition_wedge (cfg : RegionSystem.RegionSystemConfig)
  (pos : Vector3) :
  let s := RegionSystem.new cfg in
  radial_ok s ->
  let res := RegionSystem.getRegionAtPosition s pos in
  (exists r : RegionSystem.RegionDefinition,
     RegionSystem.region res = Some r /\
     RegionSystem.index r
       = RegionSystem.getNearestRegionIndex s (RegionSystem.angleRad res) /\
     (0 <= RegionSystem.index r < 12)%Z /\
     0 <= RegionSystem.angleRad res <= PI * 2 /\
     Rabs (RegionSystem.signedAngleDelta (RegionSystem.angleRad res)
             (RegionSystem.getRegionCenterAngle s (RegionSystem.index r)))
       <= PI / 12 /\
     0 <= RegionSystem.distanceToCore res /\
     0 <= RegionSystem.weight res <= 1) /\
  (RegionSystem.getNearestRegionIndex s (PI * 2) = 0%Z /\
   (exists jan : RegionSystem.RegionDefinition,
      RegionSystem.regionAt s 0 = Some jan /\
      RegionSystem.id jan = RegionSystem.JAN) /\
   Rabs (RegionSystem.signedAngleDelta (PI * 2)
           (RegionSystem.getRegionCenterAngle s 0)) <= PI / 12).
Proof.
  intros s _ res. pose proof tau_pos as Ht.
  set (angle := RegionSystem.getAngleForPosition s pos).
  assert (Hangle : 0 <= angle < tau).
  { unfold angle, RegionSystem.getAngleForPosition.
    rewrite normalizeAngleRad_head. apply normalizeHead_range. }
  destruct (nearest_centre_close cfg angle ltac:(lra)) as (Hk & Hclose).
  fold s in Hk, Hclose.
  destruct (regionAt_new cfg _ Hk) as (r & Hr & Hidx). fold s in Hr.
  split.
  - exists r. unfold res, RegionSystem.getRegionAtPosition; simpl.
    fold s angle. split; [exact Hr |]. split; [exact Hidx |]. rewrite Hidx.
    split; [exact Hk |].
    split; [unfold tau in Hangle; lra |].
    split; [eapply Rle_trans; [exact Hclose | unfold tau; lra] |].
    split; [apply sqrt_pos | apply clamp01_range].
  - destruct (nearest_centre_close cfg tau ltac:(lra)) as (_ & Hfull).
    assert (Hn : RegionSystem.getNearestRegionIndex (RegionSystem.new cfg) tau
                 = 0%Z) by exact (nearest_full_turn cfg).
    rewrite Hn in Hfull. fold s in Hfull.
    split; [apply nearest_full_turn |].
    split; [eexists; split; reflexivity |].
    eapply Rle_trans; [exact Hfull | unfold tau; lra].
Qed.

Lemma getRegionAtPosition_wedge_witness :
  exists r : RegionSystem.RegionDefinition,
    RegionSystem.region
      (RegionSystem.getRegionAtPosition (RegionSystem.new emptyRegionConfig)
         {| vx := -3; vy := 2; vz := 0 |}) = Some r.
Proof.
  destruct (getRegionAtPosition_wedge emptyRegionConfig
              {| vx := -3; vy := 2; vz := 0 |} (or_introl eq_refl))
    as ((r & Hr & _) & _).
  exists r. exact Hr.
Defined.

(** ** ControlSystem: accumulated deltas *)

Lemma vector2_eq (a b : Vector2) : x2 a = x2 b -> y2 a = y2 b -> a = b.
Proof. destruct a, b; simpl; intros -> ->; reflexivity. Qed.

Lemma shifted_step (dr : Vector2) (dd : R) (a b : ControlSystem.T)
  (i : ControlSystem.Input) :
  shifted dr dd a b ->
  shifted dr dd (ControlSystem.step a i) (ControlSystem.step b i).
Proof.
  intros (He & Hl & Ha & Hm & Hp & Hr & Hd).
  destruct i as [ev | ev | ev | dy | e | partial]; simpl.
  - unfold ControlSystem.handlePointerDown. rewrite He.
    destruct (negb (ControlSystem.enabled b)); [repeat split; assumption |].
    destruct (negb (ControlSystem.button ev =? 0)%Z); repeat split; assumption.
  - unfold ControlSystem.handlePointerMove. rewrite He, Ha, Hm, Hl.
    destruct (_ || _); [repeat split; assumption |].
    destruct (_ || _); [repeat split; assumption |].
    repeat split; simpl; try assumption.
    rewrite Hr, Hp. unfold vadd2; simpl. apply vector2_eq; simpl; lra.
  - unfold ControlSystem.handlePointerUp. rewrite Ha.
    destruct (negb (ControlSystem.pointerActive b)); repeat split; assumption.
  - unfold ControlSystem.handleWheel. rewrite He, Hl.
    destruct (_ || _); repeat split; simpl; try assumption. lra.
  - repeat split; assumption.
  - repeat split; simpl; try assumption. now rewrite Hl.
Qed.

Lemma shifted_run (dr : Vector2) (dd : R) (inputs : list ControlSystem.Input) :
  forall a b : ControlSystem.T,
    shifted dr dd a b ->
    shifted dr dd (ControlSystem.run inputs a) (ControlSystem.run inputs b).
Proof.
  induction inputs as [| i inputs IH]; intros a b H; simpl.
  - exact H.
  - apply IH. now apply shifted_step.
Qed.

(** X19.  Taking a snapshot in the middle loses nothing and counts nothing
    twice: for any inputs before and after it, the two snapshots add up to
    the single snapshot taken at the end without the one in the middle, and
    the control surface ends in the same state. *)
Theorem consumeSnapshot_additive (c : ControlSystem.T)
  (before after : list ControlSystem.Input) :
  let r1 := ControlSystem.consumeSnapshot (ControlSystem.run before c) in
  let r2 := ControlSystem.consumeSnapshot (ControlSystem.run after (snd r1)) in
  let r := ControlSystem.consumeSnapshot
             (ControlSystem.run (before ++ after) c) in
  ControlSystem.s_rotateDelta (fst r) =
    vadd2 (ControlSystem.s_rotateDelta (fst r1))
          (ControlSystem.s_rotateDelta (fst r2)) /\
  ControlSystem.s_dollyDelta (fst r) =
    ControlSystem.s_dollyDelta (fst r1) + ControlSystem.s_dollyDelta (fst r2) /\
  snd r = snd r2.
Proof.
  intros r1 r2 r. unfold r, r1, r2, ControlSystem.run.
  rewrite fold_left_app. fold (ControlSystem.run before c).
  set (a := ControlSystem.run before c).
  fold (ControlSystem.run after a).
  fold (ControlSystem.run after (snd (ControlSystem.consumeSnapshot a))).
  assert (Hs : shifted (ControlSystem.rotateDelta a) (ControlSystem.dollyDelta a)
                 a (snd (ControlSystem.consumeSnapshot a))).
  { unfold shifted; simpl. repeat split; try reflexivity.
    - apply vector2_eq; simpl; lra.
    - lra. }
  destruct (shifted_run _ _ after _ _ Hs) as (He & Hl & Ha & Hm & Hp & Hr & Hd).
  simpl. repeat split; try assumption.
  now rewrite He, Hl, Ha, Hm, Hp.
Qed.

Lemma drag_moves (moves : list ControlSystem.PointerEvent) :
  forall (c : ControlSystem.T) (last0 : ControlSystem.PointerEvent),
    ControlSystem.enabled c = true ->
    ControlSystem.rotate (ControlSystem.locks c) = false ->
    ControlSystem.pointerActive c = true ->
    ControlSystem.pointerMode c = Some ControlSystem.ModeRotate ->
    ControlSystem.lastPointer c = pointOf last0 ->
    let c' := ControlSystem.run (map ControlSystem.PointerMove moves) c in
    ControlSystem.rotateDelta c' =
      vadd2 (ControlSystem.rotateDelta c)
            (vsub2 (pointOf (List.last moves last0)) (pointOf last0)) /\
    ControlSystem.lastPointer c' = pointOf (List.last moves last0) /\
    ControlSystem.dollyDelta c' = ControlSystem.dollyDelta c.
Proof.
  induction moves as [| ev moves IH]; intros c last0 He Hl Ha Hm Hp c'.
  - unfold c'; simpl. repeat split; [| assumption].
    apply vector2_eq; simpl; lra.
  - set (c1 := ControlSystem.handlePointerMove ev c).
    assert (Hc1 : c1 =
      {| ControlSystem.enabled := ControlSystem.enabled c;
         ControlSystem.locks := ControlSystem.locks c;
         ControlSystem.pointerActive := ControlSystem.pointerActive c;
         ControlSystem.pointerMode := ControlSystem.pointerMode c;
         ControlSystem.lastPointer := pointOf ev;
         ControlSystem.rotateDelta :=
           vadd2 (ControlSystem.rotateDelta c)
                 (vsub2 (pointOf ev) (ControlSystem.lastPointer c));
         ControlSystem.dollyDelta := ControlSystem.dollyDelta c |}).
    { unfold c1, ControlSystem.handlePointerMove. rewrite He, Ha, Hm, Hl.
      reflexivity. }
    assert (Hrun : c' = ControlSystem.run (map ControlSystem.PointerMove moves) c1)
      by reflexivity.
    assert (Hlast : List.last (ev :: moves) last0 = List.last moves ev).
    { clear. revert ev. induction moves as [| m moves IH]; intros ev;
        [reflexivity |]. simpl in *. destruct moves; [reflexivity | apply IH]. }
    destruct (IH c1 ev) as (Hr' & Hp' & Hd'); try (rewrite Hc1; simpl; assumption).
    { rewrite Hc1. reflexivity. }
    rewrite Hlast, Hrun, Hr', Hp', Hd', Hc1. simpl. rewrite Hp.
    repeat split. apply vector2_eq; simpl; lra.
Qed.

(** X20.  A drag adds up to its net displacement: with the controls enabled
    and rotation unlocked, a left-button press at [down] followed by any
    moves raises the rotate delta by the last pointer position minus the
    press position, whatever path the pointer took, and leaves the dolly
    delta alone. *)
Theorem drag_net_displacement (c : ControlSystem.T)
  (down : ControlSystem.PointerEvent)
  (moves : list ControlSystem.PointerEvent) :
  ControlSystem.enabled c = true ->
  ControlSystem.rotate (ControlSystem.locks c) = false ->
  ControlSystem.button down = 0%Z ->
  let c' := ControlSystem.run
              (ControlSystem.PointerDown down
                 :: map ControlSystem.PointerMove moves) c in
  ControlSystem.rotateDelta c' =
    vadd2 (ControlSystem.rotateDelta c)
          (vsub2 (pointOf (List.last moves down)) (pointOf down)) /\
  ControlSystem.lastPointer c' = pointOf (List.last moves down) /\
  ControlSystem.dollyDelta c' = ControlSystem.dollyDelta c.
Proof.
  intros He Hl Hb c'.
  set (c1 := ControlSystem.handlePointerDown down c).
  assert (Hrun : c' = ControlSystem.run (map ControlSystem.PointerMove moves) c1)
    by reflexivity.
  assert (Hc1 : c1 =
    {| ControlSystem.enabled := ControlSystem.enabled c;
       ControlSystem.locks := ControlSystem.locks c;
       ControlSystem.pointerActive := true;
       ControlSystem.pointerMode := Some ControlSystem.ModeRotate;
       ControlSystem.lastPointer := pointOf down;
       ControlSystem.rotateDelta := ControlSystem.rotateDelta c;
       ControlSystem.dollyDelta := ControlSystem.dollyDelta c |}).
  { unfold c1, ControlSystem.handlePointerDown. rewrite He, Hb. reflexivity. }
  destruct (drag_moves moves c1 down) as (Hr & Hp & Hd);
    try (rewrite Hc1; simpl; auto).
  rewrite Hrun, Hr, Hp, Hd, Hc1. simpl. auto.
Qed.

Lemma drag_net_displacement_witness :
  let ev := fun x y => {| ControlSystem.button := 0;
                          ControlSystem.clientX := x;
                          ControlSystem.clientY := y |} in
  ControlSystem.rotateDelta
    (ControlSystem.run
       [ControlSystem.PointerDown (ev 10 10);
        ControlSystem.PointerMove (ev 50 0);
        ControlSystem.PointerMove (ev 13 14)] ControlSystem.new) =
  vadd2 {| x2 := 0; y2 := 0 |}
        (vsub2 {| x2 := 13; y2 := 14 |} {| x2 := 10; y2 := 10 |}).
Proof.
  intros ev.
  exact (proj1 (drag_net_displacement ControlSystem.new (ev 10 10)
                  [ev 50 0; ev 13 14] eq_refl eq_refl eq_refl)).
Defined.

Lemma disabled_step (c : ControlSystem.T) (i : ControlSystem.Input) :
  ControlSystem.enabled c = false -> isEnable i = false ->
  let c' := ControlSystem.step c i in
  ControlSystem.enabled c' = false /\
  ControlSystem.rotateDelta c' = ControlSystem.rotateDelta c /\
  ControlSystem.dollyDelta c' = ControlSystem.dollyDelta c /\
  (ControlSystem.pointerActive c = false ->
   ControlSystem.pointerActive c' = false).
Proof.
  intros He Hi.
  destruct i as [ev | ev | ev | dy | [|] | partial]; simpl in *;
    try discriminate.
  - unfold ControlSystem.handlePointerDown. rewrite He. simpl. auto.
  - unfold ControlSystem.handlePointerMove. rewrite He. simpl. auto.
  - unfold ControlSystem.handlePointerUp.
    destruct (ControlSystem.pointerActive c) eqn:E; simpl; repeat split; auto.
  - unfold ControlSystem.handleWheel. rewrite He. simpl. auto.
  - auto.
  - auto.
Qed.

(** X21.  Disabled controls accumulate nothing: from a disabled state, and
    until [setEnabled(true)] is called, no pointer or wheel event changes
    the rotate or dolly delta, and no drag can start. *)
Theorem disabled_accumulates_nothing (inputs : list ControlSystem.Input) :
  forall c : ControlSystem.T,
    ControlSystem.enabled c = false ->
    forallb (fun i => negb (isEnable i)) inputs = true ->
    let c' := ControlSystem.run inputs c in
    ControlSystem.enabled c' = false /\
    ControlSystem.rotateDelta c' = ControlSystem.rotateDelta c /\
    ControlSystem.dollyDelta c' = ControlSystem.dollyDelta c /\
    (ControlSystem.pointerActive c = false ->
     ControlSystem.pointerActive c' = false).
Proof.
  induction inputs as [| i inputs IH]; intros c He Hin; simpl in *.
  - auto.
  - apply andb_prop in Hin as [Hi Hrest].
    assert (Hi' : isEnable i = false) by (destruct (isEnable i); auto; discriminate).
    destruct (disabled_step c i He Hi') as (He1 & Hr1 & Hd1 & Ha1).
    destruct (IH (ControlSystem.step c i) He1 Hrest) as (He2 & Hr2 & Hd2 & Ha2).
    repeat split; try congruence. auto.
Qed.

Lemma disabled_accumulates_nothing_witness :
  let ev := {| ControlSystem.button := 0; ControlSystem.clientX := 5;
               ControlSystem.clientY := 6 |} in
  let c := ControlSystem.setEnabled false ControlSystem.new in
  ControlSystem.dollyDelta
    (ControlSystem.run
       [ControlSystem.PointerDown ev; ControlSystem.Wheel 120;
        ControlSystem.PointerMove ev] c) = ControlSystem.dollyDelta c.
Proof.
  intros ev c.
  destruct (disabled_accumulates_nothing
              [ControlSystem.PointerDown ev; ControlSystem.Wheel 120;
               ControlSystem.PointerMove ev] c eq_refl eq_refl)
    as (_ & _ & Hd & _).
  exact Hd.
Defined.

Lemma locked_moves (moves : list ControlSystem.PointerEvent) (c : ControlSystem.T) :
  ControlSystem.rotate (ControlSystem.locks c) = true ->
  ControlSystem.run (map ControlSystem.PointerMove moves) c = c.
Proof.
  intros Hl. induction moves as [| ev moves IH]; simpl; [reflexivity |].
  assert (Hstep : ControlSystem.handlePointerMove ev c = c).
  { unfold ControlSystem.handlePointerMove. rewrite Hl.
    destruct (_ || _); [reflexivity |]. now rewrite orb_true_r. }
  rewrite Hstep. exact IH.
Qed.

(** X22.  A rotation lock defers drag movement, it does not discard it:
    moves made while rotation is locked leave the last pointer position
    untouched, so the first move after the unlock adds the whole
    displacement since the last move before the lock. *)
Theorem rotate_lock_defers (c : ControlSystem.T)
  (during : list ControlSystem.PointerEvent) (after : ControlSystem.PointerEvent) :
  ControlSystem.enabled c = true ->
  ControlSystem.pointerActive c = true ->
  ControlSystem.pointerMode c = Some ControlSystem.ModeRotate ->
  let locked := ControlSystem.run
                  (lockRotate true :: map ControlSystem.PointerMove during) c in
  let c' := ControlSystem.run
              [lockRotate false; ControlSystem.PointerMove after] locked in
  ControlSystem.rotateDelta locked = ControlSystem.rotateDelta c /\
  ControlSystem.lastPointer locked = ControlSystem.lastPointer c /\
  ControlSystem.rotateDelta c' =
    vadd2 (ControlSystem.rotateDelta c)
          (vsub2 (pointOf after) (ControlSystem.lastPointer c)).
Proof.
  intros He Ha Hm locked c'.
  assert (Hlocked : locked = ControlSystem.setLocks
                               {| ControlSystem.p_rotate := Some true;
                                  ControlSystem.p_zoom := None |} c).
  { unfold locked. simpl.
    fold (ControlSystem.run (map ControlSystem.PointerMove during)
            (ControlSystem.setLocks
               {| ControlSystem.p_rotate := Some true;
                  ControlSystem.p_zoom := None |} c)).
    now apply locked_moves. }
  unfold c'. rewrite Hlocked. simpl.
  repeat split.
  unfold ControlSystem.handlePointerMove; simpl. rewrite He, Ha, Hm. simpl.
  apply vector2_eq; simpl; lra.
Qed.

Lemma rotate_lock_defers_witness :
  let ev := fun x y => {| ControlSystem.button := 0;
                          ControlSystem.clientX := x;
                          ControlSystem.clientY := y |} in
  let c := ControlSystem.run [ControlSystem.PointerDown (ev 0 0)]
             ControlSystem.new in
  ControlSystem.rotateDelta
    (ControlSystem.run [lockRotate false; ControlSystem.PointerMove (ev 9 9)]
       (ControlSystem.run
          (lockRotate true :: map ControlSystem.PointerMove [ev 3 4; ev 7 7]) c)) =
  vadd2 (ControlSystem.rotateDelta c)
        (vsub2 (pointOf (ev 9 9)) (ControlSystem.lastPointer c)).
Proof.
  intros ev c.
  exact (proj2 (proj2 (rotate_lock_defers c [ev 3 4; ev 7 7] (ev 9 9)
                         eq_refl eq_refl eq_refl))).
Defined.

(** ** CameraSystem: the orbit rig *)

Lemma setFromSpherical_length (s : CameraSystem.Spherical) :
  0 <= CameraSystem.radius s ->
  vlength (CameraSystem.setFromSpherical s) = CameraSystem.radius s.
Proof.
  intros Hr. unfold vlength, CameraSystem.setFromSpherical; simpl.
  set (r := CameraSystem.radius s) in *.
  pose proof (sin2_cos2 (CameraSystem.phi s)) as Hp.
  pose proof (sin2_cos2 (CameraSystem.theta s)) as Ht.
  unfold Rsqr in Hp, Ht.
  set (sp := sin (CameraSystem.phi s)) in *.
  set (cp := cos (CameraSystem.phi s)) in *.
  set (st := sin (CameraSystem.theta s)) in *.
  set (ct := cos (CameraSystem.theta s)) in *.
  replace (sp * r * st * (sp * r * st) + cp * r * (cp * r)
           + sp * r * ct * (sp * r * ct))
    with (r * r * (sp * sp * (st * st + ct * ct) + cp * cp)) by ring.
  rewrite Ht, Rmult_1_r, Hp, Rmult_1_r.
  now apply sqrt_square.
Qed.

Lemma vsub3_vadd3 (a b : Vector3) :
  CameraSystem.vsub3 (CameraSystem.vadd3 a b) a = b.
Proof.
  destruct a, b. unfold CameraSystem.vsub3, CameraSystem.vadd3; simpl.
  f_equal; lra.
Qed.

(** X23.  With rig options in order ([0 <= minDistance <= maxDistance],
    [minPolarAngle <= maxPolarAngle]), every [update] leaves the orbit
    radius within the distance limits and the polar angle within the polar
    limits, whatever deltas and zoom scale had accumulated, and places the
    camera at exactly that radius from the target, so the reported distance
    is the real one. *)
Theorem camera_update_in_range (c : CameraSystem.T) (deltaSeconds : R) :
  options_ok (CameraSystem.options c) ->
  let c' := CameraSystem.update deltaSeconds c in
  let o := CameraSystem.options c in
  CameraSystem.minDistance o <= CameraSystem.radius (CameraSystem.spherical c')
    <= CameraSystem.maxDistance o /\
  CameraSystem.minPolarAngle o <= CameraSystem.phi (CameraSystem.spherical c')
    <= CameraSystem.maxPolarAngle o /\
  vlength (CameraSystem.vsub3 (CameraSystem.position c') (CameraSystem.target c'))
    = CameraSystem.radius (CameraSystem.spherical c') /\
  CameraSystem.t_distance (CameraSystem.getTelemetry c')
    = vlength (CameraSystem.vsub3 (CameraSystem.position c')
                 (CameraSystem.target c')) /\
  CameraSystem.options c' = o /\ CameraSystem.target c' = CameraSystem.target c.
Proof.
  intros ((Hd0 & Hd) & Hp) c' o. subst o.
  assert (Hradius : CameraSystem.minDistance (CameraSystem.options c)
                    <= CameraSystem.radius (CameraSystem.spherical c')
                    <= CameraSystem.maxDistance (CameraSystem.options c)).
  { unfold c', CameraSystem.update.
    destruct (CameraSystem.enableDamping (CameraSystem.options c)); simpl;
      unfold Rmin, Rmax; repeat destruct (Rle_dec _ _); lra. }
  assert (Hphi : CameraSystem.minPolarAngle (CameraSystem.options c)
                 <= CameraSystem.phi (CameraSystem.spherical c')
                 <= CameraSystem.maxPolarAngle (CameraSystem.options c)).
  { unfold c', CameraSystem.update.
    destruct (CameraSystem.enableDamping (CameraSystem.options c)); simpl;
      unfold Rmin, Rmax; repeat destruct (Rle_dec _ _); lra. }
  assert (Hlen : vlength (CameraSystem.vsub3 (CameraSystem.position c')
                            (CameraSystem.target c'))
                 = CameraSystem.radius (CameraSystem.spherical c')).
  { assert (Hpos : CameraSystem.position c' =
                   CameraSystem.vadd3 (CameraSystem.target c')
                     (CameraSystem.setFromSpherical (CameraSystem.spherical c'))).
    { unfold c', CameraSystem.update.
      destruct (CameraSystem.enableDamping (CameraSystem.options c)); reflexivity. }
    rewrite Hpos, vsub3_vadd3. apply setFromSpherical_length. lra. }
  split; [exact Hradius |]. split; [exact Hphi |]. split; [exact Hlen |].
  split; [rewrite Hlen; reflexivity |].
  unfold c', CameraSystem.update.
  destruct (CameraSystem.enableDamping (CameraSystem.options c)); split; reflexivity.
Qed.

Lemma default_options_ok : options_ok CameraSystem.DEFAULT_OPTIONS.
Proof.
  unfold options_ok, CameraSystem.DEFAULT_OPTIONS; simpl.
  pose proof PI_gt_3. lra.
Qed.

Lemma camera_update_in_range_witness :
  let c := CameraSystem.applyControlDeltas {| x2 := 300; y2 := -4000 |} 100000
             CameraSystem.new in
  let c' := CameraSystem.update (1 / 60) c in
  10 <= CameraSystem.radius (CameraSystem.spherical c') <= 500 /\
  1 / 10 <= CameraSystem.phi (CameraSystem.spherical c') <= PI - 1 / 10.
Proof.
  intros c c'.
  destruct (camera_update_in_range c (1 / 60) default_options_ok)
    as (Hr & Hp & _).
  split; [exact Hr | exact Hp].
Defined.

Lemma update_radius (c : CameraSystem.T) (deltaSeconds : R) :
  CameraSystem.radius (CameraSystem.spherical (CameraSystem.update deltaSeconds c))
  = Rmin (CameraSystem.maxDistance (CameraSystem.options c))
      (Rmax (CameraSystem.minDistance (CameraSystem.options c))
         (CameraSystem.radius (CameraSystem.spherical c) * CameraSystem.scale c)).
Proof.
  unfold CameraSystem.update.
  destruct (CameraSystem.enableDamping (CameraSystem.options c)); reflexivity.
Qed.

Lemma ln_95 : ln (95 / 100) < - (1 / 20).
Proof.
  rewrite <- (ln_exp (- (1 / 20))). apply ln_increasing; [lra |].
  pose proof (exp_ineq1 (- (1 / 20)) ltac:(lra)). lra.
Qed.

Lemma exp_monotone (x y : R) : x <= y -> exp x <= exp y.
Proof.
  intros [Hlt | ->]; [left; now apply exp_increasing | right; reflexivity].
Qed.

(** A step of [y] wheel units scales by at most [1 / (1 + y/20)]. *)
Lemma zoomScale_closer (y : R) :
  0 <= y -> CameraSystem.zoomScaleOf y * (1 + y / 20) <= 1.
Proof.
  intros Hy. unfold CameraSystem.zoomScaleOf, Rpower.
  pose proof ln_95 as Hln.
  assert (H1 : exp (y * ln (95 / 100)) <= exp (- (y / 20)))
    by (apply exp_monotone; nra).
  pose proof (exp_ineq1_le (y / 20)) as H2.
  pose proof (exp_pos (- (y / 20))) as H3.
  assert (H4 : exp (- (y / 20)) * exp (y / 20) = 1).
  { rewrite <- exp_plus. replace (- (y / 20) + y / 20) with 0 by lra.
    apply exp_0. }
  pose proof (exp_pos (y * ln (95 / 100))) as H5.
  nra.
Qed.

Lemma zoomScale_farther (y : R) :
  y <= 0 -> 1 - y / 20 <= CameraSystem.zoomScaleOf y.
Proof.
  intros Hy. unfold CameraSystem.zoomScaleOf, Rpower.
  pose proof ln_95 as Hln.
  assert (H1 : exp (- (y / 20)) <= exp (y * ln (95 / 100)))
    by (apply exp_monotone; nra).
  pose proof (exp_ineq1_le (- (y / 20))) as H2.
  lra.
Qed.

(** X24.  The direction and the least size of the zoom, for a rig with
    options in order, a positive zoom speed, a positive accumulated scale
    and the radius within the distance limits (as every [update] leaves
    it).  Write [y] for [dollyDelta * zoomSpeed].  A positive dolly delta
    (wheel [deltaY > 0]) divides the scale by at least [1 + y/20], and the
    next [update] leaves the camera no farther from the target than it
    would have without that wheel event; when no scale had accumulated
    the new radius is at most the old one divided by [1 + y/20], or the
    minimum distance if that is larger.  A negative delta does the
    opposite: the scale is multiplied by at least [1 - y/20] and the
    radius grows by that factor, up to the maximum distance.  A zero delta
    changes nothing.  The scale stays positive.  (The source's comment on
    the parameter reads "positive = zoom out".) *)
Theorem dolly_direction (c : CameraSystem.T) (rotateDelta : Vector2)
  (dollyDelta deltaSeconds : R) :
  let o := CameraSystem.options c in
  options_ok o ->
  0 < CameraSystem.zoomSpeed o ->
  0 < CameraSystem.scale c ->
  CameraSystem.minDistance o <= CameraSystem.radius (CameraSystem.spherical c)
    <= CameraSystem.maxDistance o ->
  let y := dollyDelta * CameraSystem.zoomSpeed o in
  let c' := CameraSystem.applyControlDeltas rotateDelta dollyDelta c in
  let before := CameraSystem.radius (CameraSystem.spherical c) in
  let without :=
    CameraSystem.radius (CameraSystem.spherical (CameraSystem.update deltaSeconds c)) in
  let after :=
    CameraSystem.radius (CameraSystem.spherical (CameraSystem.update deltaSeconds c')) in
  0 < CameraSystem.scale c' /\
  (0 < dollyDelta ->
   CameraSystem.scale c' * (1 + y / 20) <= CameraSystem.scale c /\
   after <= without /\
   (CameraSystem.scale c = 1 ->
    after <= Rmax (CameraSystem.minDistance o) (before / (1 + y / 20)) <= before)) /\
  (dollyDelta < 0 ->
   CameraSystem.scale c * (1 - y / 20) <= CameraSystem.scale c' /\
   without <= after /\
   (CameraSystem.scale c = 1 ->
    before <= Rmin (CameraSystem.maxDistance o) (before * (1 - y / 20)) <= after)) /\
  (dollyDelta = 0 ->
   CameraSystem.scale c' = CameraSystem.scale c /\ after = without).
Proof.
  intros o ((Hd0 & Hd) & _) Hz Hs Hr y c' before without after.
  assert (Hafter : after =
                   Rmin (CameraSystem.maxDistance o)
                     (Rmax (CameraSystem.minDistance o)
                        (before * CameraSystem.scale c'))).
  { unfold after. rewrite update_radius. reflexivity. }
  assert (Hwithout : without =
                     Rmin (CameraSystem.maxDistance o)
                       (Rmax (CameraSystem.minDistance o)
                          (before * CameraSystem.scale c))).
  { unfold without. rewrite update_radius. reflexivity. }
  fold before in Hr.
  assert (Hscale : CameraSystem.scale c' =
                   if Req_dec_T dollyDelta 0 then CameraSystem.scale c
                   else CameraSystem.scale c * CameraSystem.zoomScaleOf y)
    by reflexivity.
  assert (Hpos : 0 < CameraSystem.zoomScaleOf y)
    by (unfold CameraSystem.zoomScaleOf, Rpower; apply exp_pos).
  clearbody after without before.
  set (s := CameraSystem.scale c) in *.
  set (s' := CameraSystem.scale c') in *.
  set (lo := CameraSystem.minDistance o) in *.
  set (hi := CameraSystem.maxDistance o) in *.
  set (z := CameraSystem.zoomScaleOf y) in *.
  clearbody s s' lo hi.
  split.
  - rewrite Hscale. destruct (Req_dec_T dollyDelta 0); [lra | nra].
  - split; [| split].
    + intros Hdolly.
      assert (Hy : 0 < y) by (unfold y; nra).
      pose proof (zoomScale_closer y ltac:(lra)) as Hz1. fold z in Hz1.
      assert (Hs' : s' = s * z).
      { rewrite Hscale. destruct (Req_dec_T dollyDelta 0); [lra | reflexivity]. }
      clear Hscale. clearbody z y.
      assert (Hz2 : z <= 1) by nra.
      assert (Hq : before * z <= before / (1 + y / 20)).
      { apply (Rmult_le_reg_r (1 + y / 20)); [lra |].
        replace (before / (1 + y / 20) * (1 + y / 20)) with before
          by (field; lra).
        nra. }
      assert (Hq2 : before / (1 + y / 20) <= before).
      { apply (Rmult_le_reg_r (1 + y / 20)); [lra |].
        replace (before / (1 + y / 20) * (1 + y / 20)) with before
          by (field; lra).
        nra. }
      assert (Hprod : before * s' <= before * s) by (rewrite Hs'; nra).
      split; [rewrite Hs'; nra |]. subst after without.
      split; [| intros H1; rewrite Hs', H1, Rmult_1_l; split];
        unfold Rmin, Rmax; repeat destruct (Rle_dec _ _); lra.
    + intros Hdolly.
      assert (Hy : y < 0) by (unfold y; nra).
      pose proof (zoomScale_farther y ltac:(lra)) as Hz1. fold z in Hz1.
      assert (Hs' : s' = s * z).
      { rewrite Hscale. destruct (Req_dec_T dollyDelta 0); [lra | reflexivity]. }
      clear Hscale. clearbody z y.
      assert (Hq : before * (1 - y / 20) <= before * z) by nra.
      assert (Hq2 : before <= before * (1 - y / 20)) by nra.
      assert (Hprod : before * s <= before * s') by (rewrite Hs'; nra).
      split; [rewrite Hs'; nra |]. subst after without.
      split; [| intros H1; rewrite Hs', H1, Rmult_1_l; split];
        unfold Rmin, Rmax; repeat destruct (Rle_dec _ _); lra.
    + intros H0.
      assert (Hs' : s' = s).
      { rewrite Hscale. destruct (Req_dec_T dollyDelta 0); [reflexivity | lra]. }
      split; [exact Hs' |]. subst after without. now rewrite Hs'.
Qed.

Lemma dolly_direction_witness :
  let c := CameraSystem.new in
  let c' := CameraSystem.applyControlDeltas {| x2 := 0; y2 := 0 |} 120 c in
  CameraSystem.radius (CameraSystem.spherical (CameraSystem.update (1 / 60) c'))
  < CameraSystem.radius (CameraSystem.spherical c).
Proof.
  intros c c'.
  assert (Hz : 0 < CameraSystem.zoomSpeed (CameraSystem.options c))
    by (simpl; lra).
  assert (Hs : 0 < CameraSystem.scale c) by (simpl; lra).
  assert (Hr : CameraSystem.minDistance (CameraSystem.options c)
               <= CameraSystem.radius (CameraSystem.spherical c)
               <= CameraSystem.maxDistance (CameraSystem.options c))
    by (simpl; lra).
  destruct (dolly_direction c {| x2 := 0; y2 := 0 |} 120 (1 / 60)
              default_options_ok Hz Hs Hr) as (_ & Hdown & _).
  destruct (Hdown ltac:(lra)) as (_ & _ & Hneutral).
  destruct (Hneutral eq_refl) as (Hle & _).
  eapply Rle_lt_trans; [exact Hle |].
  simpl. unfold Rmax. destruct (Rle_dec _ _); lra.
Defined.

(** X25.  Damping lets accumulated input die away: when damping is on and
    [dampingFactor * max(dt, 0.016)] lies in [0,1], an update multiplies the
    two angular deltas by a factor in [0,1] and moves the zoom scale toward
    1 by the same factor; when damping is off, the deltas are zeroed and the
    scale is reset to 1. *)
Theorem camera_damping (c : CameraSystem.T) (deltaSeconds : R) :
  let o := CameraSystem.options c in
  let k := CameraSystem.dampingFactor o * Rmax deltaSeconds (16 / 1000) in
  0 <= k <= 1 ->
  let c' := CameraSystem.update deltaSeconds c in
  let d := CameraSystem.sphericalDelta c in
  let d' := CameraSystem.sphericalDelta c' in
  if CameraSystem.enableDamping o
  then CameraSystem.theta d' = CameraSystem.theta d * (1 - k) /\
       CameraSystem.phi d' = CameraSystem.phi d * (1 - k) /\
       CameraSystem.scale c' - 1 = (CameraSystem.scale c - 1) * (1 - k) /\
       Rabs (CameraSystem.theta d') <= Rabs (CameraSystem.theta d) /\
       Rabs (CameraSystem.phi d') <= Rabs (CameraSystem.phi d) /\
       Rabs (CameraSystem.scale c' - 1) <= Rabs (CameraSystem.scale c - 1)
  else CameraSystem.theta d' = 0 /\ CameraSystem.phi d' = 0 /\
       CameraSystem.scale c' = 1.
Proof.
  intros o k Hk c' d d'.
  unfold d', c', CameraSystem.update. fold o.
  destruct (CameraSystem.enableDamping o); simpl; [| auto].
  fold k. fold d.
  assert (Hshrink : forall x : R, Rabs (x * (1 - k)) <= Rabs x).
  { intros x. rewrite Rabs_mult, (Rabs_right (1 - k)) by lra.
    pose proof (Rabs_pos x). nra. }
  repeat split; try lra; try apply Hshrink.
  replace (1 + (CameraSystem.scale c - 1) * (1 - k) - 1)
    with ((CameraSystem.scale c - 1) * (1 - k)) by lra.
  apply Hshrink.
Qed.

Lemma camera_damping_witness :
  let c := CameraSystem.applyControlDeltas {| x2 := 40; y2 := 0 |} 0
             CameraSystem.new in
  let c' := CameraSystem.update (1 / 60) c in
  Rabs (CameraSystem.theta (CameraSystem.sphericalDelta c'))
  <= Rabs (CameraSystem.theta (CameraSystem.sphericalDelta c)).
Proof.
  intros c c'.
  assert (Hmax : Rmax (1 / 60) (16 / 1000) = 1 / 60)
    by (unfold Rmax; destruct (Rle_dec _ _); lra).
  pose proof (camera_damping c (1 / 60)) as H.
  simpl in H. rewrite Hmax in H.
  destruct (H ltac:(lra)) as (_ & _ & _ & Ht & _).
  unfold c', c. simpl. rewrite Hmax. exact Ht.
Defined.

(** ** EventBus: listener sets *)

Section EventBusFacts.

Implicit Types (m : gmap string (list EventBus.Handler)).
Implicit Types (set : list EventBus.Handler) (event : string).

Lemma store_lookup m event set :
  store m event set !! event = if decide (length set = 0%nat) then None else Some set.
Proof.
  unfold store. destruct (decide _).
  - apply lookup_delete_eq.
  - apply lookup_insert_eq.
Qed.

Lemma store_lookup_ne m event event' set :
  event <> event' -> store m event set !! event' = m !! event'.
Proof.
  intros Hne. unfold store. destruct (decide _).
  - now apply lookup_delete_ne.
  - now apply lookup_insert_ne.
Qed.

Lemma store_store m event set set' :
  store (store m event set) event set' = store m event set'.
Proof.
  unfold store. repeat destruct (decide _).
  - apply delete_delete_eq.
  - apply delete_insert_eq.
  - apply insert_delete_eq.
  - apply insert_insert_eq.
Qed.

Lemma store_default m event set :
  default [] (store m event set !! event) = set.
Proof.
  rewrite store_lookup. destruct (decide _) as [H | H]; [| reflexivity].
  destruct set; [reflexivity | discriminate].
Qed.

(** Storing back the set an event has changes nothing, as long as no empty
    set is kept. *)
Lemma store_same m event :
  m !! event <> Some [] -> store m event (default [] (m !! event)) = m.
Proof.
  intros Hne. unfold store. destruct (m !! event) as [set |] eqn:Hm; simpl.
  - destruct (decide _) as [H | H].
    + destruct set; [congruence | discriminate].
    + now apply insert_id.
  - now apply delete_id.
Qed.

Lemma off_listeners event h (bus : EventBus.T) :
  EventBus.listeners (EventBus.off event h bus) =
    store (EventBus.listeners bus) event
      (EventBus.setDelete h (default [] (EventBus.listeners bus !! event))) /\
  EventBus.nextWrapper (EventBus.off event h bus) = EventBus.nextWrapper bus.
Proof.
  unfold EventBus.off, store.
  destruct (EventBus.listeners bus !! event) as [set |] eqn:Hm; simpl.
  - destruct (decide _); simpl; auto.
  - split; [| reflexivity]. symmetry. now apply delete_id.
Qed.

Lemma bus_ok_store (bus bus' : EventBus.T) event set :
  bus_ok bus ->
  EventBus.listeners bus' = store (EventBus.listeners bus) event set ->
  (EventBus.nextWrapper bus <= EventBus.nextWrapper bus')%nat ->
  NoDup set ->
  (forall w id, EventBus.Once w id ∈ set -> (w < EventBus.nextWrapper bus')%nat) ->
  bus_ok bus'.
Proof.
  intros Hok Hl Hn Hnd Hw event' set' Hlook. rewrite Hl in Hlook.
  destruct (decide (event = event')) as [<- | Hne].
  - rewrite store_lookup in Hlook. destruct (decide _) as [H0 | H0];
      [discriminate |]. injection Hlook as <-.
    split; [| split; assumption]. intros ->. now apply H0.
  - rewrite store_lookup_ne in Hlook by assumption.
    destruct (Hok _ _ Hlook) as (H1 & H2 & H3).
    split; [assumption |]. split; [assumption |].
    intros w id Hin. specialize (H3 w id Hin). lia.
Qed.

Lemma bus_set_facts (bus : EventBus.T) event :
  bus_ok bus ->
  let set := default [] (EventBus.listeners bus !! event) in
  EventBus.listeners bus !! event <> Some [] /\ NoDup set /\
  (forall w id, EventBus.Once w id ∈ set -> (w < EventBus.nextWrapper bus)%nat).
Proof.
  intros Hok set. unfold set.
  destruct (EventBus.listeners bus !! event) as [l |] eqn:Hm; simpl.
  - destruct (Hok _ _ Hm) as (H1 & H2 & H3). repeat split; try assumption.
    congruence.
  - repeat split; [discriminate | constructor |].
    intros w id Hin. now apply not_elem_of_nil in Hin.
Qed.

Lemma bus_ok_off event h (bus : EventBus.T) :
  bus_ok bus -> bus_ok (EventBus.off event h bus).
Proof.
  intros Hok. destruct (off_listeners event h bus) as (Hl & Hn).
  destruct (bus_set_facts bus event Hok) as (_ & Hnd & Hw).
  eapply bus_ok_store; [exact Hok | exact Hl | lia | |].
  - now apply NoDup_filter.
  - intros w id Hin. rewrite Hn. apply (Hw w id).
    apply list_elem_of_filter in Hin. tauto.
Qed.

Lemma bus_ok_on event h (bus : EventBus.T) :
  bus_ok bus ->
  (forall w id, h = EventBus.Once w id -> (w < EventBus.nextWrapper bus)%nat) ->
  bus_ok (EventBus.on event h bus).
Proof.
  intros Hok Hh.
  destruct (bus_set_facts bus event Hok) as (_ & Hnd & Hw).
  assert (Hne : length (EventBus.setAdd h
                          (default [] (EventBus.listeners bus !! event))) <> 0%nat).
  { unfold EventBus.setAdd. destruct (decide _) as [Hin | Hin].
    - destruct (default [] _); [now apply not_elem_of_nil in Hin | discriminate].
    - rewrite length_app. simpl. lia. }
  eapply (bus_ok_store bus _ event
            (EventBus.setAdd h (default [] (EventBus.listeners bus !! event))));
    [exact Hok | | simpl; lia | |].
  - simpl. unfold store. now destruct (decide _).
  - unfold EventBus.setAdd. destruct (decide _) as [Hin | Hin]; [assumption |].
    apply NoDup_app. split; [assumption |]. split.
    + intros x Hx Hx'. apply list_elem_of_singleton in Hx'. now subst.
    + apply NoDup_singleton.
  - simpl. intros w id Hin. unfold EventBus.setAdd in Hin.
    destruct (decide _) as [_ | _]; [now apply (Hw w id) |].
    apply elem_of_app in Hin as [Hin | Hin]; [now apply (Hw w id) |].
    apply list_elem_of_singleton in Hin. now apply (Hh w id).
Qed.

Lemma bus_ok_once event id (bus : EventBus.T) :
  bus_ok bus -> bus_ok (EventBus.once event id bus).
Proof.
  intros Hok. unfold EventBus.once. apply bus_ok_on.
  - intros e set Hlook. destruct (Hok e set Hlook) as (H1 & H2 & H3).
    repeat split; try assumption. intros w i Hin. simpl.
    specialize (H3 w i Hin). lia.
  - intros w i Heq. injection Heq as <- <-. simpl. lia.
Qed.

Lemma bus_ok_fold_invoke event (hs : list EventBus.Handler) :
  forall bus : EventBus.T,
    bus_ok bus -> bus_ok (fold_left (EventBus.invoke event) hs bus).
Proof.
  induction hs as [| h hs IH]; intros bus Hok; simpl; [exact Hok |].
  apply IH. destruct h; simpl; [exact Hok | now apply bus_ok_off].
Qed.

Lemma bus_ok_emit event (bus : EventBus.T) :
  bus_ok bus -> bus_ok (snd (EventBus.emit event bus)).
Proof.
  intros Hok. unfold EventBus.emit.
  destruct (EventBus.listeners bus !! event) as [set |]; [| exact Hok].
  destruct (decide _); [exact Hok |]. simpl. now apply bus_ok_fold_invoke.
Qed.

Lemma bus_ok_new : bus_ok EventBus.new.
Proof. intros e set H. simpl in H. now rewrite lookup_empty in H. Qed.

Lemma bus_ok_step (bus : EventBus.T) (op : EventBus.Op) :
  bus_ok bus -> bus_ok (EventBus.step bus op).
Proof.
  intros Hok. destruct op; simpl.
  - apply bus_ok_on; [exact Hok | discriminate].
  - now apply bus_ok_off.
  - now apply bus_ok_once.
  - now apply bus_ok_emit.
  - intros e set H. simpl in H. now rewrite lookup_empty in H.
Qed.

End EventBusFacts.

(** X26.  Whatever sequence of [on], [off], [once], [emit] and [clearAll] a
    client issues, the bus keeps no event with an empty handler set and
    lists no handler twice for an event; so [emit] finds either no set or a
    non-empty one, and calls each registered handler exactly once. *)
Theorem bus_reachable_ok (ops : list EventBus.Op) (event : string) :
  let bus := EventBus.run ops EventBus.new in
  bus_ok bus /\
  (EventBus.listeners bus !! event = None /\ fst (EventBus.emit event bus) = []
   \/ exists set : list EventBus.Handler,
        EventBus.listeners bus !! event = Some set /\ set <> [] /\ NoDup set /\
        fst (EventBus.emit event bus) = map EventBus.baseOf set).
Proof.
  intros bus.
  assert (Hok : bus_ok bus).
  { unfold bus, EventBus.run. generalize EventBus.new bus_ok_new.
    induction ops as [| op ops IH]; intros b Hb; simpl; [exact Hb |].
    apply IH. now apply bus_ok_step. }
  split; [exact Hok |].
  unfold EventBus.emit.
  destruct (EventBus.listeners bus !! event) as [set |] eqn:Hm.
  - right. destruct (Hok _ _ Hm) as (Hne & Hnd & _).
    exists set. repeat split; try assumption.
    destruct (decide _) as [H0 | H0]; [| reflexivity].
    destruct set; [congruence | discriminate].
  - left. auto.
Qed.

Section EventBusDelivery.

Implicit Types (set hs : list EventBus.Handler) (event : string).

Lemma filter_all {A : Type} (P : A -> Prop) `{!forall x, Decision (P x)}
    (l : list A) :
  (forall x, x ∈ l -> P x) -> filter P l = l.
Proof.
  induction l as [| a l IH]; intros Hall; [reflexivity |].
  rewrite filter_cons. destruct (decide (P a)) as [_ | Hn].
  - f_equal. apply IH. intros x Hx. apply Hall. now right.
  - exfalso. apply Hn, Hall. now left.
Qed.

Lemma filter_ext_in {A : Type} (P Q : A -> Prop)
    `{!forall x, Decision (P x)} `{!forall x, Decision (Q x)} (l : list A) :
  (forall x, x ∈ l -> (P x <-> Q x)) -> filter P l = filter Q l.
Proof.
  induction l as [| a l IH]; intros Hall; [reflexivity |].
  rewrite !filter_cons.
  assert (Ha : P a <-> Q a) by (apply Hall; now left).
  assert (Hl : filter P l = filter Q l).
  { apply IH. intros x Hx. apply Hall. now right. }
  destruct (decide (P a)), (decide (Q a)); try tauto; now rewrite Hl.
Qed.

Lemma setDelete_fresh h set : h ∉ set -> EventBus.setDelete h set = set.
Proof.
  intros Hn. apply filter_all. intros x Hx ->. now apply Hn.
Qed.

Lemma store_insert (m : gmap string (list EventBus.Handler)) event set set' :
  store (<[event := set]> m) event set' = store m event set'.
Proof.
  unfold store. destruct (decide _).
  - apply delete_insert_eq.
  - apply insert_insert_eq.
Qed.

(** The loop of [emit]: each once-wrapper takes itself out of the set, a
    plain handler leaves the bus alone. *)
Lemma fold_invoke_listeners event hs :
  forall bus : EventBus.T,
    bus_ok bus ->
    EventBus.listeners (fold_left (EventBus.invoke event) hs bus) =
      store (EventBus.listeners bus) event
        (filter (fun x => x ∉ filter (fun h => ~ isPlain h) hs)
                (default [] (EventBus.listeners bus !! event))) /\
    EventBus.nextWrapper (fold_left (EventBus.invoke event) hs bus) =
      EventBus.nextWrapper bus.
Proof.
  induction hs as [| h hs IH]; intros bus Hok; simpl fold_left.
  - split; [| reflexivity]. rewrite filter_nil.
    rewrite filter_all by (intros x _; apply not_elem_of_nil).
    symmetry. apply store_same.
    now destruct (bus_set_facts bus event Hok) as (H & _).
  - destruct h as [id | w id].
    + simpl EventBus.invoke. rewrite filter_cons.
      destruct (decide (~ isPlain (EventBus.Plain id))) as [Hn | _];
        [exfalso; apply Hn; exact I |].
      now apply IH.
    + simpl EventBus.invoke.
      destruct (IH _ (bus_ok_off event (EventBus.Once w id) bus Hok))
        as (Hl & Hn).
      destruct (off_listeners event (EventBus.Once w id) bus) as (Hl' & Hn').
      split; [| congruence].
      rewrite Hl, Hl', store_default, store_store. f_equal.
      rewrite filter_cons.
      destruct (decide (~ isPlain (EventBus.Once w id))) as [_ | Hn''];
        [| exfalso; apply Hn''; intros []].
      unfold EventBus.setDelete. rewrite list_filter_filter.
      apply filter_ext_in. intros x _. rewrite not_elem_of_cons. tauto.
Qed.

Lemma emit_effect event (bus : EventBus.T) :
  bus_ok bus ->
  let set := default [] (EventBus.listeners bus !! event) in
  fst (EventBus.emit event bus) = map EventBus.baseOf set /\
  EventBus.listeners (snd (EventBus.emit event bus)) =
    store (EventBus.listeners bus) event (filter isPlain set) /\
  EventBus.nextWrapper (snd (EventBus.emit event bus)) =
    EventBus.nextWrapper bus.
Proof.
  intros Hok set. unfold set, EventBus.emit.
  destruct (EventBus.listeners bus !! event) as [l |] eqn:Hm; simpl default.
  - destruct (Hok _ _ Hm) as (Hne & _ & _).
    destruct (decide _) as [H0 | _];
      [destruct l; [congruence | discriminate] |].
    cbn [fst snd]. split; [reflexivity |].
    destruct (fold_invoke_listeners event l bus Hok) as (Hl & Hn).
    split; [| exact Hn]. rewrite Hl, Hm. simpl default. f_equal.
    apply filter_ext_in. intros x Hx. split.
    + intros Hnot. destruct (decide (isPlain x)) as [Hp | Hp]; [exact Hp |].
      exfalso. apply Hnot. apply list_elem_of_filter. now split.
    + intros Hp Hin. apply list_elem_of_filter in Hin. tauto.
  - cbn [fst snd]. repeat split. rewrite filter_nil. unfold store. simpl.
    symmetry. now apply delete_id.
Qed.

End EventBusDelivery.

(** X27.  Registering a handler is idempotent, and unregistering a handler
    that was not registered before undoes its registration: the bus is
    back in the state it had, with no empty set left behind for the event. *)
Theorem on_off_round_trip (bus : EventBus.T) (event : string) (id : nat) :
  bus_ok bus ->
  EventBus.Plain id ∉ default [] (EventBus.listeners bus !! event) ->
  EventBus.off event (EventBus.Plain id)
    (EventBus.on event (EventBus.Plain id) bus) = bus /\
  EventBus.on event (EventBus.Plain id)
    (EventBus.on event (EventBus.Plain id) bus) =
  EventBus.on event (EventBus.Plain id) bus.
Proof.
  intros Hok Hfresh. split.
  - destruct (off_listeners event (EventBus.Plain id)
                (EventBus.on event (EventBus.Plain id) bus)) as (Hl & Hn).
    destruct bus as [m n]. simpl in *.
    destruct (EventBus.off event (EventBus.Plain id) _) as [m' n'].
    simpl in Hl, Hn. subst n'. f_equal. rewrite Hl.
    rewrite lookup_insert_eq. simpl default. rewrite store_insert.
    unfold EventBus.setAdd. destruct (decide _) as [Hin | _]; [tauto |].
    unfold EventBus.setDelete. rewrite filter_app.
    fold (EventBus.setDelete (EventBus.Plain id) (default [] (m !! event))).
    rewrite setDelete_fresh by assumption.
    rewrite filter_cons, filter_nil.
    destruct (decide _) as [Hne | _]; [congruence |].
    rewrite app_nil_r. apply store_same.
    now destruct (bus_set_facts {| EventBus.listeners := m;
                                   EventBus.nextWrapper := n |} event Hok)
      as (H & _).
  - unfold EventBus.on. simpl. rewrite lookup_insert_eq. simpl default.
    rewrite insert_insert_eq. f_equal. f_equal.
    unfold EventBus.setAdd at 1.
    destruct (decide _) as [_ | Hn]; [reflexivity |].
    exfalso. apply Hn. unfold EventBus.setAdd.
    destruct (decide _) as [Hin | _]; [exact Hin |].
    apply elem_of_app. right. now left.
Qed.

Lemma on_off_round_trip_witness :
  let bus := EventBus.on "tick" (EventBus.Plain 1) EventBus.new in
  EventBus.off "tick" (EventBus.Plain 2)
    (EventBus.on "tick" (EventBus.Plain 2) bus) = bus.
Proof.
  intros bus.
  refine (proj1 (on_off_round_trip bus "tick" 2
                   (bus_ok_on "tick" (EventBus.Plain 1) EventBus.new
                      bus_ok_new _) _)).
  - discriminate.
  - vm_compute. intros H. inversion H as [| ? ? ? H']; subst. inversion H'.
Defined.

(** X28.  [emit] calls every handler registered for the event, in the order
    of registration, and afterwards exactly the handlers registered with
    [on] remain: each [once] handler has taken itself out, and the event is
    dropped from the map when nothing remains.  Other events are not
    touched. *)
Theorem emit_drops_once_handlers (bus : EventBus.T) (event other : string) :
  bus_ok bus ->
  let set := default [] (EventBus.listeners bus !! event) in
  let bus' := snd (EventBus.emit event bus) in
  fst (EventBus.emit event bus) = map EventBus.baseOf set /\
  default [] (EventBus.listeners bus' !! event) = filter isPlain set /\
  (filter isPlain set = [] -> EventBus.listeners bus' !! event = None) /\
  (event <> other ->
   EventBus.listeners bus' !! other = EventBus.listeners bus !! other) /\
  fst (EventBus.emit event bus') = map EventBus.baseOf (filter isPlain set).
Proof.
  intros Hok set bus'.
  destruct (emit_effect event bus Hok) as (Hc & Hl & Hn).
  fold set in Hc, Hl. fold bus' in Hl, Hn.
  split; [exact Hc |].
  assert (Hd : default [] (EventBus.listeners bus' !! event) =
               filter isPlain set).
  { rewrite Hl. apply store_default. }
  split; [exact Hd |]. split; [| split].
  - intros He. rewrite Hl, store_lookup, He. reflexivity.
  - intros Hne. rewrite Hl. now apply store_lookup_ne.
  - destruct (emit_effect event bus' (bus_ok_emit event bus Hok))
      as (Hc' & _). rewrite Hc', Hd. reflexivity.
Qed.

Lemma emit_drops_once_handlers_witness :
  let bus := EventBus.once "tick" 7
               (EventBus.on "tick" (EventBus.Plain 1) EventBus.new) in
  fst (EventBus.emit "tick" bus) = [1; 7]%nat /\
  fst (EventBus.emit "tick" (snd (EventBus.emit "tick" bus))) = [1]%nat.
Proof.
  intros bus.
  assert (Hok : bus_ok bus).
  { apply bus_ok_once, bus_ok_on; [apply bus_ok_new | discriminate]. }
  destruct (emit_drops_once_handlers bus "tick" "tock" Hok)
    as (H1 & _ & _ & _ & H5).
  split; [exact H1 | exact H5].
Defined.

(** X29.  A handler registered with [once] is called by the next [emit] of
    its event, after the handlers already registered, and never again:
    after that [emit] the listeners are what they would be had [once] not
    been called. *)
Theorem once_fires_once (bus : EventBus.T) (event : string) (id : nat) :
  bus_ok bus ->
  let bus1 := EventBus.once event id bus in
  fst (EventBus.emit event bus1) = fst (EventBus.emit event bus) ++ [id] /\
  EventBus.listeners (snd (EventBus.emit event bus1)) =
    EventBus.listeners (snd (EventBus.emit event bus)).
Proof.
  intros Hok bus1.
  destruct (emit_effect event bus Hok) as (Hc & Hl & _).
  destruct (emit_effect event bus1 (bus_ok_once event id bus Hok))
    as (Hc1 & Hl1 & _).
  destruct (bus_set_facts bus event Hok) as (_ & _ & Hw).
  set (set := default [] (EventBus.listeners bus !! event)) in *.
  set (w := EventBus.Once (EventBus.nextWrapper bus) id).
  assert (Hfresh : w ∉ set).
  { intros Hin. specialize (Hw _ _ Hin). lia. }
  assert (Hset : EventBus.listeners bus1 =
                 <[event := set ++ [w]]> (EventBus.listeners bus)).
  { unfold bus1, EventBus.once, EventBus.on. simpl. fold set. fold w.
    unfold EventBus.setAdd. destruct (decide _) as [Hin | _]; tauto. }
  rewrite Hset, lookup_insert_eq in Hc1, Hl1. simpl default in Hc1, Hl1.
  split.
  - rewrite Hc1, Hc, map_app. reflexivity.
  - rewrite Hl1, Hl, store_insert, filter_app. f_equal.
    rewrite filter_cons, filter_nil.
    destruct (decide (isPlain w)) as [[] | _]. apply app_nil_r.
Qed.

Lemma once_fires_once_witness :
  let bus := EventBus.on "tick" (EventBus.Plain 1) EventBus.new in
  fst (EventBus.emit "tick" (EventBus.once "tick" 7 bus)) =
    fst (EventBus.emit "tick" bus) ++ [7%nat].
Proof.
  intros bus.
  refine (proj1 (once_fires_once bus "tick" 7
                   (bus_ok_on "tick" (EventBus.Plain 1) EventBus.new
                      bus_ok_new _))).
  discriminate.
Defined.
